(** * Reverse proxy service: operation-execution pipeline

    A shallow embedding of the Python sources

    - [providers/openliga.py]  (RateLimiter, OpenLigaProvider),
    - [proxy/schemas.py]       (payload and response models),
    - [proxy/decision_mapper.py] (DecisionMapper.execute_operation),

    together with the properties the specification states about them.

    Conventions.  Python [float]s (timestamps, delays) are idealised as
    exact rationals [Q]; Python [int]s are [Z]; a [dict] is an association
    list in insertion order with unique keys; exceptions are an explicit
    outcome.  [audit_log] calls only write log lines and are left out. *)

From Stdlib Require Import ZArith QArith Qabs Qminmax Qpower String DecimalString List Bool Lia Lqa.
Import ListNotations.
Open Scope string_scope.
Open Scope Z_scope.

Set Implicit Arguments.

(* ================================================================== *)
(** ** Python values *)

(** The values that [response.json()] can produce, plus [datetime], which
    only the response models create.  A datetime is identified by its POSIX
    timestamp. *)
#[warnings="-register-all"] Inductive pyval : Type :=
| PNone
| PBool (b : bool)
| PInt (z : Z)
| PFloat (q : Q)
| PStr (s : string)
| PList (l : list pyval)
| PDict (d : list (string * pyval))
| PDatetime (stamp : Q).

Definition pydict := list (string * pyval).

(** Python truthiness, [bool(v)]. *)
Definition truthy (v : pyval) : bool :=
  match v with
  | PNone => false
  | PBool b => b
  | PInt z => negb (z =? 0)
  | PFloat q => negb (Qeq_bool q 0)
  | PStr s => negb (String.eqb s "")
  | PList l => match l with [] => false | _ => true end
  | PDict d => match d with [] => false | _ => true end
  | PDatetime _ => true
  end.

(** [d.get(k)] and [d.get(k, default)]. *)
Fixpoint lookup (k : string) (d : pydict) : option pyval :=
  match d with
  | [] => None
  | (k', v) :: d' => if String.eqb k k' then Some v else lookup k d'
  end.

Definition get (d : pydict) (k : string) (default : pyval) : pyval :=
  match lookup k d with
  | Some v => v
  | None => default
  end.

Definition get_none (d : pydict) (k : string) : pyval := get d k PNone.

(** [k in d]. *)
Definition has_key (k : string) (d : pydict) : bool :=
  match lookup k d with Some _ => true | None => false end.

(** [isinstance(v, dict)] and [isinstance(v, list)]. *)
Definition is_dict (v : pyval) : bool :=
  match v with PDict _ => true | _ => false end.

Definition is_list (v : pyval) : bool :=
  match v with PList _ => true | _ => false end.

(** [v if isinstance(v, dict) else {}], the guard both match mappers apply
    to the nested team objects. *)
Definition dict_or_empty (v : pyval) : pydict :=
  match v with PDict d => d | _ => [] end.

(* ================================================================== *)
(** ** Outcomes of a call *)

(** A coroutine either returns, raises an exception carrying [str(e)], or
    never completes. *)
Inductive outcome (A : Type) : Type :=
| Returned (a : A)
| Raised (msg : string)
| Hangs.

Arguments Returned {A} a.
Arguments Raised {A} msg.
Arguments Hangs {A}.

(* ================================================================== *)
(** ** RateLimiter *)

Module RateLimiter.

(** [self.max_requests], [self.time_window], [self.requests] and the state
    of [self.lock] (an [asyncio.Lock], which is not re-entrant). *)
Record t : Type := mk {
  max_requests : Z;
  time_window : Q;
  requests : list Q;
  locked : bool
}.

(** [RateLimiter(max_requests, time_window)]. *)
Definition init (n : Z) (w : Q) : t :=
  {| max_requests := n; time_window := w; requests := []; locked := false |}.

Definition set_requests (rl : t) (rs : list Q) : t :=
  {| max_requests := max_requests rl; time_window := time_window rl;
     requests := rs; locked := locked rl |}.

Definition set_locked (rl : t) (b : bool) : t :=
  {| max_requests := max_requests rl; time_window := time_window rl;
     requests := requests rl; locked := b |}.

(** [now - req_time < self.time_window]. *)
Definition fresh (w now req_time : Q) : bool :=
  negb (Qle_bool w (now - req_time)).

(** The list comprehension that drops requests outside the window. *)
Definition prune (rl : t) (now : Q) : list Q :=
  filter (fresh (time_window rl) now) (requests rl).

(** The small margin added to every wait: [0.1]. *)
Definition margin : Q := 1 # 10.

(** [self.time_window - (now - self.requests[0]) + 0.1]. *)
Definition sleep_time (rl : t) (now oldest : Q) : Q :=
  (time_window rl - (now - oldest) + margin)%Q.

(** How one call of [acquire()] ends when no other coroutine runs. *)
Inductive result : Type :=
| Granted (rl : t) (at_time : Q)   (* slot recorded, lock released *)
| Deadlock (rl : t) (since : Q)     (* waits for [self.lock] for ever *)
| IndexError (rl : t)               (* [self.requests[0]] on an empty list *)
| OutOfFuel.

(** [acquire], run alone from time [now].  [async with self.lock] on a
    lock that is held suspends until it is released; in a run without any
    other coroutine nobody releases it.  The recursive call of the source
    sits inside the [async with] block, so it is made with the lock held. *)
Fixpoint acquire (fuel : nat) (rl : t) (now : Q) : result :=
  match fuel with
  | O => OutOfFuel
  | S fuel' =>
      if locked rl then Deadlock rl now
      else
        let rl1 := set_locked (set_requests rl (prune rl now)) true in
        if (Z.of_nat (length (requests rl1)) >=? max_requests rl1)%Z then
          match requests rl1 with
          | [] => IndexError (set_locked rl1 false)
          | oldest :: _ =>
              (* await asyncio.sleep(sleep_time); return await self.acquire() *)
              match acquire fuel' rl1 (now + sleep_time rl1 now oldest)%Q with
              | Granted rl2 at_time => Granted (set_locked rl2 false) at_time
              | r => r
              end
          end
        else
          Granted
            (set_locked (set_requests rl1 (requests rl1 ++ [now])) false)
            now
  end.

(** Fuel that is always enough: the nested call returns at once. *)
Definition enough : nat := 2.

(** The limiter as a call leaves it. *)
Definition state_of (r : result) (before : t) : t :=
  match r with
  | Granted rl _ | Deadlock rl _ | IndexError rl => rl
  | OutOfFuel => before
  end.

(** Calls made one after the other, each at its own clock reading. *)
Fixpoint acquire_each (rl : t) (times : list Q) : list result :=
  match times with
  | [] => []
  | now :: rest =>
      let r := acquire enough rl now in
      r :: acquire_each (state_of r rl) rest
  end.

End RateLimiter.

(* ================================================================== *)
(** ** Concurrent callers of [acquire]

    asyncio runs coroutines cooperatively: a coroutine runs without
    interruption between two [await]s.  [acquire] has three suspension
    points: entering [async with self.lock] (only when the lock is held),
    [asyncio.sleep], and the nested [self.acquire()], which enters
    [async with self.lock] again.  A caller is at one of these points, or
    has finished. *)

Module Callers.

Inductive pc : Type :=
| Calling               (* at the outer [async with self.lock] *)
| Sleeping (wake : Q)   (* holds the lock, in [asyncio.sleep] *)
| Reentering            (* holds the lock, at the nested [async with] *)
| Done (at_time : Q)    (* slot recorded, lock released *)
| Failed.               (* [IndexError], lock released *)

Record sys : Type := mk {
  limiter : RateLimiter.t;
  now : Q;
  callers : list pc
}.

Fixpoint update {A : Type} (i : nat) (x : A) (l : list A) : list A :=
  match l, i with
  | [], _ => []
  | _ :: l', O => x :: l'
  | y :: l', S i' => y :: update i' x l'
  end.

Definition is_done (p : pc) : bool :=
  match p with Done _ => true | _ => false end.

(** Number of callers that have been granted a slot. *)
Definition granted (s : sys) : nat :=
  length (filter is_done (callers s)).

Definition holds_lock (p : pc) : bool :=
  match p with Sleeping _ | Reentering => true | _ => false end.

(** [now] is what [time.time()] reads.  It is the wall clock: between two
    steps it may move by any amount [d], forwards or backwards. *)
Inductive step : sys -> sys -> Prop :=
| step_tick : forall s d,
    step s (mk (limiter s) (now s + d)%Q (callers s))
| step_call : forall s,
    step s (mk (limiter s) (now s) (callers s ++ [Calling]))
| step_grant : forall s i,
    nth_error (callers s) i = Some Calling ->
    RateLimiter.locked (limiter s) = false ->
    (Z.of_nat (length (RateLimiter.prune (limiter s) (now s)))
       >=? RateLimiter.max_requests (limiter s))%Z = false ->
    step s
      (mk (RateLimiter.set_requests (limiter s)
             (RateLimiter.prune (limiter s) (now s) ++ [now s]))
          (now s)
          (update i (Done (now s)) (callers s)))
| step_wait : forall s i oldest rest,
    nth_error (callers s) i = Some Calling ->
    RateLimiter.locked (limiter s) = false ->
    (Z.of_nat (length (RateLimiter.prune (limiter s) (now s)))
       >=? RateLimiter.max_requests (limiter s))%Z = true ->
    RateLimiter.prune (limiter s) (now s) = oldest :: rest ->
    step s
      (mk (RateLimiter.set_locked
             (RateLimiter.set_requests (limiter s) (oldest :: rest)) true)
          (now s)
          (update i
             (Sleeping (now s + RateLimiter.sleep_time (limiter s) (now s) oldest)%Q)
             (callers s)))
| step_fail : forall s i,
    nth_error (callers s) i = Some Calling ->
    RateLimiter.locked (limiter s) = false ->
    (Z.of_nat (length (RateLimiter.prune (limiter s) (now s)))
       >=? RateLimiter.max_requests (limiter s))%Z = true ->
    RateLimiter.prune (limiter s) (now s) = [] ->
    step s
      (mk (RateLimiter.set_requests (limiter s) []) (now s)
          (update i Failed (callers s)))
| step_wake : forall s i wake,
    nth_error (callers s) i = Some (Sleeping wake) ->
    step s (mk (limiter s) (now s) (update i Reentering (callers s))).
(* No rule for [Reentering], nor for [Calling] while the lock is held:
   both wait for a release of [self.lock].  [asyncio.sleep] measures its
   duration on the event loop's own clock, so the end of a sleep is not tied
   to the reading of [time.time()]. *)

Inductive steps : sys -> sys -> Prop :=
| steps_refl : forall s, steps s s
| steps_cons : forall s1 s2 s3, step s1 s2 -> steps s2 s3 -> steps s1 s3.

(** The runs in which [time.time()] never steps back. *)
Inductive steps_forward : sys -> sys -> Prop :=
| forward_refl : forall s, steps_forward s s
| forward_cons : forall s1 s2 s3,
    step s1 s2 -> (now s1 <= now s2)%Q -> steps_forward s2 s3 ->
    steps_forward s1 s3.

(** A fresh limiter and no caller yet. *)
Definition start (n : Z) (w : Q) (t0 : Q) : sys :=
  mk (RateLimiter.init n w) t0 [].

(** The lock is held exactly when some caller is inside the block. *)
Definition lock_consistent (s : sys) : Prop :=
  RateLimiter.locked (limiter s) = existsb holds_lock (callers s).

(** The times at which slots were granted. *)
Definition times_of (l : list pc) : list Q :=
  flat_map (fun p => match p with Done t => [t] | _ => [] end) l.

Definition done_times (s : sys) : list Q := times_of (callers s).

(** [theta < t]. *)
Definition later_than (theta t : Q) : bool := negb (Qle_bool t theta).

(** [t] lies in the trailing window of length [w] that ends at [T]. *)
Definition in_window (w T t : Q) : bool :=
  later_than (T - w) t && Qle_bool t T.

Definition count (f : Q -> bool) (l : list Q) : nat := length (filter f l).

(** What every reachable state satisfies: the limiter holds at most
    [max_requests] timestamps; above any threshold not older than the
    window, the grants are among the recorded timestamps; and no window
    that ends in the past holds more than [max_requests] grants. *)
Definition window_invariant (s : sys) : Prop :=
  Z.of_nat (length (RateLimiter.requests (limiter s)))
    <= RateLimiter.max_requests (limiter s)
  /\ (forall theta,
        (now s - RateLimiter.time_window (limiter s) <= theta)%Q ->
        (count (later_than theta) (done_times s)
         <= count (later_than theta) (RateLimiter.requests (limiter s)))%nat)
  /\ (forall T,
        (T <= now s)%Q ->
        Z.of_nat (count (in_window (RateLimiter.time_window (limiter s)) T)
                    (done_times s))
          <= RateLimiter.max_requests (limiter s)).

(** Number of callers inside the locked block. *)
Definition holders (s : sys) : nat :=
  length (filter holds_lock (callers s)).

(** A scenario with [RateLimiter(max_requests=1, time_window=60)]: the
    first caller took the only slot at t=0, the second found the window
    full and sleeps until t=60.1, a third has just called. *)
Definition one_waiting : sys :=
  mk (RateLimiter.mk 1 60 [0%Q] true) 0
     [Done 0; Sleeping (601 # 10); Calling].

(** The same callers at t=61, when the slot taken at t=0 has left the
    window and the sleeper has woken up. *)
Definition one_waiting_later : sys :=
  mk (RateLimiter.mk 1 60 [0%Q] true) 61
     [Done 0; Reentering; Calling].

End Callers.

(* ================================================================== *)
(** ** The upstream and the HTTP session *)

(** [str(n)] for a Python int. *)
Definition str_of_Z (z : Z) : string :=
  NilZero.string_of_int (Z.to_int z).

(** What the upstream does with one HTTP request put on the wire: it answers
    with a status and a JSON body, or the exchange fails (connection refused,
    timeout, ...).  An [Answer] is one that the session treats by its status
    alone: it carries no [Location] header, which [requests] would follow
    with further requests ([session.request] is called without
    [allow_redirects=False]), and no [Retry-After] header with status 413,
    which the mounted [Retry] would honour with a re-send.  Statements that
    count requests on the wire are about such upstreams; statements about
    what [session.request] hands back ([seen]) and about the loop's attempts
    do not depend on it. *)
Inductive wire : Type :=
| Answer (status_code : Z) (body : pyval)
| Broken (reason : string).

(** What [self.session.request(...)] hands back to its caller: a response,
    or a [requests.exceptions.RequestException]. *)
Inductive response : Type :=
| Response (status_code : Z) (json : pyval)
| RequestException (reason : string).

(** [status_forcelist=[429, 500, 502, 503, 504]], also the list tested by
    [_make_request]. *)
Definition retryable_statuses : list Z := [429; 500; 502; 503; 504].

Definition retryable (status_code : Z) : bool :=
  existsb (Z.eqb status_code) retryable_statuses.

(** [Retry(total=2, ...)] mounted on the session. *)
Definition retry_total : nat := 2.

(** The mounted [HTTPAdapter(max_retries=Retry(total=2, status_forcelist=...,
    raise_on_status=False))]: a request whose answer has a listed status, or
    whose exchange fails, is sent again while the retry budget lasts; when
    the budget is spent the last response is returned ([raise_on_status] is
    false) or the failure is raised.  [sent] counts the HTTP requests put on
    the wire; the [n]-th one gets the answer [up n].  Only the re-sends of
    this [Retry] by status and by failure are modelled (see [wire]). *)
Fixpoint send (budget : nat) (up : nat -> wire) (sent : nat) : response * nat :=
  match up sent with
  | Answer code body =>
      if retryable code then
        match budget with
        | O => (Response code body, S sent)
        | S budget' => send budget' up (S sent)
        end
      else (Response code body, S sent)
  | Broken reason =>
      match budget with
      | O => (RequestException reason, S sent)
      | S budget' => send budget' up (S sent)
      end
  end.

(* ================================================================== *)
(** ** OpenLigaProvider: the retrying caller *)

(** The backoff attributes set in [OpenLigaProvider.__init__]. *)
Record RetryPolicy : Type := mkRetryPolicy {
  max_retries : Z;
  base_delay : Q;
  max_delay : Q;
  backoff_multiplier : Q;
  jitter_range : Q
}.

(** Everything a call reads and changes: the limiter, the clock, the
    upstream with the number of HTTP requests sent to it so far, the random
    source ([rng n] is the [n]-th value of [random.random()], in [0, 1)) with
    the number of values drawn, and two logs: the number of
    [session.request] calls and the durations passed to [asyncio.sleep] by
    [_make_request]. *)
Record World : Type := mkWorld {
  rate_limiter : RateLimiter.t;
  clock : Q;
  upstream : string -> nat -> wire;
  sent : nat;
  rng : nat -> Q;
  drawn : nat;
  attempts : nat;
  sleeps : list Q
}.

(** Computations that read and change the world. *)
Definition M (A : Type) : Type := World -> A * World.

Definition ret {A : Type} (a : A) : M A := fun w => (a, w).

Definition bind {A B : Type} (m : M A) (k : A -> M B) : M B :=
  fun w => let (a, w') := m w in k a w'.

Notation "x <- m ;; k" := (bind m (fun x => k))
  (at level 61, m at next level, right associativity).
Notation "m ;;; k" := (bind m (fun _ => k))
  (at level 61, right associativity).

(** [self.session.request(method, url, timeout=10)]. *)
Definition session_request (url : string) : M response :=
  fun w =>
    let (r, n) := send retry_total (upstream w url) (sent w) in
    (r, mkWorld (rate_limiter w) (clock w) (upstream w) n (rng w) (drawn w)
          (S (attempts w)) (sleeps w)).

(** [random.uniform(a, b)], that is [a + (b - a) * random.random()]. *)
Definition uniform (a b : Q) : M Q :=
  fun w =>
    ((a + (b - a) * rng w (drawn w))%Q,
     mkWorld (rate_limiter w) (clock w) (upstream w) (sent w) (rng w)
       (S (drawn w)) (attempts w) (sleeps w)).

(** [await asyncio.sleep(d)]: a non-positive duration returns at once. *)
Definition sleep (d : Q) : M unit :=
  fun w =>
    (tt,
     mkWorld (rate_limiter w) (clock w + Qmax 0 d)%Q (upstream w) (sent w)
       (rng w) (drawn w) (attempts w) (sleeps w ++ [d])).

(** [sys.float_info.max], the largest finite float. *)
Definition float_max : Q := inject_Z (2 ^ 1024 - 2 ^ 971).

(** A value that a float operation can produce: Python's float power
    [x ** n] raises [OverflowError] when its result is beyond this range. *)
Definition in_float_range (x : Q) : Prop := (Qabs x <= float_max)%Q.

(** [self.backoff_multiplier ** attempt] evaluates without [OverflowError]. *)
Definition power_in_range (p : RetryPolicy) (attempt : nat) : Prop :=
  in_float_range (backoff_multiplier p ^ Z.of_nat attempt).

(** [min(self.base_delay * (self.backoff_multiplier ** attempt),
         self.max_delay)], the floats read as exact rationals.  This is the
    value the code computes when [power_in_range p attempt] holds; when the
    power overflows, the code raises [OverflowError] out of [_make_request]
    instead, which the loop below does not model: statements about the
    retries a call makes assume [power_in_range] for them. *)
Definition delay (p : RetryPolicy) (attempt : nat) : Q :=
  Qmin (base_delay p * backoff_multiplier p ^ Z.of_nat attempt)%Q (max_delay p).

(** The backoff block shared by both retry branches: delay, jitter,
    [sleep_time = max(0, delay + jitter)], then the sleep. *)
Definition backoff (p : RetryPolicy) (attempt : nat) : M unit :=
  u <- uniform (- jitter_range p)%Q (jitter_range p) ;;
  let jitter := (u * delay p attempt)%Q in
  sleep (Qmax 0 (delay p attempt + jitter)%Q).

(** The jitter and the sleep time that [backoff] computes when
    [random.random()] yields [r]. *)
Definition jitter_of (p : RetryPolicy) (attempt : nat) (r : Q) : Q :=
  ((- jitter_range p + (jitter_range p - - jitter_range p) * r)
   * delay p attempt)%Q.

Definition backoff_sleep (p : RetryPolicy) (attempt : nat) (r : Q) : Q :=
  Qmax 0 (delay p attempt + jitter_of p attempt r)%Q.

(** The body of [for attempt in range(self.max_retries + 1)]; [remaining]
    counts the iterations left, [attempt] is the loop variable. *)
Fixpoint attempt_loop (p : RetryPolicy) (url : string)
    (remaining attempt : nat) : M (outcome pyval) :=
  match remaining with
  | O => ret (Raised "Max retries exceeded")
  | S remaining' =>
      r <- session_request url ;;
      match r with
      | Response status_code json =>
          if (status_code =? 200)%Z then ret (Returned json)
          else if retryable status_code && (Z.of_nat attempt <? max_retries p)%Z
          then backoff p attempt ;;; attempt_loop p url remaining' (S attempt)
          else ret (Raised ("Upstream API failed with status "
                              ++ str_of_Z status_code))
      | RequestException e =>
          if (Z.of_nat attempt <? max_retries p)%Z
          then backoff p attempt ;;; attempt_loop p url remaining' (S attempt)
          else ret (Raised ("Upstream API request failed: " ++ e))
      end
  end.

(** [await self.rate_limiter.acquire()] from inside [_make_request]. *)
Definition acquire_slot : M (outcome unit) :=
  fun w =>
    match RateLimiter.acquire RateLimiter.enough (rate_limiter w) (clock w) with
    | RateLimiter.Granted rl _ =>
        (Returned tt,
         mkWorld rl (clock w) (upstream w) (sent w) (rng w) (drawn w)
           (attempts w) (sleeps w))
    | RateLimiter.Deadlock rl since =>
        (Hangs,
         mkWorld rl since (upstream w) (sent w) (rng w) (drawn w)
           (attempts w) (sleeps w))
    | RateLimiter.IndexError rl =>
        (Raised "list index out of range",
         mkWorld rl (clock w) (upstream w) (sent w) (rng w) (drawn w)
           (attempts w) (sleeps w))
    | RateLimiter.OutOfFuel => (Hangs, w)
    end.

(** [OpenLigaProvider._make_request(url)]. *)
Definition _make_request (p : RetryPolicy) (url : string) : M (outcome pyval) :=
  a <- acquire_slot ;;
  match a with
  | Returned _ => attempt_loop p url (Z.to_nat (max_retries p + 1)) 0
  | Raised msg => ret (Raised msg)
  | Hangs => ret Hangs
  end.

(** The response that the [k]-th call of [session.request] (counted from 0)
    hands to the loop, when the wire stands at request number [sent]. *)
Fixpoint seen (up : nat -> wire) (sent k : nat) : response :=
  match k with
  | O => fst (send retry_total up sent)
  | S k' => seen up (snd (send retry_total up sent)) k'
  end.

(** A world at time 0 with a fresh [RateLimiter(10, 60)] (the defaults of
    [OpenLigaProvider.__init__]), nothing sent and nothing drawn yet. *)
Definition fresh_world (up : string -> nat -> wire) (rng : nat -> Q) : World :=
  mkWorld (RateLimiter.init 10 60) 0 up 0 rng 0 0 [].

(** An upstream that gives the same answer to every request. *)
Definition always (a : wire) : string -> nat -> wire := fun _ _ => a.

(** An upstream that answers with status [code1] to the first [n] requests
    and with [a] afterwards. *)
Definition first_then (n : nat) (code1 : Z) (a : wire) : string -> nat -> wire :=
  fun _ i => if (i <? n)%nat then Answer code1 PNone else a.

(* ================================================================== *)
(** ** OpenLigaProvider: mapping the raw JSON *)

Definition base_url : string := "https://api.openligadb.de".

(** [len(v)] and the elements of a list value. *)
Definition items (v : pyval) : list pyval :=
  match v with PList l => l | _ => [] end.

(** The four-key team dict built from a raw team object. *)
Definition team_record (team : pydict) : pyval :=
  PDict [ ("team_id", get team "teamId" (PInt 0));
          ("name", get team "teamName" (PStr ""));
          ("short_name", get team "shortName" (PStr ""));
          ("icon_url", get_none team "teamIconUrl") ].

Definition scheduled_score : pyval :=
  PDict [ ("home", PInt 0); ("away", PInt 0);
          ("match_status", PStr "scheduled") ].

(** The [final_score] computed for one raw match: the default, replaced
    when [matchResults] is a non-empty list whose last element is a dict. *)
Definition final_score (match_ : pydict) : pyval :=
  let match_results := get match_ "matchResults" (PList []) in
  if truthy match_results && is_list match_results
     && (0 <? length (items match_results))%nat
  then
    let final_result := last (items match_results) PNone in
    match final_result with
    | PDict final_result =>
        PDict [ ("home", get final_result "pointsTeam1" (PInt 0));
                ("away", get final_result "pointsTeam2" (PInt 0));
                ("match_status",
                 PStr (if truthy (get_none match_ "matchIsFinished")
                       then "finished" else "in_progress")) ]
    | _ => scheduled_score
    end
  else scheduled_score.

(** The dict both match mappers build; they differ in [league_name] only. *)
Definition match_record (league_name : pyval) (match_ : pydict) : pyval :=
  let team_home := dict_or_empty (get match_ "team1" (PDict [])) in
  let team_away := dict_or_empty (get match_ "team2" (PDict [])) in
  PDict [ ("match_id", get match_ "matchID" (PInt 0));
          ("league_name", league_name);
          ("match_date_time", get match_ "matchDateTime" (PStr ""));
          ("team_home", team_record team_home);
          ("team_away", team_record team_away);
          ("final_score", final_score match_);
          ("is_finished", get match_ "matchIsFinished" (PBool false)) ].

Definition league_record (league : pydict) : pyval :=
  PDict [ ("id", get league "leagueId" (PInt 0));
          ("name", get league "leagueName" (PStr ""));
          ("shortcut", get league "leagueShortcut" (PStr ""));
          ("country", get league "country" (PStr ""));
          ("current_season", get league "leagueSeason" (PStr "")) ].

(** The loop of [list_leagues]: elements that are not dicts are skipped. *)
Fixpoint map_leagues (data : list pyval) : list pyval :=
  match data with
  | [] => []
  | PDict league :: rest => league_record league :: map_leagues rest
  | _ :: rest => map_leagues rest
  end.

(** The loop of [get_league_matches]. *)
Fixpoint map_matches (league_shortcut : string) (data : list pyval)
  : list pyval :=
  match data with
  | [] => []
  | PDict match_ :: rest =>
      match_record (PStr league_shortcut) match_
        :: map_matches league_shortcut rest
  | _ :: rest => map_matches league_shortcut rest
  end.

(** The part of each provider method that follows [_make_request]. *)
Definition leagues_of (data : pyval) : pydict :=
  [ ("leagues", PList (if is_list data then map_leagues (items data) else [])) ].

Definition matches_of (league_shortcut : string) (data : pyval) : pydict :=
  [ ("matches",
     PList (if is_list data then map_matches league_shortcut (items data)
            else [])) ].

Definition team_of (data : pyval) : pydict :=
  [ ("team",
     match data with
     | PDict data => team_record data
     | _ => PDict [ ("team_id", PInt 0); ("name", PStr "");
                    ("short_name", PStr ""); ("icon_url", PNone) ]
     end) ].

Definition match_of (data : pyval) : outcome pydict :=
  if negb (truthy data) then Raised "Match not found"
  else
    let match_ :=
      if is_list data && (0 <? length (items data))%nat
      then nth 0 (items data) PNone
      else if is_dict data then data
      else PNone in
    if negb (truthy match_) || negb (is_dict match_)
    then Raised "Match not found"
    else
      let match_ := dict_or_empty match_ in
      Returned
        [ ("match", match_record (get match_ "leagueName" (PStr "")) match_) ].

(** Run a request and post-process what it returns; an exception or a hang
    of the request is the method's own. *)
Definition after_request {A : Type} (p : RetryPolicy) (url : string)
    (k : pyval -> outcome A) : M (outcome A) :=
  r <- _make_request p url ;;
  ret match r with
      | Returned data => k data
      | Raised msg => Raised msg
      | Hangs => Hangs
      end.

(** The abstract base class [SportsProvider]. *)
Class SportsProvider : Type := {
  list_leagues : M (outcome pydict);
  get_league_matches : string -> string -> M (outcome pydict);
  get_team : Z -> M (outcome pydict);
  get_match : Z -> M (outcome pydict)
}.

(** [OpenLigaProvider], for a given backoff configuration. *)
Definition OpenLigaProvider (p : RetryPolicy) : SportsProvider := {|
  list_leagues :=
    after_request p (base_url ++ "/getavailableleagues")
      (fun data => Returned (leagues_of data));
  get_league_matches := fun league_shortcut league_season =>
    after_request p
      (base_url ++ "/getmatchdata/" ++ league_shortcut ++ "/" ++ league_season)
      (fun data => Returned (matches_of league_shortcut data));
  get_team := fun team_id =>
    after_request p (base_url ++ "/getteam/" ++ str_of_Z team_id)
      (fun data => Returned (team_of data));
  get_match := fun match_id =>
    after_request p (base_url ++ "/getmatchdata/" ++ str_of_Z match_id)
      match_of
|}.

(* ================================================================== *)
(** ** Schemas (pydantic models of [proxy/schemas.py]) *)

(** One entry of [ValidationError.errors()]: the location, the message and
    the kind of the violation. *)
Record field_error : Type := mkFieldError {
  loc : list string;
  msg : string;
  type : string
}.

Inductive validated (A : Type) : Type :=
| Valid (a : A)
| Invalid (errors : list field_error).

Arguments Valid {A} a.
Arguments Invalid {A} errors.

(** The conversions pydantic applies in its default (lax) mode that the
    models do not determine: parsing a string as an integer or a boolean,
    and turning a number into a datetime.  The models are stated for any
    choice of them. *)
Record Lax : Type := mkLax {
  str_as_int : string -> option Z;
  str_as_bool : string -> option bool;
  num_as_datetime : pyval -> option Q
}.

Module LeagueSummary.
Record t : Type := mk {
  id : Z;
  name : string;
  shortcut : string;
  country : string;
  season : string            (* alias current_season *)
}.
End LeagueSummary.

Module TeamDetail.
Record t : Type := mk {
  id : Z;                    (* alias team_id *)
  name : string;
  short_name : string;
  icon_url : option string   (* default None *)
}.
End TeamDetail.

Module MatchScore.
Record t : Type := mk {
  home : Z;
  away : Z;
  status : string            (* alias match_status *)
}.
End MatchScore.

(** [Union[datetime, str]]. *)
Inductive datetime_or_str : Type :=
| IsDatetime (stamp : Q)
| IsStr (s : string).

Module MatchDetail.
Record t : Type := mk {
  id : Z;                    (* alias match_id *)
  league_name : string;
  date_time : datetime_or_str;   (* alias match_date_time *)
  team_home : TeamDetail.t;
  team_away : TeamDetail.t;
  score : MatchScore.t;      (* alias final_score *)
  is_finished : bool
}.
End MatchDetail.

(** The validated payloads, one constructor per payload model. *)
Inductive payload : Type :=
| ListLeaguesPayload
| GetLeagueMatchesPayload (league_shortcut league_season : string)
| GetTeamPayload (team_id : Z)
| GetMatchPayload (match_id : Z).

Section Validation.

Variable lax : Lax.

Definition err (type msg : string) {A : Type} : validated A :=
  Invalid [mkFieldError [] msg type].

(** A field annotated [int]. *)
Definition validate_int (v : pyval) : validated Z :=
  match v with
  | PInt z => Valid z
  | PBool b => Valid (if b then 1 else 0)
  | PFloat q =>
      if (Zpos (Qden (Qred q)) =? 1)%Z then Valid (Qnum (Qred q))
      else err "int_from_float"
             "Input should be a valid integer, got a number with a fractional part"
  | PStr s =>
      match str_as_int lax s with
      | Some z => Valid z
      | None => err "int_parsing"
                  "Input should be a valid integer, unable to parse string as an integer"
      end
  | _ => err "int_type" "Input should be a valid integer"
  end.

(** A field annotated [str]. *)
Definition validate_str (v : pyval) : validated string :=
  match v with
  | PStr s => Valid s
  | _ => err "string_type" "Input should be a valid string"
  end.

(** A field annotated [bool]. *)
Definition validate_bool (v : pyval) : validated bool :=
  match v with
  | PBool b => Valid b
  | PInt 0 => Valid false
  | PInt 1 => Valid true
  | PFloat q =>
      if Qeq_bool q 0 then Valid false
      else if Qeq_bool q 1 then Valid true
      else err "bool_parsing" "Input should be a valid boolean, unable to interpret input"
  | PStr s =>
      match str_as_bool lax s with
      | Some b => Valid b
      | None => err "bool_parsing" "Input should be a valid boolean, unable to interpret input"
      end
  | PInt _ => err "bool_parsing" "Input should be a valid boolean, unable to interpret input"
  | _ => err "bool_type" "Input should be a valid boolean"
  end.

(** A field annotated [Optional[str]]. *)
Definition validate_optional_str (v : pyval) : validated (option string) :=
  match v with
  | PNone => Valid None
  | PStr s => Valid (Some s)
  | _ => err "string_type" "Input should be a valid string"
  end.

(** A field annotated [Union[datetime, str]]: a string is kept as it is,
    anything else has to convert to a datetime. *)
Definition validate_datetime_or_str (v : pyval) : validated datetime_or_str :=
  match v with
  | PStr s => Valid (IsStr s)
  | PDatetime stamp => Valid (IsDatetime stamp)
  | _ =>
      match num_as_datetime lax v with
      | Some stamp => Valid (IsDatetime stamp)
      | None => err "datetime_type" "Input should be a valid datetime"
      end
  end.

(** Prefix the locations of a field's errors with the key it was read
    from. *)
Definition at_loc {A : Type} (key : string) (r : validated A) : validated A :=
  match r with
  | Valid a => Valid a
  | Invalid es =>
      Invalid (map (fun e => mkFieldError (key :: loc e) (msg e) (type e)) es)
  end.

(** A required field, read under its alias (or its name when it has
    none). *)
Definition required {A : Type} (d : pydict) (key : string)
    (validate : pyval -> validated A) : validated A :=
  match lookup key d with
  | Some v => at_loc key (validate v)
  | None => Invalid [mkFieldError [key] "Field required" "missing"]
  end.

(** A field with a default. *)
Definition optional {A : Type} (d : pydict) (key : string)
    (validate : pyval -> validated A) (default : A) : validated A :=
  match lookup key d with
  | Some v => at_loc key (validate v)
  | None => Valid default
  end.

(** Validation runs over all the fields and reports every error. *)
Definition errors_of {A : Type} (r : validated A) : list field_error :=
  match r with Valid _ => [] | Invalid es => es end.

Definition ap {A B : Type} (f : validated (A -> B)) (r : validated A)
  : validated B :=
  match f, r with
  | Valid g, Valid a => Valid (g a)
  | _, _ => Invalid (errors_of f ++ errors_of r)
  end.

Notation "f <*> r" := (ap f r) (at level 40, left associativity).

(** A field whose type is a model: the input has to be a dict. *)
Definition validate_model {A : Type} (fields : pydict -> validated A)
    (v : pyval) : validated A :=
  match v with
  | PDict d => fields d
  | _ => err "model_type"
           "Input should be a valid dictionary or object to extract fields from"
  end.

(** A field annotated [List[...]]; errors are located by index. *)
Fixpoint validate_items {A : Type} (validate : pyval -> validated A)
    (i : nat) (l : list pyval) : validated (list A) :=
  match l with
  | [] => Valid []
  | v :: l' =>
      Valid cons
        <*> at_loc (str_of_Z (Z.of_nat i)) (validate v)
        <*> validate_items validate (S i) l'
  end.

Definition validate_list {A : Type} (validate : pyval -> validated A)
    (v : pyval) : validated (list A) :=
  match v with
  | PList l => validate_items validate 0 l
  | _ => err "list_type" "Input should be a valid list"
  end.

Definition LeagueSummary_fields (d : pydict) : validated LeagueSummary.t :=
  Valid LeagueSummary.mk
    <*> required d "id" validate_int
    <*> required d "name" validate_str
    <*> required d "shortcut" validate_str
    <*> required d "country" validate_str
    <*> required d "current_season" validate_str.

Definition TeamDetail_fields (d : pydict) : validated TeamDetail.t :=
  Valid TeamDetail.mk
    <*> required d "team_id" validate_int
    <*> required d "name" validate_str
    <*> required d "short_name" validate_str
    <*> optional d "icon_url" validate_optional_str None.

Definition MatchScore_fields (d : pydict) : validated MatchScore.t :=
  Valid MatchScore.mk
    <*> required d "home" validate_int
    <*> required d "away" validate_int
    <*> required d "match_status" validate_str.

Definition MatchDetail_fields (d : pydict) : validated MatchDetail.t :=
  Valid MatchDetail.mk
    <*> required d "match_id" validate_int
    <*> required d "league_name" validate_str
    <*> required d "match_date_time" validate_datetime_or_str
    <*> required d "team_home" (validate_model TeamDetail_fields)
    <*> required d "team_away" (validate_model TeamDetail_fields)
    <*> required d "final_score" (validate_model MatchScore_fields)
    <*> required d "is_finished" validate_bool.

(** The payload models, built from the keyword arguments of the payload
    dict. *)
Definition validate_ListLeaguesPayload (d : pydict) : validated payload :=
  Valid ListLeaguesPayload.

Definition validate_GetLeagueMatchesPayload (d : pydict) : validated payload :=
  Valid GetLeagueMatchesPayload
    <*> required d "league_shortcut" validate_str
    <*> required d "league_season" validate_str.

Definition validate_GetTeamPayload (d : pydict) : validated payload :=
  Valid GetTeamPayload <*> required d "team_id" validate_int.

Definition validate_GetMatchPayload (d : pydict) : validated payload :=
  Valid GetMatchPayload <*> required d "match_id" validate_int.

End Validation.

(** *** [model_dump()] *)

Definition dump_LeagueSummary (l : LeagueSummary.t) : pyval :=
  PDict [ ("id", PInt (LeagueSummary.id l));
          ("name", PStr (LeagueSummary.name l));
          ("shortcut", PStr (LeagueSummary.shortcut l));
          ("country", PStr (LeagueSummary.country l));
          ("season", PStr (LeagueSummary.season l)) ].

Definition dump_TeamDetail (t : TeamDetail.t) : pyval :=
  PDict [ ("id", PInt (TeamDetail.id t));
          ("name", PStr (TeamDetail.name t));
          ("short_name", PStr (TeamDetail.short_name t));
          ("icon_url",
           match TeamDetail.icon_url t with
           | Some s => PStr s
           | None => PNone
           end) ].

Definition dump_MatchScore (s : MatchScore.t) : pyval :=
  PDict [ ("home", PInt (MatchScore.home s));
          ("away", PInt (MatchScore.away s));
          ("status", PStr (MatchScore.status s)) ].

Definition dump_MatchDetail (m : MatchDetail.t) : pyval :=
  PDict [ ("id", PInt (MatchDetail.id m));
          ("league_name", PStr (MatchDetail.league_name m));
          ("date_time",
           match MatchDetail.date_time m with
           | IsDatetime stamp => PDatetime stamp
           | IsStr s => PStr s
           end);
          ("team_home", dump_TeamDetail (MatchDetail.team_home m));
          ("team_away", dump_TeamDetail (MatchDetail.team_away m));
          ("score", dump_MatchScore (MatchDetail.score m));
          ("is_finished", PBool (MatchDetail.is_finished m)) ].

(** The four response models. *)
Inductive normalized : Type :=
| ListLeaguesResponse (leagues : list LeagueSummary.t)
| GetLeagueMatchesResponse (matches : list MatchDetail.t)
| GetTeamResponse (team : TeamDetail.t)
| GetMatchResponse (match_ : MatchDetail.t).

Definition model_dump (n : normalized) : pydict :=
  match n with
  | ListLeaguesResponse leagues =>
      [ ("leagues", PList (map dump_LeagueSummary leagues)) ]
  | GetLeagueMatchesResponse matches =>
      [ ("matches", PList (map dump_MatchDetail matches)) ]
  | GetTeamResponse team => [ ("team", dump_TeamDetail team) ]
  | GetMatchResponse match_ => [ ("match", dump_MatchDetail match_) ]
  end.

Section ResponseModels.

Variable lax : Lax.

Definition validate_ListLeaguesResponse (d : pydict) : validated normalized :=
  ap (Valid ListLeaguesResponse)
     (required d "leagues"
        (validate_list (validate_model (LeagueSummary_fields lax)))).

Definition validate_GetLeagueMatchesResponse (d : pydict)
  : validated normalized :=
  ap (Valid GetLeagueMatchesResponse)
     (required d "matches"
        (validate_list (validate_model (MatchDetail_fields lax)))).

Definition validate_GetTeamResponse (d : pydict) : validated normalized :=
  ap (Valid GetTeamResponse)
     (required d "team" (validate_model (TeamDetail_fields lax))).

Definition validate_GetMatchResponse (d : pydict) : validated normalized :=
  ap (Valid GetMatchResponse)
     (required d "match" (validate_model (MatchDetail_fields lax))).

End ResponseModels.

(* ================================================================== *)
(** ** DecisionMapper *)

(** One entry of [self.operation_map].  [provider_call] is the source's
    [provider_method] applied to the arguments that [args_mapper] extracts
    from the validated payload. *)
Record operation : Type := mkOperation {
  payload_validator : pydict -> validated payload;
  provider_call : payload -> M (outcome pydict);
  response_schema : pydict -> validated normalized
}.

Section DecisionMapper.

Variable lax : Lax.
Context {provider : SportsProvider}.

(** A payload of another model than the operation's cannot reach its
    [args_mapper]; Python would raise [AttributeError] there. *)
Definition no_attribute : M (outcome pydict) :=
  ret (Raised "object has no attribute").

Definition operation_map : list (string * operation) :=
  [ ("ListLeagues",
     mkOperation validate_ListLeaguesPayload
       (fun _ => list_leagues)
       (validate_ListLeaguesResponse lax));
    ("GetLeagueMatches",
     mkOperation validate_GetLeagueMatchesPayload
       (fun payload =>
          match payload with
          | GetLeagueMatchesPayload league_shortcut league_season =>
              get_league_matches league_shortcut league_season
          | _ => no_attribute
          end)
       (validate_GetLeagueMatchesResponse lax));
    ("GetTeam",
     mkOperation (validate_GetTeamPayload lax)
       (fun payload =>
          match payload with
          | GetTeamPayload team_id => get_team team_id
          | _ => no_attribute
          end)
       (validate_GetTeamResponse lax));
    ("GetMatch",
     mkOperation (validate_GetMatchPayload lax)
       (fun payload =>
          match payload with
          | GetMatchPayload match_id => get_match match_id
          | _ => no_attribute
          end)
       (validate_GetMatchResponse lax)) ].

(** [self.operation_map[operation_type]], when the key is present. *)
Fixpoint find_operation (operation_type : string)
    (ops : list (string * operation)) : option operation :=
  match ops with
  | [] => None
  | (name, op) :: ops' =>
      if String.eqb operation_type name then Some op
      else find_operation operation_type ops'
  end.

(** One element of [validation_errors]. *)
Definition error_entry (e : field_error) : pyval :=
  PDict [ ("field", PStr (String.concat "." (loc e)));
          ("message", PStr (msg e));
          ("type", PStr (type e)) ].

Definition error_dict (error code : string) (details : pydict) : pydict :=
  [ ("error", PStr error); ("code", PStr code); ("details", PDict details) ].

(** [DecisionMapper.execute_operation]. *)
Definition execute_operation (operation_type : string) (payload : pydict)
  : M (outcome pydict) :=
  match find_operation operation_type operation_map with
  | None =>
      ret (Returned
             (error_dict ("Unknown operationType: " ++ operation_type)
                "UNKNOWN_OPERATION"
                [ ("valid_operations",
                   PList (map (fun o => PStr (fst o)) operation_map)) ]))
  | Some operation_config =>
      match payload_validator operation_config payload with
      | Invalid errors =>
          ret (Returned
                 (error_dict "Payload validation failed" "VALIDATION_ERROR"
                    [ ("validation_errors", PList (map error_entry errors)) ]))
      | Valid validated_payload =>
          r <- provider_call operation_config validated_payload ;;
          match r with
          | Hangs => ret Hangs
          | Raised e =>
              ret (Returned
                     (error_dict "Upstream API failed" "UPSTREAM_ERROR"
                        [ ("message", PStr e) ]))
          | Returned provider_response =>
              match response_schema operation_config provider_response with
              | Valid normalized_response =>
                  ret (Returned (model_dump normalized_response))
              | Invalid _ =>
                  ret (Returned
                         (error_dict "Internal response normalization error"
                            "INTERNAL_ERROR"
                            [ ("message",
                               PStr "Provider response format unexpected") ]))
              end
          end
      end
  end.

End DecisionMapper.

(* ================================================================== *)
(** ** Shapes of results, used to state the properties *)

(** The error codes of the dispatcher. *)
Definition error_codes : list string :=
  [ "UNKNOWN_OPERATION"; "VALIDATION_ERROR"; "UPSTREAM_ERROR"; "INTERNAL_ERROR" ].

(** The top-level key of each operation's response model. *)
Definition output_keys : list (string * string) :=
  [ ("ListLeagues", "leagues"); ("GetLeagueMatches", "matches");
    ("GetTeam", "team"); ("GetMatch", "match") ].

Definition is_int (v : pyval) : bool :=
  match v with PInt _ => true | _ => false end.

Definition is_str (v : pyval) : bool :=
  match v with PStr _ => true | _ => false end.

Definition is_bool (v : pyval) : bool :=
  match v with PBool _ => true | _ => false end.

Definition is_optional_str (v : pyval) : bool :=
  match v with PStr _ | PNone => true | _ => false end.

Definition is_datetime_or_str (v : pyval) : bool :=
  match v with PStr _ | PDatetime _ => true | _ => false end.

Definition is_list_of (ok : pyval -> bool) (v : pyval) : bool :=
  match v with PList l => forallb ok l | _ => false end.

(** A dict has exactly the given keys, in order, each with a value of the
    given kind. *)
Fixpoint fields_ok (schema : list (string * (pyval -> bool))) (d : pydict)
  : bool :=
  match schema, d with
  | [], [] => true
  | (k, ok) :: schema', (k', v) :: d' =>
      String.eqb k k' && ok v && fields_ok schema' d'
  | _, _ => false
  end.

Definition record_ok (schema : list (string * (pyval -> bool))) (v : pyval)
  : bool :=
  match v with PDict d => fields_ok schema d | _ => false end.

(** A record with every field of the model of that name, each of the
    declared type. *)
Definition complete_LeagueSummary : pyval -> bool :=
  record_ok [ ("id", is_int); ("name", is_str); ("shortcut", is_str);
              ("country", is_str); ("season", is_str) ].

Definition complete_TeamDetail : pyval -> bool :=
  record_ok [ ("id", is_int); ("name", is_str); ("short_name", is_str);
              ("icon_url", is_optional_str) ].

Definition complete_MatchScore : pyval -> bool :=
  record_ok [ ("home", is_int); ("away", is_int); ("status", is_str) ].

Definition complete_MatchDetail : pyval -> bool :=
  record_ok [ ("id", is_int); ("league_name", is_str);
              ("date_time", is_datetime_or_str);
              ("team_home", complete_TeamDetail);
              ("team_away", complete_TeamDetail);
              ("score", complete_MatchScore);
              ("is_finished", is_bool) ].

(** A complete response of one of the four response models. *)
Definition complete_response (r : pydict) : bool :=
  fields_ok [ ("leagues", is_list_of complete_LeagueSummary) ] r
  || fields_ok [ ("matches", is_list_of complete_MatchDetail) ] r
  || fields_ok [ ("team", complete_TeamDetail) ] r
  || fields_ok [ ("match", complete_MatchDetail) ] r.

(** The element that [get_match] resolves: the first element of an array,
    or the object itself. *)
Definition resolved (data : pyval) : pyval :=
  match data with
  | PList (first :: _) => first
  | PDict _ => data
  | _ => PNone
  end.

(** The "Match not found" error as the dispatcher reports it. *)
Definition match_not_found : pydict :=
  error_dict "Upstream API failed" "UPSTREAM_ERROR"
    [ ("message", PStr "Match not found") ].

(** The all-defaults team, as the provider builds it and as the response
    model dumps it. *)
Definition default_team_raw : pyval :=
  PDict [ ("team_id", PInt 0); ("name", PStr ""); ("short_name", PStr "");
          ("icon_url", PNone) ].

Definition default_team : pyval :=
  PDict [ ("id", PInt 0); ("name", PStr ""); ("short_name", PStr "");
          ("icon_url", PNone) ].

(** A [Lax] that parses nothing; the examples below only use values that
    need no conversion. *)
Definition no_parsing : Lax :=
  mkLax (fun _ => None) (fun _ => None) (fun _ => None).

(** A world whose upstream answers every request with status 200 and the
    given body. *)
Definition answering (body : pyval) : World :=
  fresh_world (always (Answer 200 body)) (fun _ => 0%Q).

(* ================================================================== *)
(** ** The retry loop, seen from outside *)

(** Whether the loop goes on after attempt number [attempt] got the
    response [r]: the two [continue] branches of [_make_request]. *)
Definition will_retry (p : RetryPolicy) (attempt : nat) (r : response) : bool :=
  match r with
  | Response status_code _ =>
      negb (status_code =? 200)%Z && retryable status_code
      && (Z.of_nat attempt <? max_retries p)%Z
  | RequestException _ => (Z.of_nat attempt <? max_retries p)%Z
  end.

(** The world after [n] attempts that were each followed by a backoff. *)
Fixpoint after_retries (p : RetryPolicy) (url : string) (n attempt : nat)
    (w : World) : World :=
  match n with
  | O => w
  | S n' =>
      after_retries p url n' (S attempt)
        (snd (backoff p attempt (snd (session_request url w))))
  end.

(** The sleeps that a call added to the log. *)
Definition new_sleeps (before after : World) : list Q :=
  skipn (length (sleeps before)) (sleeps after).

(** The largest sleep a policy allows. *)
Definition longest_sleep (p : RetryPolicy) : Q :=
  ((1 + jitter_range p) * max_delay p)%Q.

(* ================================================================== *)
(** ** Upstream objects, used to state the properties of the mappings *)

(** A league as the upstream is expected to send it: an object whose
    [leagueId], when present, is an integer and whose text fields, when
    present, are strings.  Elements that are not objects are skipped by the
    mapping and put no condition. *)
Definition well_formed_league (v : pyval) : bool :=
  match v with
  | PDict league =>
      is_int (get league "leagueId" (PInt 0))
      && is_str (get league "leagueName" (PStr ""))
      && is_str (get league "leagueShortcut" (PStr ""))
      && is_str (get league "country" (PStr ""))
      && is_str (get league "leagueSeason" (PStr ""))
  | _ => true
  end.

(** The normalized league that corresponds to an upstream league object. *)
Definition normalized_league (league : pydict) : pyval :=
  PDict [ ("id", get league "leagueId" (PInt 0));
          ("name", get league "leagueName" (PStr ""));
          ("shortcut", get league "leagueShortcut" (PStr ""));
          ("country", get league "country" (PStr ""));
          ("season", get league "leagueSeason" (PStr "")) ].

(** The names of the registry, in insertion order. *)
Definition operation_names : list string :=
  [ "ListLeagues"; "GetLeagueMatches"; "GetTeam"; "GetMatch" ].

(* ================================================================== *)
(** ** The HTTP endpoint ([main.py]) *)

(** The request body model [ProxyExecuteRequest]. *)
Module ProxyExecuteRequest.
Record t : Type := mk {
  operationType : string;
  payload : pydict;
  requestId : option string   (* default None *)
}.
End ProxyExecuteRequest.

(** [a or b] for an optional string [a]: [None] and the empty string are
    falsy. *)
Definition or_str (a : option string) (b : string) : string :=
  match a with
  | Some s => if String.eqb s "" then b else s
  | None => b
  end.

(** [v == s] for a string literal [s]. *)
Definition equals_str (v : pyval) (s : string) : bool :=
  match v with PStr s' => String.eqb s' s | _ => false end.

(** The status that [proxy_execute] gives to an error result: 400 unless
    the code is UPSTREAM_ERROR (502) or INTERNAL_ERROR (500). *)
Definition error_status (result : pydict) : Z :=
  if equals_str (get_none result "code") "UPSTREAM_ERROR" then 502
  else if equals_str (get_none result "code") "INTERNAL_ERROR" then 500
  else 400.

(** [proxy_execute(request)]: the HTTP status and the JSON content of the
    response.  [context_request_id] is what [get_request_id()] returns and
    [uuid4] what [str(uuid.uuid4())] would return.  A plain dict returned by
    the handler is sent with status 200. *)
Definition proxy_execute (lax : Lax) {provider : SportsProvider}
    (context_request_id : option string) (uuid4 : string)
    (request : ProxyExecuteRequest.t) : M (outcome (Z * pydict)) :=
  let request_id :=
    or_str context_request_id
      (or_str (ProxyExecuteRequest.requestId request) uuid4) in
  r <- execute_operation lax (ProxyExecuteRequest.operationType request)
         (ProxyExecuteRequest.payload request) ;;
  ret match r with
      | Returned result =>
          if has_key "error" result
          then Returned (error_status result, result)
          else Returned
                 (200,
                  [ ("requestId", PStr request_id);
                    ("operationType",
                     PStr (ProxyExecuteRequest.operationType request));
                    ("data", PDict result) ])
      | Raised e =>
          Returned
            (500,
             [ ("error", PStr "Internal server error");
               ("code", PStr "INTERNAL_ERROR");
               ("requestId", PStr request_id) ])
      | Hangs => Hangs
      end.

(* ================================================================== *)
(** ** Audit log entries ([proxy/logging_config.py]) *)

(** [d[k] = v]: an existing key keeps its place, a new one goes last. *)
Fixpoint dict_set (k : string) (v : pyval) (d : pydict) : pydict :=
  match d with
  | [] => [(k, v)]
  | (k', v') :: d' =>
      if String.eqb k k' then (k', v) :: d' else (k', v') :: dict_set k v d'
  end.

(** [d.update(kwargs)]. *)
Definition dict_update (d kwargs : pydict) : pydict :=
  fold_left (fun acc kv => dict_set (fst kv) (snd kv) acc) kwargs d.

(** What is left of [d] after [d.pop(k, default)]. *)
Fixpoint dict_remove (k : string) (d : pydict) : pydict :=
  match d with
  | [] => []
  | (k', v') :: d' =>
      if String.eqb k k' then d' else (k', v') :: dict_remove k d'
  end.

(** The request id of the context when it is set to a non-empty string,
    that is when [get_request_id()] is truthy. *)
Definition context_id (context_request_id : option string) : option string :=
  match context_request_id with
  | Some s => if String.eqb s "" then None else Some s
  | None => None
  end.

(** The [log_entry] that [audit_log] builds from its keyword arguments and
    prints as JSON.
    [timestamp] is [datetime.now().isoformat()].  The [or] evaluates
    [kwargs.pop("request_id", "N/A")] only when the context has no id. *)
Definition audit_log (context_request_id : option string) (timestamp : string)
    (kwargs : pydict) : pydict :=
  match context_id context_request_id with
  | Some s =>
      dict_update [ ("requestId", PStr s); ("timestamp", PStr timestamp) ]
        kwargs
  | None =>
      dict_update
        [ ("requestId", get kwargs "request_id" (PStr "N/A"));
          ("timestamp", PStr timestamp) ]
        (dict_remove "request_id" kwargs)
  end.

(* ================================================================== *)
(** * Properties *)

(** ** RateLimiter, one caller at a time *)

Module RateLimiterFacts.
Import RateLimiter.

Lemma fresh_spec w now req_time :
  fresh w now req_time = true <-> (now - req_time < w)%Q.
Proof.
  unfold fresh. rewrite negb_true_iff.
  destruct (Qle_bool w (now - req_time)) eqn:E.
  - apply Qle_bool_iff in E. split; [discriminate | intro H; exfalso; lra].
  - split; [intros _ | reflexivity].
    apply Qnot_le_lt. intro H. apply Qle_bool_iff in H. congruence.
Qed.

(** Two units of fuel are as good as any larger amount: the nested call
    finds the lock held and stops there. *)
Lemma acquire_fuel fuel rl now :
  acquire (S (S fuel)) rl now = acquire enough rl now.
Proof.
  unfold enough. simpl.
  destruct (locked rl); [reflexivity |].
  destruct (_ >=? _)%Z; [| reflexivity].
  destruct (prune rl now); reflexivity.
Qed.

Lemma acquire_total rl now : acquire enough rl now <> OutOfFuel.
Proof.
  unfold enough. simpl.
  destruct (locked rl); [discriminate |].
  destruct (_ >=? _)%Z; [| discriminate].
  destruct (prune rl now); discriminate.
Qed.

(** Once the lock is held and never released, every later call waits for
    ever. *)
Lemma locked_blocks fuel rl now :
  locked rl = true -> acquire (S fuel) rl now = Deadlock rl now.
Proof. intros H. simpl. rewrite H. reflexivity. Qed.

(** What a call does, by cases on the pruned list. *)
Lemma acquire_cases rl now :
  locked rl = false ->
  (Z.of_nat (length (prune rl now)) < max_requests rl
   /\ acquire enough rl now
      = Granted (set_locked (set_requests rl (prune rl now ++ [now])) false) now)
  \/ (max_requests rl <= Z.of_nat (length (prune rl now))
      /\ prune rl now = []
      /\ acquire enough rl now
         = IndexError (set_locked (set_requests rl []) false))
  \/ (max_requests rl <= Z.of_nat (length (prune rl now))
      /\ exists oldest rest,
          prune rl now = oldest :: rest
          /\ acquire enough rl now
             = Deadlock (set_locked (set_requests rl (oldest :: rest)) true)
                 (now + sleep_time rl now oldest)%Q).
Proof.
  intros Hl. unfold enough. simpl. rewrite Hl. simpl.
  destruct (Z.geb_spec (Z.of_nat (length (prune rl now))) (max_requests rl)).
  - right. destruct (prune rl now) as [| oldest rest] eqn:E.
    + left. split; [lia|]. split; reflexivity.
    + right. split; [lia|]. exists oldest, rest. split; reflexivity.
  - left. split; [lia|].
    unfold set_locked, set_requests; simpl. reflexivity.
Qed.

(** A call that finds the window full never records a slot: it sleeps with
    the lock held and then waits for that same lock. *)
Lemma full_window_never_grants rl now oldest rest :
  locked rl = false ->
  prune rl now = oldest :: rest ->
  max_requests rl <= Z.of_nat (length (prune rl now)) ->
  forall fuel rl' t, acquire fuel rl now <> Granted rl' t.
Proof.
  intros Hl Hp Hfull fuel rl' t.
  destruct fuel as [| [| fuel]].
  - discriminate.
  - simpl. rewrite Hl. simpl. rewrite Hp.
    destruct (_ >=? _)%Z eqn:E; [discriminate|].
    rewrite Z.geb_leb in E. apply Z.leb_gt in E.
    rewrite Hp in Hfull. simpl length in *. lia.
  - rewrite acquire_fuel.
    destruct (acquire_cases rl now Hl) as [[H _] | [[_ [H _]] | [_ (o & r & _ & H)]]].
    + lia.
    + congruence.
    + rewrite H. discriminate.
Qed.


Lemma filter_length_le {A} (f : A -> bool) l : (length (filter f l) <= length l)%nat.
Proof. induction l; simpl; [lia | destruct (f a); simpl; lia]. Qed.

Lemma filter_idem {A} (f : A -> bool) l : filter f (filter f l) = filter f l.
Proof.
  induction l; simpl; [reflexivity|].
  destruct (f a) eqn:E; simpl; rewrite ?E, IHl; reflexivity.
Qed.

(** The limiter never holds more than [max_requests] timestamps, whatever
    the outcome of the call. *)
Lemma acquire_keeps_bound rl now :
  0 <= max_requests rl ->
  locked rl = false ->
  Z.of_nat (length (requests rl)) <= max_requests rl ->
  Z.of_nat (length (requests (state_of (acquire enough rl now) rl)))
    <= max_requests rl.
Proof.
  intros H0 Hl Hb.
  pose proof (filter_length_le (fresh (time_window rl) now) (requests rl)) as Hf.
  fold (prune rl now) in Hf.
  destruct (acquire_cases rl now Hl) as [[H E] | [[_ [_ E]] | [_ (o & r & Hp & E)]]];
    rewrite E; simpl.
  - rewrite length_app. simpl. lia.
  - lia.
  - rewrite Hp in Hf. simpl length in *. lia.
Qed.

End RateLimiterFacts.

(** C3.  With [RateLimiter(max_requests=2, time_window=1)] and three calls
    of [acquire()] at t=0, the first two are granted; the third sleeps
    until t=1.1 while it holds the lock, re-enters [acquire] and waits for
    that lock for ever: no amount of fuel admits it, and every later call
    waits too. *)
Theorem third_acquire_deadlocks :
  let full := RateLimiter.mk 2 1 [0%Q; 0%Q] in
  RateLimiter.acquire_each (RateLimiter.init 2 1) [0%Q; 0%Q; 0%Q]
  = [ RateLimiter.Granted (RateLimiter.mk 2 1 [0%Q] false) 0;
      RateLimiter.Granted (full false) 0;
      RateLimiter.Deadlock (full true) (11 # 10) ]
  /\ (forall fuel rl t,
        RateLimiter.acquire fuel (full false) 0 <> RateLimiter.Granted rl t)
  /\ (forall fuel now,
        RateLimiter.acquire (S fuel) (full true) now
        = RateLimiter.Deadlock (full true) now).
Proof.
  split; [reflexivity | split].
  - intros fuel rl t.
    apply (@RateLimiterFacts.full_window_never_grants _ _ 0%Q [0%Q]);
      [reflexivity | reflexivity | vm_compute; discriminate].
  - intros fuel now. apply RateLimiterFacts.locked_blocks. reflexivity.
Qed.

(** ** RateLimiter, concurrent callers *)

Module CallersFacts.
Import Callers.

Lemma nth_error_update_same {A} (l : list A) i x y :
  nth_error l i = Some y -> nth_error (update i x l) i = Some x.
Proof.
  revert i; induction l as [| a l IH]; intros [| i] H; simpl in *;
    try discriminate; auto.
Qed.

Lemma nth_error_update_other {A} (l : list A) i j x :
  i <> j -> nth_error (update i x l) j = nth_error l j.
Proof.
  revert i j; induction l as [| a l IH]; intros [| i] [| j] H; simpl;
    try reflexivity; try congruence.
  apply IH. congruence.
Qed.

(** Replacing a caller that is not done by one that is not done leaves the
    number of granted callers as it was. *)
Lemma done_update l i p q :
  nth_error l i = Some p -> is_done p = false -> is_done q = false ->
  length (filter is_done (update i q l)) = length (filter is_done l).
Proof.
  revert i; induction l as [| a l IH]; intros [| i] Hn Hp Hq; simpl in *;
    try discriminate.
  - injection Hn as ->. rewrite Hp, Hq. reflexivity.
  - destruct (is_done a); simpl; rewrite (IH i); auto.
Qed.

Lemma done_app l p :
  is_done p = false ->
  length (filter is_done (l ++ [p])) = length (filter is_done l).
Proof.
  intros H. rewrite filter_app, length_app. simpl. rewrite H. simpl. lia.
Qed.

(** A caller inside the block means the lock is held. *)
Lemma holder_locks s i p :
  lock_consistent s ->
  nth_error (callers s) i = Some p -> holds_lock p = true ->
  RateLimiter.locked (limiter s) = true.
Proof.
  unfold lock_consistent. intros -> Hn Hp.
  apply existsb_exists. exists p. split; [| exact Hp].
  eapply nth_error_In; eauto.
Qed.

(** While the lock is held, a step neither records a slot nor admits a
    caller, and the lock stays held. *)
Lemma locked_step s s' :
  RateLimiter.locked (limiter s) = true -> step s s' ->
  RateLimiter.locked (limiter s') = true
  /\ RateLimiter.requests (limiter s') = RateLimiter.requests (limiter s)
  /\ granted s' = granted s.
Proof.
  intros Hl Hs. destruct Hs; simpl in *; try congruence.
  - auto.
  - repeat split; auto. unfold granted; simpl. apply done_app. reflexivity.
  - repeat split; auto. unfold granted; simpl.
    eapply done_update; eauto.
Qed.

(** The caller that holds the lock stays inside the block. *)
Lemma locked_step_holder s s' i p :
  RateLimiter.locked (limiter s) = true -> step s s' ->
  nth_error (callers s) i = Some p -> holds_lock p = true ->
  exists p', nth_error (callers s') i = Some p' /\ holds_lock p' = true.
Proof.
  intros Hl Hs Hn Hp. destruct Hs; simpl in *; try congruence.
  - eauto.
  - exists p. split; [| exact Hp].
    rewrite nth_error_app1; [exact Hn |].
    apply nth_error_Some. congruence.
  - destruct (Nat.eq_dec i0 i) as [-> | Hne].
    + exists Reentering. split; [| reflexivity].
      eapply nth_error_update_same; eauto.
    + exists p. split; [| exact Hp].
      rewrite nth_error_update_other; auto.
Qed.

Lemma locked_steps s s' :
  steps s s' ->
  RateLimiter.locked (limiter s) = true ->
  RateLimiter.locked (limiter s') = true
  /\ RateLimiter.requests (limiter s') = RateLimiter.requests (limiter s)
  /\ granted s' = granted s.
Proof.
  induction 1 as [s | s1 s2 s3 H12 H23 IH]; intros Hl; [auto |].
  destruct (locked_step Hl H12) as (Hl2 & Hr & Ha).
  destruct (IH Hl2) as (Hl3 & Hr3 & Ha3).
  repeat split; congruence.
Qed.

Lemma locked_steps_holder s s' :
  steps s s' ->
  RateLimiter.locked (limiter s) = true ->
  forall i p, nth_error (callers s) i = Some p -> holds_lock p = true ->
  exists p', nth_error (callers s') i = Some p' /\ holds_lock p' = true.
Proof.
  induction 1 as [s | s1 s2 s3 H12 H23 IH]; intros Hl i p Hn Hp; [eauto |].
  destruct (@locked_step_holder s1 s2 i p Hl H12 Hn Hp) as (p2 & Hn2 & Hp2).
  destruct (locked_step Hl H12) as (Hl2 & _).
  eapply IH; eauto.
Qed.

End CallersFacts.

Module CallersInvariant.
Import Callers CallersFacts.

Lemma existsb_update_false {A} (f : A -> bool) l i x :
  existsb f l = false -> f x = false -> existsb f (update i x l) = false.
Proof.
  revert i; induction l as [| a l IH]; intros [| i] Hl Hx; simpl in *; auto.
  - apply orb_false_iff in Hl as [_ Hl]. rewrite Hx, Hl. reflexivity.
  - apply orb_false_iff in Hl as [Ha Hl]. rewrite Ha. simpl. auto.
Qed.

Lemma existsb_update_true {A} (f : A -> bool) l i x y :
  nth_error l i = Some y -> f x = true -> existsb f (update i x l) = true.
Proof.
  revert i; induction l as [| a l IH]; intros [| i] Hn Hx; simpl in *;
    try discriminate.
  - rewrite Hx. reflexivity.
  - rewrite (IH i); auto. apply orb_true_r.
Qed.

(** Every step keeps the lock flag in line with the callers' positions. *)
Lemma step_consistent s s' :
  lock_consistent s -> step s s' -> lock_consistent s'.
Proof.
  unfold lock_consistent. intros Hc Hs. destruct Hs; simpl in *.
  - exact Hc.
  - rewrite existsb_app. simpl. rewrite Hc, !orb_false_r. reflexivity.
  - rewrite H0 in *. symmetry. apply existsb_update_false; auto.
  - symmetry. eapply existsb_update_true; eauto.
  - rewrite H0 in *. symmetry. apply existsb_update_false; auto.
  - rewrite Hc. transitivity true.
    + apply existsb_exists. exists (Sleeping wake). split; [| reflexivity].
      eapply nth_error_In; eauto.
    + symmetry. eapply existsb_update_true; eauto.
Qed.

Lemma steps_consistent s s' :
  steps s s' -> lock_consistent s -> lock_consistent s'.
Proof. induction 1; eauto using step_consistent. Qed.

Lemma start_consistent n w t0 : lock_consistent (start n w t0).
Proof. reflexivity. Qed.

(** The scenario is a run of the code: three calls, the first granted, the
    second put to sleep. *)
Lemma one_waiting_reachable : steps (start 1 60 0) one_waiting.
Proof.
  eapply steps_cons; [apply step_call |].
  eapply steps_cons; [apply step_call |].
  eapply steps_cons; [apply step_call |].
  eapply steps_cons; [apply (@step_grant _ 0%nat); reflexivity |].
  eapply steps_cons;
    [apply (@step_wait _ 1%nat 0%Q []); reflexivity |].
  apply steps_refl.
Qed.

Lemma one_waiting_steps_later : steps one_waiting one_waiting_later.
Proof.
  eapply steps_cons; [apply (@step_tick one_waiting 61) |].
  eapply steps_cons;
    [apply (@step_wake _ 1%nat (601 # 10)); reflexivity |].
  apply steps_refl.
Defined.

(** The same scenario, with the clock readings it has: the clock never
    steps back in it. *)
Lemma one_waiting_forward : steps_forward (start 1 60 0) one_waiting.
Proof.
  eapply forward_cons; [apply step_call | apply Qle_refl |].
  eapply forward_cons; [apply step_call | apply Qle_refl |].
  eapply forward_cons; [apply step_call | apply Qle_refl |].
  eapply forward_cons;
    [apply (@step_grant _ 0%nat); reflexivity | apply Qle_refl |].
  eapply forward_cons;
    [apply (@step_wait _ 1%nat 0%Q []); reflexivity | apply Qle_refl |].
  apply forward_refl.
Qed.

(** A run with a clock that never steps back is a run. *)
Lemma forward_steps s s' : steps_forward s s' -> steps s s'.
Proof. induction 1; eauto using steps_cons, steps_refl. Qed.

End CallersInvariant.

(** ** RateLimiter: the rate ceiling *)

Module WindowFacts.
Import Callers.

Local Unset Implicit Arguments.

Lemma later_than_spec theta t : later_than theta t = true <-> (theta < t)%Q.
Proof.
  unfold later_than. rewrite negb_true_iff.
  destruct (Qle_bool t theta) eqn:E.
  - apply Qle_bool_iff in E. split; [discriminate | intro; exfalso; lra].
  - split; [intros _ | reflexivity].
    apply Qnot_le_lt. intro H. apply Qle_bool_iff in H. congruence.
Qed.

Lemma count_app f l x :
  count f (l ++ [x]) = (count f l + (if f x then 1 else 0))%nat.
Proof.
  unfold count. rewrite filter_app, length_app. simpl.
  destruct (f x); reflexivity.
Qed.

Lemma count_le_length f l : (count f l <= length l)%nat.
Proof. apply RateLimiterFacts.filter_length_le. Qed.

Lemma count_mono (f g : Q -> bool) l :
  (forall x, f x = true -> g x = true) -> (count f l <= count g l)%nat.
Proof.
  intros H. unfold count. induction l as [| x l IH]; simpl; [lia |].
  destruct (f x) eqn:Ef; [rewrite (H _ Ef); simpl; lia |].
  destruct (g x); simpl; lia.
Qed.

(** Pruning keeps every timestamp above a threshold that is itself inside
    the window. *)
Lemma count_prune rl t theta :
  (t - RateLimiter.time_window rl <= theta)%Q ->
  count (later_than theta) (RateLimiter.prune rl t)
  = count (later_than theta) (RateLimiter.requests rl).
Proof.
  intros H. unfold count, RateLimiter.prune.
  induction (RateLimiter.requests rl) as [| r l IH]; simpl; [reflexivity |].
  destruct (later_than theta r) eqn:El.
  - assert (Hf : RateLimiter.fresh (RateLimiter.time_window rl) t r = true).
    { apply RateLimiterFacts.fresh_spec. apply later_than_spec in El. lra. }
    rewrite Hf. simpl. rewrite El. simpl. rewrite IH. reflexivity.
  - destruct (RateLimiter.fresh _ t r); simpl; rewrite ?El; exact IH.
Qed.

Lemma times_call l : times_of (l ++ [Calling]) = times_of l.
Proof. unfold times_of. rewrite flat_map_app. simpl. apply app_nil_r. Qed.

Lemma times_update_idle l i p q :
  nth_error l i = Some p -> is_done p = false -> is_done q = false ->
  times_of (update i q l) = times_of l.
Proof.
  revert i; induction l as [| a l IH]; intros [| i] Hn Hp Hq; simpl in *;
    try discriminate.
  - injection Hn as ->. destruct p, q; try discriminate; reflexivity.
  - f_equal. eauto.
Qed.

Lemma count_update_done f l i p t :
  nth_error l i = Some p -> is_done p = false ->
  count f (times_of (update i (Done t) l))
  = (count f (times_of l) + (if f t then 1 else 0))%nat.
Proof.
  unfold count.
  revert i; induction l as [| a l IH]; intros [| i] Hn Hp; simpl in *;
    try discriminate.
  - injection Hn as ->.
    destruct p; try discriminate; simpl; destruct (f t); simpl; lia.
  - rewrite !filter_app, !length_app, (IH i) by assumption. lia.
Qed.

Lemma start_window n w t0 : 0 <= n -> window_invariant (start n w t0).
Proof.
  intros Hn. unfold window_invariant, start, done_times, count; simpl.
  split; [exact Hn |]. split; [intros theta _; lia | intros T _; exact Hn].
Qed.

(** Every step that does not take the clock back keeps the invariant. *)
Lemma step_window s s' :
  window_invariant s -> step s s' -> (now s <= now s')%Q ->
  window_invariant s'.
Proof.
  intros (Hlen & Hdom & Hwin) Hs Hmono.
  unfold window_invariant, done_times in *. fold times_of in *.
  destruct Hs as [s d | s | s i Hn Hl Hfull | s i oldest rest Hn Hl Hfull Hp
                 | s i Hn Hl Hfull Hp | s i wake Hn]; cbn [limiter now callers
                   RateLimiter.requests RateLimiter.max_requests
                   RateLimiter.time_window RateLimiter.set_requests
                   RateLimiter.set_locked] in *.
  - (* the clock moves, and not backwards *)
    assert (Hd : (0 <= d)%Q) by lra.
    split; [exact Hlen |]. split.
    + intros theta Ht. apply Hdom. lra.
    + intros T HT.
      destruct (Qlt_le_dec (now s) T) as [Hlate | Hearly]; [| auto].
      pose proof (count_mono (in_window (RateLimiter.time_window (limiter s)) T)
                    (later_than (T - RateLimiter.time_window (limiter s)))
                    (times_of (callers s))) as Hm.
      pose proof (Hdom (T - RateLimiter.time_window (limiter s))%Q) as Hd'.
      pose proof (count_le_length
                    (later_than (T - RateLimiter.time_window (limiter s)))
                    (RateLimiter.requests (limiter s))) as Hc.
      assert ((count (in_window (RateLimiter.time_window (limiter s)) T)
                 (times_of (callers s))
               <= count (later_than (T - RateLimiter.time_window (limiter s)))
                    (times_of (callers s)))%nat).
      { apply Hm. intros x Hx. unfold in_window in Hx.
        apply andb_true_iff in Hx. tauto. }
      assert ((count (later_than (T - RateLimiter.time_window (limiter s)))
                 (times_of (callers s))
               <= count (later_than (T - RateLimiter.time_window (limiter s)))
                    (RateLimiter.requests (limiter s)))%nat)
        by (apply Hd'; lra).
      lia.
  - (* a new caller *)
    rewrite times_call. auto.
  - (* a slot is granted *)
    rewrite Z.geb_leb in Hfull. apply Z.leb_gt in Hfull.
    split; [rewrite length_app; simpl; lia |]. split.
    + intros theta Ht.
      rewrite (count_update_done _ _ _ _ _ Hn eq_refl), count_app,
        (count_prune _ _ _ Ht).
      specialize (Hdom theta Ht). lia.
    + intros T HT.
      rewrite (count_update_done _ _ _ _ _ Hn eq_refl).
      destruct (in_window (RateLimiter.time_window (limiter s)) T (now s))
        eqn:Ein; [| specialize (Hwin T HT); lia].
      unfold in_window in Ein. apply andb_true_iff in Ein as [_ Ele].
      apply Qle_bool_iff in Ele.
      assert (Hth : (now s - RateLimiter.time_window (limiter s)
                     <= T - RateLimiter.time_window (limiter s))%Q) by lra.
      pose proof (count_mono (in_window (RateLimiter.time_window (limiter s)) T)
                    (later_than (T - RateLimiter.time_window (limiter s)))
                    (times_of (callers s))) as Hm.
      assert ((count (in_window (RateLimiter.time_window (limiter s)) T)
                 (times_of (callers s))
               <= count (later_than (T - RateLimiter.time_window (limiter s)))
                    (times_of (callers s)))%nat).
      { apply Hm. intros x Hx. unfold in_window in Hx.
        apply andb_true_iff in Hx. tauto. }
      pose proof (Hdom _ Hth) as Hd'.
      rewrite <- (count_prune _ _ _ Hth) in Hd'.
      pose proof (count_le_length
                    (later_than (T - RateLimiter.time_window (limiter s)))
                    (RateLimiter.prune (limiter s) (now s))) as Hc.
      lia.
  - (* the window is full: the caller goes to sleep *)
    erewrite times_update_idle; [| exact Hn | reflexivity | reflexivity].
    pose proof (RateLimiterFacts.filter_length_le
                  (RateLimiter.fresh (RateLimiter.time_window (limiter s)) (now s))
                  (RateLimiter.requests (limiter s))) as Hf.
    fold (RateLimiter.prune (limiter s) (now s)) in Hf. rewrite Hp in Hf.
    split; [lia |]. split; [| exact Hwin].
    intros theta Ht. rewrite <- Hp, (count_prune _ _ _ Ht). auto.
  - (* max_requests is 0: IndexError *)
    erewrite times_update_idle; [| exact Hn | reflexivity | reflexivity].
    rewrite Z.geb_leb in Hfull. apply Z.leb_le in Hfull.
    rewrite Hp in Hfull. simpl in Hfull.
    split; [simpl; lia |]. split; [| exact Hwin].
    intros theta Ht. specialize (Hdom theta Ht).
    rewrite <- (count_prune _ _ _ Ht), Hp in Hdom. exact Hdom.
  - (* the sleeper wakes up *)
    erewrite times_update_idle; [| exact Hn | reflexivity | reflexivity]. auto.
Qed.

Lemma steps_window s s' :
  steps_forward s s' -> window_invariant s -> window_invariant s'.
Proof. induction 1; eauto using step_window. Qed.

(** The rate ceiling: in every run in which the clock never steps back,
    whatever the callers do, no trailing window of length [time_window]
    contains more than [max_requests] grants, and the limiter never holds
    more than [max_requests] timestamps. *)
Lemma rate_ceiling n w t0 s :
  0 <= n ->
  steps_forward (start n w t0) s ->
  Z.of_nat (length (RateLimiter.requests (limiter s)))
    <= RateLimiter.max_requests (limiter s)
  /\ forall T,
      Z.of_nat (count (in_window (RateLimiter.time_window (limiter s)) T)
                  (done_times s))
        <= RateLimiter.max_requests (limiter s).
Proof.
  intros Hn Hs.
  destruct (steps_window _ _ Hs (start_window n w t0 Hn)) as (Hlen & Hdom & Hwin).
  split; [exact Hlen |].
  intros T. destruct (Qlt_le_dec (now s) T) as [Hlate | Hearly]; [| auto].
  pose proof (count_mono (in_window (RateLimiter.time_window (limiter s)) T)
                (later_than (T - RateLimiter.time_window (limiter s)))
                (done_times s)) as Hm.
  assert ((count (in_window (RateLimiter.time_window (limiter s)) T)
             (done_times s)
           <= count (later_than (T - RateLimiter.time_window (limiter s)))
                (done_times s))%nat).
  { apply Hm. intros x Hx. unfold in_window in Hx.
    apply andb_true_iff in Hx. tauto. }
  assert ((count (later_than (T - RateLimiter.time_window (limiter s)))
             (done_times s)
           <= count (later_than (T - RateLimiter.time_window (limiter s)))
                (RateLimiter.requests (limiter s)))%nat)
    by (apply Hdom; lra).
  pose proof (count_le_length
                (later_than (T - RateLimiter.time_window (limiter s)))
                (RateLimiter.requests (limiter s))).
  lia.
Qed.

End WindowFacts.

(** C4.  From the moment a caller sleeps inside [acquire], waiting for a
    slot, it holds the limiter's lock: whatever happens next (time passing,
    new callers, the sleeper waking up), no caller is granted, no timestamp
    is recorded, and the sleeper itself stays inside the locked block; its
    check is never evaluated again. *)
Theorem waiting_caller_blocks_everyone :
  forall s i wake s',
    Callers.lock_consistent s ->
    nth_error (Callers.callers s) i = Some (Callers.Sleeping wake) ->
    Callers.steps s s' ->
    Callers.granted s' = Callers.granted s
    /\ RateLimiter.requests (Callers.limiter s')
       = RateLimiter.requests (Callers.limiter s)
    /\ exists p, nth_error (Callers.callers s') i = Some p
                 /\ Callers.holds_lock p = true.
Proof.
  intros s i wake s' Hc Hn Hs.
  assert (Hl : RateLimiter.locked (Callers.limiter s) = true)
    by (eapply CallersFacts.holder_locks; eauto).
  destruct (CallersFacts.locked_steps Hs Hl) as (_ & Hr & Ha).
  repeat split; auto.
  eapply CallersFacts.locked_steps_holder; eauto.
Qed.

Lemma waiting_caller_blocks_everyone_witness :
  Callers.granted Callers.one_waiting_later
  = Callers.granted Callers.one_waiting
  /\ RateLimiter.requests (Callers.limiter Callers.one_waiting_later)
     = RateLimiter.requests (Callers.limiter Callers.one_waiting)
  /\ exists p, nth_error (Callers.callers Callers.one_waiting_later) 1 = Some p
               /\ Callers.holds_lock p = true.
Proof.
  apply (@waiting_caller_blocks_everyone
           Callers.one_waiting 1 (601 # 10) Callers.one_waiting_later).
  - reflexivity.
  - reflexivity.
  - exact CallersInvariant.one_waiting_steps_later.
Defined.

(** ** The retrying caller *)

Module RetryFacts.

(** The mounted [Retry] sends a request at least once and at most three
    times. *)
Lemma send_bound budget up n :
  (n < snd (send budget up n) <= n + S budget)%nat.
Proof.
  revert n; induction budget as [| b IH]; intros n; simpl.
  - destruct (up n) as [code body | reason];
      [destruct (retryable code) |]; simpl; lia.
  - destruct (up n) as [code body | reason];
      [destruct (retryable code) |]; simpl; try lia;
      specialize (IH (S n)); lia.
Qed.

(** What a call of [session.request] changes. *)
Lemma session_request_effect url w :
  let w' := snd (session_request url w) in
  attempts w' = S (attempts w)
  /\ (sent w < sent w' <= sent w + 3)%nat
  /\ sleeps w' = sleeps w /\ upstream w' = upstream w
  /\ rng w' = rng w /\ drawn w' = drawn w.
Proof.
  unfold session_request.
  pose proof (send_bound retry_total (upstream w url) (sent w)) as H.
  destruct (send retry_total (upstream w url) (sent w)) as [r n].
  unfold retry_total in H. simpl in *. repeat split; auto; lia.
Qed.

(** What a backoff changes: one sleep is logged, one random value drawn. *)
Lemma backoff_effect p attempt w :
  let w' := snd (backoff p attempt w) in
  attempts w' = attempts w /\ sent w' = sent w
  /\ upstream w' = upstream w /\ rng w' = rng w
  /\ drawn w' = S (drawn w)
  /\ exists d, sleeps w' = (sleeps w ++ [d])%list.
Proof.
  unfold backoff, bind, uniform, sleep; simpl.
  repeat split; eauto.
Qed.

(** The loop calls [session.request] at most once per iteration. *)
Lemma attempt_loop_bound p url remaining :
  forall attempt w,
    let w' := snd (attempt_loop p url remaining attempt w) in
    exists k, (k <= remaining)%nat
              /\ attempts w' = (attempts w + k)%nat
              /\ (sent w <= sent w' <= sent w + 3 * k)%nat.
Proof.
  induction remaining as [| rem IH]; intros attempt w; simpl.
  - exists 0%nat. simpl. lia.
  - unfold bind.
    pose proof (session_request_effect url w) as (Ha & Hs & _).
    destruct (session_request url w) as [r w1]. simpl in Ha, Hs.
    assert (Hstop : forall o : outcome pyval,
               exists k, (k <= S rem)%nat
                         /\ attempts (snd (ret o w1)) = (attempts w + k)%nat
                         /\ (sent w <= sent (snd (ret o w1)) <= sent w + 3 * k)%nat)
      by (intros o; exists 1%nat; simpl; lia).
    assert (Hgo : exists k, (k <= S rem)%nat
               /\ attempts (snd (attempt_loop p url rem (S attempt)
                                   (snd (backoff p attempt w1))))
                  = (attempts w + k)%nat
               /\ (sent w
                   <= sent (snd (attempt_loop p url rem (S attempt)
                                   (snd (backoff p attempt w1))))
                   <= sent w + 3 * k)%nat).
    { pose proof (backoff_effect p attempt w1) as (Ha2 & Hs2 & _).
      destruct (IH (S attempt) (snd (backoff p attempt w1))) as (k & Hk & Hak & Hsk).
      exists (S k). simpl in *. lia. }
    assert (Hb : forall (m : M (outcome pyval)),
               snd ((let (_, w2) := backoff p attempt w1 in m w2))
               = snd (m (snd (backoff p attempt w1))))
      by (intros m; destruct (backoff p attempt w1); reflexivity).
    destruct r as [code json | e].
    + destruct (code =? 200)%Z; [apply Hstop |].
      destruct (retryable code && _); [| apply Hstop].
      rewrite Hb. exact Hgo.
    + destruct (_ <? _)%Z; [| apply Hstop].
      rewrite Hb. exact Hgo.
Qed.

(** Waiting for a slot sends nothing. *)
Lemma acquire_slot_effect w :
  let w' := snd (acquire_slot w) in
  attempts w' = attempts w /\ sent w' = sent w /\ sleeps w' = sleeps w
  /\ upstream w' = upstream w /\ rng w' = rng w /\ drawn w' = drawn w.
Proof.
  unfold acquire_slot.
  destruct (RateLimiter.acquire _ _ _); simpl; repeat split; reflexivity.
Qed.

Lemma make_request_bound p url w :
  let w' := snd (_make_request p url w) in
  exists k, (k <= Z.to_nat (max_retries p + 1))%nat
            /\ attempts w' = (attempts w + k)%nat
            /\ (sent w <= sent w' <= sent w + 3 * k)%nat.
Proof.
  unfold _make_request, bind.
  pose proof (acquire_slot_effect w) as (Ha & Hs & _).
  destruct (acquire_slot w) as [a w1]. simpl in Ha, Hs.
  destruct a as [[] | msg |].
  - destruct (attempt_loop_bound p url (Z.to_nat (max_retries p + 1)) 0 w1)
      as (k & Hk & Hak & Hsk).
    exists k. simpl. lia.
  - exists 0%nat. simpl. lia.
  - exists 0%nat. simpl. lia.
Qed.

End RetryFacts.

(** C1 as the specification states it fails: with [max_retries = 0] and an
    upstream that always answers 503, the single call of [session.request]
    is repeated twice by the mounted [Retry(total=2)], so three HTTP
    requests reach the upstream, more than [max_retries + 1 = 1]. *)
Lemma http_attempts_exceed_bound :
  let p := mkRetryPolicy 0 1 30 2 (1 # 10) in
  let w := fresh_world (always (Answer 503 PNone)) (fun _ => 0%Q) in
  let w' := snd (_make_request p "https://api.openligadb.de/getavailableleagues" w) in
  0 <= max_retries p
  /\ sent w = 0%nat /\ sent w' = 3%nat /\ attempts w' = 1%nat
  /\ ~ (Z.of_nat (sent w' - sent w) <= max_retries p + 1).
Proof.
  cbv zeta.
  split; [discriminate |].
  split; [reflexivity |].
  split; [vm_compute; reflexivity |].
  split; [vm_compute; reflexivity |].
  vm_compute. intros H; apply H; reflexivity.
Qed.

(** C1, amended.  What [max_retries + 1] bounds is the number of times one
    invocation of [_make_request] calls [session.request] (the iterations of
    its loop), for every policy with [max_retries >= 0], every upstream and
    every state of the limiter.  The HTTP requests that these calls put on
    the wire are not bounded by it ([http_attempts_exceed_bound]). *)
Theorem make_request_attempts :
  forall p url w,
    0 <= max_retries p ->
    let w' := snd (_make_request p url w) in
    (attempts w <= attempts w')%nat
    /\ Z.of_nat (attempts w' - attempts w) <= max_retries p + 1.
Proof.
  intros p url w Hp w'.
  destruct (RetryFacts.make_request_bound p url w) as (k & Hk & Ha & Hs).
  fold w' in Ha, Hs. lia.
Qed.

Lemma make_request_attempts_witness :
  let p := mkRetryPolicy 3 1 30 2 (1 # 10) in
  let w := fresh_world (first_then 9 503 (Answer 200 (PList []))) (fun _ => 0%Q) in
  let w' := snd (_make_request p "https://api.openligadb.de/getavailableleagues" w) in
  (attempts w <= attempts w')%nat
  /\ Z.of_nat (attempts w' - attempts w) <= max_retries p + 1.
Proof.
  intros p w.
  apply (make_request_attempts p "https://api.openligadb.de/getavailableleagues" w).
  vm_compute. discriminate.
Defined.

Module BackoffFacts.

Lemma session_request_eq url w :
  session_request url w
  = (seen (upstream w url) (sent w) 0,
     mkWorld (rate_limiter w) (clock w) (upstream w)
       (snd (send retry_total (upstream w url) (sent w)))
       (rng w) (drawn w) (S (attempts w)) (sleeps w)).
Proof.
  unfold session_request. cbn [seen].
  destruct (send retry_total (upstream w url) (sent w)); reflexivity.
Qed.

Lemma backoff_eq p attempt w :
  backoff p attempt w
  = (tt,
     mkWorld (rate_limiter w)
       (clock w + Qmax 0 (backoff_sleep p attempt (rng w (drawn w))))%Q
       (upstream w) (sent w) (rng w) (S (drawn w)) (attempts w)
       (sleeps w ++ [backoff_sleep p attempt (rng w (drawn w))])).
Proof. reflexivity. Qed.

Lemma retryable_not_200 code : retryable code = true -> (code =? 200) = false.
Proof.
  intros H. destruct (Z.eqb_spec code 200) as [-> |]; [discriminate | reflexivity].
Qed.

(** The loop on a script: [n] retryable answers, then a 200. *)
Lemma loop_retries_then_succeeds p url :
  forall n remaining attempt w body,
    (forall k, (k < n)%nat ->
       exists code b, seen (upstream w url) (sent w) k = Response code b
                      /\ retryable code = true) ->
    seen (upstream w url) (sent w) n = Response 200 body ->
    Z.of_nat (attempt + n) <= max_retries p ->
    (n < remaining)%nat ->
    fst (attempt_loop p url remaining attempt w) = Returned body
    /\ attempts (snd (attempt_loop p url remaining attempt w))
       = (attempts w + S n)%nat
    /\ sleeps (snd (attempt_loop p url remaining attempt w))
       = (sleeps w
          ++ map (fun k => backoff_sleep p (attempt + k) (rng w (drawn w + k)))
               (seq 0 n))%list.
Proof.
  induction n as [| n IH]; intros remaining attempt w body Hfail Hok Hmax Hrem;
    (destruct remaining as [| rem]; [lia |]);
    simpl attempt_loop; unfold bind; rewrite session_request_eq.
  - rewrite Hok. simpl. rewrite app_nil_r. repeat split; auto. lia.
  - destruct (Hfail 0%nat ltac:(lia)) as (code & b & H0 & Hr).
    rewrite H0, (retryable_not_200 _ Hr), Hr.
    replace (Z.of_nat attempt <? max_retries p) with true
      by (symmetry; apply Z.ltb_lt; lia).
    cbn [andb]. rewrite backoff_eq.
    match goal with
    | |- context [attempt_loop p url rem (S attempt) ?x] => set (w2 := x)
    end.
    destruct (IH rem (S attempt) w2 body) as (Hr2 & Ha2 & Hs2).
    + intros k Hk. subst w2; simpl. apply (Hfail (S k)). lia.
    + subst w2; simpl. exact Hok.
    + lia.
    + lia.
    + rewrite Hr2, Ha2, Hs2. subst w2. cbn [attempts sleeps rng drawn].
      split; [reflexivity |]. split; [lia |].
      rewrite <- app_assoc. f_equal. cbn [seq map app]. f_equal.
      * rewrite !Nat.add_0_r. reflexivity.
      * rewrite <- seq_shift, map_map.
        apply map_ext. intros k.
        rewrite !Nat.add_succ_r. reflexivity.
Qed.

(** The jitter stays within [jitter_range] times the delay. *)
Lemma jitter_bound p attempt r :
  (0 <= r <= 1)%Q -> (0 <= jitter_range p)%Q -> (0 <= delay p attempt)%Q ->
  (Qabs (jitter_of p attempt r) <= jitter_range p * delay p attempt)%Q.
Proof.
  intros [Hr0 Hr1] Hj Hd. unfold jitter_of.
  rewrite Qabs_Qmult, (Qabs_pos (delay p attempt)) by assumption.
  apply Qmult_le_compat_r; [| assumption].
  apply Qabs_Qle_condition. split; nra.
Qed.

Lemma delay_nonneg p attempt :
  (0 <= base_delay p)%Q -> (0 <= backoff_multiplier p)%Q ->
  (0 <= max_delay p)%Q -> (0 <= delay p attempt)%Q.
Proof.
  intros Hb Hm Hx. unfold delay. apply Q.min_glb; [| assumption].
  apply Qmult_le_0_compat; [assumption |]. apply Qpower_0_le. assumption.
Qed.

End BackoffFacts.

(** C2 as the specification states it fails.  With the policy of the claim
    and an upstream that answers 503 to the first three HTTP requests and
    200 to the fourth, the session's own [Retry(total=2)] sends the first
    request three times: the loop sees one 503 response and then the 200.
    The call returns the body after two attempts and a single sleep of 1s,
    not after four attempts with sleeps of 1s, 2s and 4s. *)
Lemma three_503_on_the_wire :
  let p := mkRetryPolicy 3 1 30 2 0 in
  let w := fresh_world (first_then 3 503 (Answer 200 (PList []))) (fun _ => 1 # 2) in
  let r := _make_request p "https://api.openligadb.de/getavailableleagues" w in
  fst r = Returned (PList [])
  /\ sent (snd r) = 4%nat /\ attempts (snd r) = 2%nat
  /\ map Qred (sleeps (snd r)) = [1%Q]
  /\ attempts (snd r) <> 4%nat
  /\ ~ (exists d1 d2 d3, sleeps (snd r) = [d1; d2; d3]).
Proof.
  cbv zeta.
  split; [vm_compute; reflexivity |].
  split; [vm_compute; reflexivity |].
  split; [vm_compute; reflexivity |].
  split; [vm_compute; reflexivity |].
  split; [vm_compute; discriminate |].
  intros (d1 & d2 & d3 & H). apply (f_equal (@length Q)) in H.
  vm_compute in H. discriminate.
Qed.

(** C2, amended.  First part: with the policy (max_retries=3,
    base_delay=1, multiplier=2, max_delay=30, jitter=0), once a slot is
    granted, if [session.request] hands the loop a response of status 503 on
    its first three calls and one of status 200 on the fourth (each 503
    being what is left after the session's own re-sends), the call makes
    exactly four attempts, sleeps 1s, 2s and 4s between them and returns the
    body of the 200 response.  Second part: as long as
    [backoff_multiplier ** i] stays within the range of a float, the
    backoff before retrying attempt [i] (both retry branches of the loop run
    [backoff p i]) sleeps [min(base_delay * multiplier^i, max_delay)] plus a
    jitter of magnitude at most [jitter_range] times that value, floored
    at 0. *)
Theorem backoff_schedule :
  (forall url w body b1 b2 b3,
      fst (acquire_slot w) = Returned tt ->
      seen (upstream w url) (sent w) 0 = Response 503 b1 ->
      seen (upstream w url) (sent w) 1 = Response 503 b2 ->
      seen (upstream w url) (sent w) 2 = Response 503 b3 ->
      seen (upstream w url) (sent w) 3 = Response 200 body ->
      let p := mkRetryPolicy 3 1 30 2 0 in
      let w' := snd (_make_request p url w) in
      fst (_make_request p url w) = Returned body
      /\ attempts w' = (attempts w + 4)%nat
      /\ exists d1 d2 d3,
          sleeps w' = (sleeps w ++ [d1; d2; d3])%list
          /\ (d1 == 1)%Q /\ (d2 == 2)%Q /\ (d3 == 4)%Q)
  /\ (forall p attempt w,
         power_in_range p attempt ->
         (0 <= rng w (drawn w) <= 1)%Q ->
         (0 <= jitter_range p)%Q ->
         (0 <= base_delay p)%Q ->
         (0 <= backoff_multiplier p)%Q ->
         (0 <= max_delay p)%Q ->
         delay p attempt
         = Qmin (base_delay p * backoff_multiplier p ^ Z.of_nat attempt)%Q
             (max_delay p)
         /\ exists jitter,
             (Qabs jitter <= jitter_range p * delay p attempt)%Q
             /\ sleeps (snd (backoff p attempt w))
                = (sleeps w ++ [Qmax 0 (delay p attempt + jitter)%Q])%list).
Proof.
  split.
  - intros url w body b1 b2 b3 Hslot H0 H1 H2 H3 p w'.
    subst w'. unfold _make_request, bind.
    pose proof (RetryFacts.acquire_slot_effect w) as (Ha & Hs & Hsl & Hu & Hrng & Hd).
    destruct (acquire_slot w) as [a w1]. simpl in Hslot, Ha, Hs, Hsl, Hu, Hrng, Hd.
    subst a.
    change (Z.to_nat (max_retries p + 1)) with 4%nat.
    destruct (@BackoffFacts.loop_retries_then_succeeds p url 3 4 0 w1 body)
      as (Hr & Hat & Hsleep).
    + rewrite Hu, Hs. intros k Hk.
      destruct k as [| [| [| k]]]; [eauto | eauto | eauto | lia];
        eexists; eexists; (split; [eassumption | reflexivity]).
    + rewrite Hu, Hs. exact H3.
    + simpl. lia.
    + lia.
    + split; [exact Hr |]. split; [rewrite Hat; lia |].
      rewrite Hsleep, Hsl. cbn [seq map].
      do 3 eexists. split; [reflexivity |].
      unfold backoff_sleep, jitter_of.
      repeat split.
      * change (delay p (0 + 0)) with 1%Q.
        rewrite Q.max_r; [simpl; ring | simpl; lra].
      * change (delay p (0 + 1)) with 2%Q.
        rewrite Q.max_r; [simpl; ring | simpl; lra].
      * change (delay p (0 + 2)) with 4%Q.
        rewrite Q.max_r; [simpl; ring | simpl; lra].
  - intros p attempt w _ Hr Hj Hb Hm Hx.
    split; [reflexivity |].
    exists (jitter_of p attempt (rng w (drawn w))). split.
    + apply BackoffFacts.jitter_bound; auto.
      apply BackoffFacts.delay_nonneg; auto.
    + rewrite BackoffFacts.backoff_eq. reflexivity.
Qed.

Lemma backoff_schedule_witness :
  let url := "https://api.openligadb.de/getavailableleagues" in
  let w := fresh_world (first_then 9 503 (Answer 200 (PList []))) (fun _ => 1 # 2) in
  (let p := mkRetryPolicy 3 1 30 2 0 in
   let w' := snd (_make_request p url w) in
   fst (_make_request p url w) = Returned (PList [])
   /\ attempts w' = (attempts w + 4)%nat
   /\ exists d1 d2 d3,
       sleeps w' = (sleeps w ++ [d1; d2; d3])%list
       /\ (d1 == 1)%Q /\ (d2 == 2)%Q /\ (d3 == 4)%Q)
  /\ (let p := mkRetryPolicy 3 1 30 2 (1 # 10) in
      delay p 2
      = Qmin (base_delay p * backoff_multiplier p ^ Z.of_nat 2)%Q (max_delay p)
      /\ exists jitter,
          (Qabs jitter <= jitter_range p * delay p 2)%Q
          /\ sleeps (snd (backoff p 2 w))
             = (sleeps w ++ [Qmax 0 (delay p 2 + jitter)%Q])%list).
Proof.
  intros url w. split.
  - apply (proj1 backoff_schedule url w (PList []) PNone PNone PNone);
      reflexivity.
  - apply (proj2 backoff_schedule (mkRetryPolicy 3 1 30 2 (1 # 10)) 2%nat w).
    + vm_compute. discriminate.
    + split; discriminate.
    + discriminate.
    + discriminate.
    + discriminate.
    + discriminate.
Defined.

(** ** The provider's mapping *)

Module MappingFacts.

Lemma truthy_nonempty_list l x : truthy (PList (l ++ [x])) = true.
Proof. destruct l; reflexivity. Qed.

Lemma length_snoc_pos {A} (l : list A) x : (0 <? length (l ++ [x]))%nat = true.
Proof. apply Nat.ltb_lt. rewrite length_app. simpl. lia. Qed.

(** [final_score] on a match whose results end with [v]. *)
Lemma final_score_last match_ rs v :
  lookup "matchResults" match_ = Some (PList (rs ++ [v])) ->
  final_score match_
  = match v with
    | PDict final_result =>
        PDict [ ("home", get final_result "pointsTeam1" (PInt 0));
                ("away", get final_result "pointsTeam2" (PInt 0));
                ("match_status",
                 PStr (if truthy (get_none match_ "matchIsFinished")
                       then "finished" else "in_progress")) ]
    | _ => scheduled_score
    end.
Proof.
  intros H. unfold final_score, get at 1 2 3 4. rewrite H.
  cbn [is_list items]. rewrite truthy_nonempty_list, length_snoc_pos.
  cbn [andb]. rewrite last_last. reflexivity.
Qed.

Lemma final_score_none match_ :
  lookup "matchResults" match_ = None \/
  lookup "matchResults" match_ = Some (PList []) ->
  final_score match_ = scheduled_score.
Proof.
  intros [H | H]; unfold final_score, get at 1; rewrite H; reflexivity.
Qed.

(** Every element produced by [map_matches] is a match record built with
    the requested shortcut. *)
Lemma map_matches_records league_shortcut data :
  Forall (fun m => exists match_,
              In (PDict match_) data
              /\ m = match_record (PStr league_shortcut) match_)
         (map_matches league_shortcut data).
Proof.
  induction data as [| v data IH]; simpl; [constructor |].
  assert (IH' : Forall (fun m => exists match_,
                          (v = PDict match_ \/ In (PDict match_) data)
                          /\ m = match_record (PStr league_shortcut) match_)
                       (map_matches league_shortcut data)).
  { eapply Forall_impl; [| exact IH].
    intros m (match_ & Hin & ->). eauto. }
  destruct v; try exact IH'.
  constructor; [| exact IH']. eauto.
Qed.

(** What a provider method returns once the request has returned. *)
Lemma after_request_returned {A} p url (k : pyval -> outcome A) w data w' :
  _make_request p url w = (Returned data, w') ->
  after_request p url k w = (k data, w').
Proof. intros H. unfold after_request, bind. rewrite H. reflexivity. Qed.

Lemma after_request_raised {A} p url (k : pyval -> outcome A) w msg w' :
  _make_request p url w = (Raised msg, w') ->
  after_request p url k w = (Raised msg, w').
Proof. intros H. unfold after_request, bind. rewrite H. reflexivity. Qed.

Lemma after_request_hangs {A} p url (k : pyval -> outcome A) w w' :
  _make_request p url w = (Hangs, w') ->
  after_request p url k w = (Hangs, w').
Proof. intros H. unfold after_request, bind. rewrite H. reflexivity. Qed.

End MappingFacts.

(** C5 as the specification states it fails: a match whose [matchResults]
    is the non-empty list [[1]] has results, yet its score is not taken from
    the last element and its status is neither "finished" nor
    "in_progress": it keeps the default 0-0 "scheduled". *)
Lemma last_result_not_an_object :
  let match_ := [ ("matchID", PInt 7);
                  ("matchResults", PList [PInt 1]);
                  ("matchIsFinished", PBool true) ] in
  items (get match_ "matchResults" (PList [])) = [PInt 1]
  /\ final_score match_ = scheduled_score
  /\ lookup "final_score"
       (dict_or_empty (nth 0 (map_matches "bl1" [PDict match_]) PNone))
     = Some (PDict [ ("home", PInt 0); ("away", PInt 0);
                     ("match_status", PStr "scheduled") ]).
Proof. repeat split; reflexivity. Qed.

(** C5, amended.  In the GetLeagueMatches mapping every mapped match carries
    the score computed by [final_score]: 0-0 "scheduled" when [matchResults]
    is absent or empty, and also when its last element is not an object;
    when the last element is an object, the score is read from it (0 for a
    missing points field) and the status is "finished" when the match's
    finished flag is truthy and "in_progress" otherwise. *)
Theorem final_score_cases :
  forall league_shortcut match_,
    lookup "final_score"
      (dict_or_empty (match_record (PStr league_shortcut) match_))
    = Some (final_score match_)
    /\ (lookup "matchResults" match_ = None \/
        lookup "matchResults" match_ = Some (PList []) ->
        final_score match_ = scheduled_score)
    /\ (forall rs final_result,
           lookup "matchResults" match_
           = Some (PList (rs ++ [PDict final_result])) ->
           final_score match_
           = PDict [ ("home", get final_result "pointsTeam1" (PInt 0));
                     ("away", get final_result "pointsTeam2" (PInt 0));
                     ("match_status",
                      PStr (if truthy (get_none match_ "matchIsFinished")
                            then "finished" else "in_progress")) ])
    /\ (forall rs v,
           lookup "matchResults" match_ = Some (PList (rs ++ [v])) ->
           is_dict v = false ->
           final_score match_ = scheduled_score).
Proof.
  intros league_shortcut match_.
  split; [reflexivity |].
  split; [apply MappingFacts.final_score_none |].
  split.
  - intros rs final_result H.
    rewrite (MappingFacts.final_score_last _ _ _ H). reflexivity.
  - intros rs v H Hv.
    rewrite (MappingFacts.final_score_last _ _ _ H).
    destruct v; try reflexivity. discriminate.
Qed.

Lemma final_score_cases_witness :
  let finished := [ ("matchResults",
                     PList [ PDict [("pointsTeam1", PInt 1); ("pointsTeam2", PInt 0)];
                             PDict [("pointsTeam1", PInt 2); ("pointsTeam2", PInt 1)] ]);
                    ("matchIsFinished", PBool true) ] in
  final_score [] = scheduled_score
  /\ final_score finished
     = PDict [ ("home", PInt 2); ("away", PInt 1);
               ("match_status", PStr "finished") ]
  /\ final_score [("matchResults", PList [PNone])] = scheduled_score.
Proof.
  intros finished.
  split; [| split].
  - apply (proj1 (proj2 (final_score_cases "bl1" []))). left. reflexivity.
  - apply (proj1 (proj2 (proj2 (final_score_cases "bl1" finished)))
             [PDict [("pointsTeam1", PInt 1); ("pointsTeam2", PInt 0)]]
             [("pointsTeam1", PInt 2); ("pointsTeam2", PInt 1)]).
    reflexivity.
  - apply (proj2 (proj2 (proj2 (final_score_cases "bl1"
                                  [("matchResults", PList [PNone])])))
             [] PNone); reflexivity.
Defined.

(** ** The dispatcher *)

Module DispatcherFacts.

Section WithProvider.

Variable lax : Lax.
Context {provider : SportsProvider}.

(** The registry has exactly four entries. *)
Lemma find_operation_cases operation_type cfg :
  find_operation operation_type (operation_map lax) = Some cfg ->
  (operation_type = "ListLeagues"
   /\ response_schema cfg = validate_ListLeaguesResponse lax)
  \/ (operation_type = "GetLeagueMatches"
      /\ response_schema cfg = validate_GetLeagueMatchesResponse lax)
  \/ (operation_type = "GetTeam"
      /\ response_schema cfg = validate_GetTeamResponse lax)
  \/ (operation_type = "GetMatch"
      /\ response_schema cfg = validate_GetMatchResponse lax).
Proof.
  unfold operation_map. cbn [find_operation].
  destruct (String.eqb_spec operation_type "ListLeagues") as [-> |];
    [intros [= <-]; auto |].
  destruct (String.eqb_spec operation_type "GetLeagueMatches") as [-> |];
    [intros [= <-]; auto |].
  destruct (String.eqb_spec operation_type "GetTeam") as [-> |];
    [intros [= <-]; auto 6 |].
  destruct (String.eqb_spec operation_type "GetMatch") as [-> |];
    [intros [= <-]; auto 6 |].
  discriminate.
Qed.

(** Each response model dumps to a dict with its own single key. *)
Lemma response_schema_key operation_type cfg provider_response n :
  find_operation operation_type (operation_map lax) = Some cfg ->
  response_schema cfg provider_response = Valid n ->
  exists key v, model_dump n = [(key, v)]
                /\ In (operation_type, key) output_keys.
Proof.
  intros Hf Hn.
  destruct (find_operation_cases _ Hf) as [[-> E] | [[-> E] | [[-> E] | [-> E]]]];
    rewrite E in Hn;
    [ unfold validate_ListLeaguesResponse in Hn
    | unfold validate_GetLeagueMatchesResponse in Hn
    | unfold validate_GetTeamResponse in Hn
    | unfold validate_GetMatchResponse in Hn ];
    unfold ap in Hn;
    match type of Hn with
    | match ?r with _ => _ end = _ => destruct r; [| discriminate]
    end;
    injection Hn as <-; cbn [model_dump]; do 2 eexists;
    (split; [reflexivity | simpl; auto 6]).
Qed.

(** The four ways [execute_operation] ends, and what it returns in each. *)
Lemma execute_operation_cases operation_type payload w :
  (find_operation operation_type (operation_map lax) = None
   /\ execute_operation lax operation_type payload w
      = (Returned
           (error_dict ("Unknown operationType: " ++ operation_type)
              "UNKNOWN_OPERATION"
              [ ("valid_operations",
                 PList (map (fun o => PStr (fst o)) (operation_map lax))) ]),
         w))
  \/ (exists cfg errors,
         find_operation operation_type (operation_map lax) = Some cfg
         /\ payload_validator cfg payload = Invalid errors
         /\ execute_operation lax operation_type payload w
            = (Returned
                 (error_dict "Payload validation failed" "VALIDATION_ERROR"
                    [ ("validation_errors", PList (map error_entry errors)) ]),
               w))
  \/ (exists cfg validated_payload w',
         find_operation operation_type (operation_map lax) = Some cfg
         /\ payload_validator cfg payload = Valid validated_payload
         /\ ((provider_call cfg validated_payload w = (Hangs, w')
              /\ execute_operation lax operation_type payload w = (Hangs, w'))
             \/ (exists e,
                    provider_call cfg validated_payload w = (Raised e, w')
                    /\ execute_operation lax operation_type payload w
                       = (Returned
                            (error_dict "Upstream API failed" "UPSTREAM_ERROR"
                               [ ("message", PStr e) ]),
                          w'))
             \/ (exists provider_response errors,
                    provider_call cfg validated_payload w
                    = (Returned provider_response, w')
                    /\ response_schema cfg provider_response = Invalid errors
                    /\ execute_operation lax operation_type payload w
                       = (Returned
                            (error_dict "Internal response normalization error"
                               "INTERNAL_ERROR"
                               [ ("message",
                                  PStr "Provider response format unexpected") ]),
                          w'))
             \/ (exists provider_response n,
                    provider_call cfg validated_payload w
                    = (Returned provider_response, w')
                    /\ response_schema cfg provider_response = Valid n
                    /\ execute_operation lax operation_type payload w
                       = (Returned (model_dump n), w')))).
Proof.
  unfold execute_operation.
  destruct (find_operation operation_type (operation_map lax)) as [cfg |];
    [| left; split; reflexivity].
  right.
  destruct (payload_validator cfg payload) as [vp | errors] eqn:Ev.
  - right. unfold bind.
    destruct (provider_call cfg vp w) as [r w'] eqn:Ec.
    exists cfg, vp, w'. split; [reflexivity |]. split; [exact Ev |].
    destruct r as [provider_response | e |].
    + destruct (response_schema cfg provider_response) as [n | errors] eqn:E.
      * right; right; right. exists provider_response, n. auto.
      * right; right; left. exists provider_response, errors. auto.
    + right; left. exists e. auto.
    + left. auto.
  - left. exists cfg, errors. auto.
Qed.

End WithProvider.

(** Dumped models are complete records. *)
Lemma dump_LeagueSummary_complete l :
  complete_LeagueSummary (dump_LeagueSummary l) = true.
Proof. reflexivity. Qed.

Lemma dump_TeamDetail_complete t :
  complete_TeamDetail (dump_TeamDetail t) = true.
Proof.
  unfold dump_TeamDetail. destruct (TeamDetail.icon_url t); reflexivity.
Qed.

Lemma dump_MatchScore_complete s :
  complete_MatchScore (dump_MatchScore s) = true.
Proof. reflexivity. Qed.

Lemma dump_MatchDetail_complete m :
  complete_MatchDetail (dump_MatchDetail m) = true.
Proof.
  unfold dump_MatchDetail, complete_MatchDetail, record_ok.
  cbn [fields_ok String.eqb Ascii.eqb Bool.eqb andb is_int is_str is_bool].
  rewrite !dump_TeamDetail_complete, dump_MatchScore_complete.
  destruct (MatchDetail.date_time m); reflexivity.
Qed.

Lemma forallb_map_true {A B} (f : A -> B) (ok : B -> bool) l :
  (forall a, ok (f a) = true) -> forallb ok (map f l) = true.
Proof. intros H. induction l; simpl; [reflexivity | rewrite H, IHl; reflexivity]. Qed.

Lemma fields_ok_single key ok v :
  ok v = true -> fields_ok [(key, ok)] [(key, v)] = true.
Proof. intros H. simpl. rewrite String.eqb_refl, H. reflexivity. Qed.

Lemma model_dump_complete n : complete_response (model_dump n) = true.
Proof.
  destruct n as [leagues | matches | team | match_];
    unfold complete_response; cbn [model_dump];
    rewrite fields_ok_single; rewrite ?orb_true_r; try reflexivity.
  - apply forallb_map_true, dump_LeagueSummary_complete.
  - apply forallb_map_true, dump_MatchDetail_complete.
  - apply dump_TeamDetail_complete.
  - apply dump_MatchDetail_complete.
Qed.

End DispatcherFacts.

(** C10.  [execute_operation] never raises.  What it returns is either an
    error dict, with the key "error" and a "code" among UNKNOWN_OPERATION,
    VALIDATION_ERROR, UPSTREAM_ERROR and INTERNAL_ERROR, or a normalized
    response without the key "error", whose only key is the output key of
    the operation.  (It returns nothing only when the provider call itself
    never completes.) *)
Theorem error_key_separates :
  forall (lax : Lax) (provider : SportsProvider) operation_type payload w,
    match fst (execute_operation lax operation_type payload w) with
    | Returned r =>
        (has_key "error" r = true
         /\ exists code, lookup "code" r = Some (PStr code)
                         /\ In code error_codes)
        \/ (has_key "error" r = false
            /\ exists key v, r = [(key, v)]
                             /\ In (operation_type, key) output_keys)
    | Raised _ => False
    | Hangs =>
        exists cfg validated_payload,
          find_operation operation_type (operation_map lax) = Some cfg
          /\ payload_validator cfg payload = Valid validated_payload
          /\ fst (provider_call cfg validated_payload w) = Hangs
    end.
Proof.
  intros lax provider operation_type payload w.
  destruct (DispatcherFacts.execute_operation_cases lax operation_type payload w)
    as [[_ E] | [(cfg & errors & _ & _ & E)
                | (cfg & vp & w' & Hf & Hv &
                   [[Hc E] | [(e & _ & E)
                             | [(resp & errors & _ & _ & E)
                               | (resp & n & _ & Hn & E)]]])]];
    rewrite E; cbn [fst].
  - left. split; [reflexivity |]. eexists. split; [reflexivity |]. simpl; auto.
  - left. split; [reflexivity |]. eexists. split; [reflexivity |]. simpl; auto.
  - exists cfg, vp. rewrite Hc. auto.
  - left. split; [reflexivity |]. eexists. split; [reflexivity |]. simpl; auto.
  - left. split; [reflexivity |]. eexists. split; [reflexivity |]. simpl; auto 6.
  - right.
    destruct (DispatcherFacts.response_schema_key lax _ _ Hf Hn)
      as (key & v & Hd & Hk).
    rewrite Hd. split; [| eauto].
    simpl in Hk.
    destruct Hk as [[= _ <-] | [[= _ <-] | [[= _ <-] | [[= _ <-] | []]]]];
      reflexivity.
Qed.

(** C7.  When the response model rejects what the provider returned,
    [execute_operation] returns the INTERNAL_ERROR dict (whose code is not
    UPSTREAM_ERROR); and whatever it returns without the key "error" is a
    complete record of a response model: every declared field is present,
    with a value of the declared type. *)
Theorem normalization_failure_is_internal :
  forall (lax : Lax) (provider : SportsProvider) operation_type payload w,
    (forall cfg validated_payload provider_response w' errors,
        find_operation operation_type (operation_map lax) = Some cfg ->
        payload_validator cfg payload = Valid validated_payload ->
        provider_call cfg validated_payload w
        = (Returned provider_response, w') ->
        response_schema cfg provider_response = Invalid errors ->
        execute_operation lax operation_type payload w
        = (Returned
             (error_dict "Internal response normalization error"
                "INTERNAL_ERROR"
                [ ("message", PStr "Provider response format unexpected") ]),
           w'))
    /\ (forall r w',
           execute_operation lax operation_type payload w = (Returned r, w') ->
           has_key "error" r = false ->
           complete_response r = true).
Proof.
  intros lax provider operation_type payload w. split.
  - intros cfg vp resp w' errors Hf Hv Hc Hn.
    unfold execute_operation, bind. rewrite Hf, Hv, Hc, Hn. reflexivity.
  - intros r w' E Hr.
    destruct (DispatcherFacts.execute_operation_cases lax operation_type payload w)
      as [[_ E'] | [(cfg & errors & _ & _ & E')
                   | (cfg & vp & w2 & Hf & Hv &
                      [[Hc E'] | [(e & _ & E')
                                | [(resp & errors & _ & _ & E')
                                  | (resp & n & _ & Hn & E')]]])]];
      rewrite E' in E; injection E as <- <- || discriminate E;
      try discriminate Hr.
    apply DispatcherFacts.model_dump_complete.
Qed.

Lemma normalization_failure_is_internal_witness :
  let provider := OpenLigaProvider (mkRetryPolicy 3 1 30 2 (1 # 10)) in
  let payload := [("team_id", PInt 40)] in
  (let w := answering (PDict [("teamId", PInt 40); ("teamName", PInt 5)]) in
   fst (execute_operation no_parsing "GetTeam" payload w)
   = Returned
       (error_dict "Internal response normalization error" "INTERNAL_ERROR"
          [ ("message", PStr "Provider response format unexpected") ]))
  /\ (let w := answering (PDict [("teamId", PInt 40); ("teamName", PStr "FCB")]) in
      complete_response
        [ ("team", PDict [ ("id", PInt 40); ("name", PStr "FCB");
                           ("short_name", PStr ""); ("icon_url", PNone) ]) ]
      = true).
Proof.
  intros provider payload. split.
  - intros w.
    exact (f_equal fst
             (proj1 (@normalization_failure_is_internal no_parsing provider
                       "GetTeam" payload w)
                (mkOperation (validate_GetTeamPayload no_parsing)
                   (fun payload =>
                      match payload with
                      | GetTeamPayload team_id => get_team team_id
                      | _ => no_attribute
                      end)
                   (validate_GetTeamResponse no_parsing))
                (GetTeamPayload 40)
                [ ("team", PDict [ ("team_id", PInt 40); ("name", PInt 5);
                                   ("short_name", PStr "");
                                   ("icon_url", PNone) ]) ]
                (snd (execute_operation no_parsing "GetTeam" payload w))
                [ mkFieldError ["team"; "name"]
                    "Input should be a valid string" "string_type" ]
                eq_refl eq_refl eq_refl eq_refl)).
  - intros w.
    apply (proj2 (@normalization_failure_is_internal no_parsing provider
                    "GetTeam" payload w)
             _ (snd (execute_operation no_parsing "GetTeam" payload w)));
      reflexivity.
Defined.

Module OperationFacts.

(** [get_match] raises "Match not found" on every payload that is empty,
    is neither an array nor an object, or resolves to something that is not
    an object. *)
Lemma match_of_not_found data :
  truthy data = false
  \/ (is_list data = false /\ is_dict data = false)
  \/ is_dict (resolved data) = false ->
  match_of data = Raised "Match not found".
Proof.
  unfold match_of.
  destruct (truthy data) eqn:Ht; [| reflexivity].
  intros [H | [[Hl Hd] | H]]; [discriminate | |]; cbn [negb].
  - rewrite Hl, Hd. reflexivity.
  - destruct data as [| b | z | q | s | [| first rest] | d |];
      try reflexivity; try discriminate.
    cbn [resolved] in H. cbn [is_list items length nth Nat.ltb Nat.leb andb].
    rewrite H, orb_true_r. reflexivity.
Qed.

(** The steps of [execute_operation] for an operation of the registry whose
    payload is valid, by the outcome of the provider call. *)
Lemma execute_raised lax (provider : SportsProvider) operation_type cfg
    payload validated_payload w e w' :
  find_operation operation_type (operation_map lax) = Some cfg ->
  payload_validator cfg payload = Valid validated_payload ->
  provider_call cfg validated_payload w = (Raised e, w') ->
  execute_operation lax operation_type payload w
  = (Returned (error_dict "Upstream API failed" "UPSTREAM_ERROR"
                 [ ("message", PStr e) ]), w').
Proof.
  intros Hf Hv Hc. unfold execute_operation, bind.
  rewrite Hf, Hv, Hc. reflexivity.
Qed.

Lemma execute_normalized lax (provider : SportsProvider) operation_type cfg
    payload validated_payload w provider_response w' n :
  find_operation operation_type (operation_map lax) = Some cfg ->
  payload_validator cfg payload = Valid validated_payload ->
  provider_call cfg validated_payload w = (Returned provider_response, w') ->
  response_schema cfg provider_response = Valid n ->
  execute_operation lax operation_type payload w
  = (Returned (model_dump n), w').
Proof.
  intros Hf Hv Hc Hn. unfold execute_operation, bind.
  rewrite Hf, Hv, Hc, Hn. reflexivity.
Qed.

End OperationFacts.

(** C6.  For a valid GetMatch payload, whenever the upstream response is
    empty, is neither an array nor an object, or resolves (first element of
    an array, the object itself) to something that is not an object,
    [execute_operation] returns the UPSTREAM_ERROR dict whose details carry
    the message "Match not found"; it does not raise. *)
Theorem get_match_not_found :
  forall (lax : Lax) p payload match_id w data w',
    validate_GetMatchPayload lax payload = Valid (GetMatchPayload match_id) ->
    _make_request p (base_url ++ "/getmatchdata/" ++ str_of_Z match_id) w
    = (Returned data, w') ->
    truthy data = false
    \/ (is_list data = false /\ is_dict data = false)
    \/ is_dict (resolved data) = false ->
    @execute_operation lax (OpenLigaProvider p) "GetMatch" payload w
    = (Returned match_not_found, w').
Proof.
  intros lax p payload match_id w data w' Hv Hreq Hdata.
  eapply OperationFacts.execute_raised.
  - reflexivity.
  - exact Hv.
  - cbn [provider_call get_match OpenLigaProvider].
    rewrite (MappingFacts.after_request_returned _ _ _ _ Hreq).
    rewrite (OperationFacts.match_of_not_found _ Hdata). reflexivity.
Qed.

(** An upstream response of [[]] yields UPSTREAM_ERROR. *)
Lemma get_match_not_found_witness :
  let p := mkRetryPolicy 3 1 30 2 (1 # 10) in
  let w := answering (PList []) in
  fst (@execute_operation no_parsing (OpenLigaProvider p) "GetMatch"
         [("match_id", PInt 61588)] w)
  = Returned
      [ ("error", PStr "Upstream API failed");
        ("code", PStr "UPSTREAM_ERROR");
        ("details", PDict [("message", PStr "Match not found")]) ].
Proof.
  intros p w.
  exact (f_equal fst
           (@get_match_not_found no_parsing p [("match_id", PInt 61588)] 61588
              w (PList [])
              (snd (_make_request p
                      (base_url ++ "/getmatchdata/" ++ str_of_Z 61588) w))
              eq_refl eq_refl (or_introl eq_refl))).
Defined.

(** C8.  Once the request has returned, [get_team] returns a team record and
    never raises.  When the body is not an object the record is the
    all-defaults one, which the dispatcher returns normalized as
    [id=0, name="", short_name="", icon_url=None]; when it is an object,
    every field that is missing gets its default. *)
Theorem get_team_defaults :
  forall (lax : Lax) p payload team_id w data w',
    validate_GetTeamPayload lax payload = Valid (GetTeamPayload team_id) ->
    _make_request p (base_url ++ "/getteam/" ++ str_of_Z team_id) w
    = (Returned data, w') ->
    @get_team (OpenLigaProvider p) team_id w = (Returned (team_of data), w')
    /\ (is_dict data = false ->
        team_of data = [("team", default_team_raw)]
        /\ @execute_operation lax (OpenLigaProvider p) "GetTeam" payload w
           = (Returned [("team", default_team)], w'))
    /\ (forall d, data = PDict d ->
          exists t, team_of data = [("team", PDict t)]
            /\ (lookup "teamId" d = None -> lookup "team_id" t = Some (PInt 0))
            /\ (lookup "teamName" d = None -> lookup "name" t = Some (PStr ""))
            /\ (lookup "shortName" d = None
                -> lookup "short_name" t = Some (PStr ""))
            /\ (lookup "teamIconUrl" d = None
                -> lookup "icon_url" t = Some PNone)).
Proof.
  intros lax p payload team_id w data w' Hv Hreq.
  assert (Hcall : @get_team (OpenLigaProvider p) team_id w
                  = (Returned (team_of data), w'))
    by exact (@MappingFacts.after_request_returned _ p _
                (fun data => Returned (team_of data)) w data w' Hreq).
  split; [exact Hcall |]. split.
  - intros Hd.
    assert (Hteam : team_of data = [("team", default_team_raw)])
      by (destruct data; try reflexivity; discriminate).
    split; [exact Hteam |].
    rewrite Hteam in Hcall.
    eapply (@OperationFacts.execute_normalized lax (OpenLigaProvider p) "GetTeam"
             _ payload (GetTeamPayload team_id) w
             [("team", default_team_raw)] w'
             (GetTeamResponse (TeamDetail.mk 0 "" "" None)));
      [reflexivity | exact Hv | exact Hcall | reflexivity].
  - intros d ->. eexists. split; [reflexivity |].
    unfold get_none, get.
    repeat split; intros ->; reflexivity.
Qed.

(** A malformed (non-object) body: the string "Not Found". *)
Lemma get_team_defaults_witness :
  let p := mkRetryPolicy 3 1 30 2 (1 # 10) in
  let w := answering (PStr "Not Found") in
  fst (@execute_operation no_parsing (OpenLigaProvider p) "GetTeam"
         [("team_id", PInt 40)] w)
  = Returned
      [ ("team", PDict [ ("id", PInt 0); ("name", PStr "");
                         ("short_name", PStr ""); ("icon_url", PNone) ]) ].
Proof.
  intros p w.
  exact (f_equal fst
           (proj2
              (proj1 (proj2
                 (@get_team_defaults no_parsing p [("team_id", PInt 40)] 40 w
                    (PStr "Not Found")
                    (snd (_make_request p
                            (base_url ++ "/getteam/" ++ str_of_Z 40) w))
                    eq_refl eq_refl))
                 eq_refl))).
Defined.

Module NormalizationFacts.

Lemma ap_valid {A B} (f : validated (A -> B)) (r : validated A) b :
  ap f r = Valid b -> exists g a, f = Valid g /\ r = Valid a /\ b = g a.
Proof.
  unfold ap. destruct f as [g |]; [| discriminate].
  destruct r as [a |]; [| discriminate].
  intros [= <-]. eauto.
Qed.

Lemma at_loc_valid {A} key (r : validated A) a :
  at_loc key r = Valid a -> r = Valid a.
Proof. destruct r; simpl; [auto | discriminate]. Qed.

Lemma required_valid {A} d key (validate : pyval -> validated A) a :
  required d key validate = Valid a ->
  exists v, lookup key d = Some v /\ validate v = Valid a.
Proof.
  unfold required. destruct (lookup key d) as [v |]; [| discriminate].
  intros H. apply at_loc_valid in H. eauto.
Qed.

(** Validation keeps the league name of a match as it is. *)
Lemma MatchDetail_league_name lax d m s :
  MatchDetail_fields lax d = Valid m ->
  lookup "league_name" d = Some (PStr s) ->
  MatchDetail.league_name m = s.
Proof.
  unfold MatchDetail_fields. intros H Hl.
  apply ap_valid in H as (g7 & fin & H & _ & ->).
  apply ap_valid in H as (g6 & sc & H & _ & ->).
  apply ap_valid in H as (g5 & ta & H & _ & ->).
  apply ap_valid in H as (g4 & th & H & _ & ->).
  apply ap_valid in H as (g3 & dt & H & _ & ->).
  apply ap_valid in H as (g2 & ln & H & Hln & ->).
  apply ap_valid in H as (g1 & id & H & _ & ->).
  injection H as <-. simpl.
  apply required_valid in Hln as (v & Hv & Hs).
  rewrite Hl in Hv. injection Hv as <-. simpl in Hs. congruence.
Qed.

Lemma validate_items_matches lax league_shortcut data :
  forall i ms,
    validate_items (validate_model (MatchDetail_fields lax)) i
      (map_matches league_shortcut data) = Valid ms ->
    Forall (fun m => MatchDetail.league_name m = league_shortcut) ms.
Proof.
  induction data as [| v data IH]; intros i ms H.
  - injection H as <-. constructor.
  - assert (Hskip : map_matches league_shortcut (v :: data)
                    = map_matches league_shortcut data
                    \/ exists match_,
                        map_matches league_shortcut (v :: data)
                        = match_record (PStr league_shortcut) match_
                            :: map_matches league_shortcut data)
      by (destruct v; simpl; eauto).
    destruct Hskip as [E | (match_ & E)]; rewrite E in H; [eauto |].
    cbn [validate_items] in H.
    apply ap_valid in H as (g & ms' & H & Hrest & ->).
    apply ap_valid in H as (c & m & H & Hm & ->).
    injection H as <-.
    constructor; [| eauto].
    apply at_loc_valid in Hm. unfold match_record in Hm. cbn [validate_model] in Hm.
    eapply MatchDetail_league_name; [exact Hm | reflexivity].
Qed.

End NormalizationFacts.

(** C9.  Once the request has returned, every match in the output of
    [get_league_matches] has [league_name] equal to the requested shortcut,
    whatever the upstream objects contain, and normalization keeps it so;
    [get_match] instead reads [league_name] from the upstream object's
    [leagueName] (default ""). *)
Theorem league_name_is_requested_shortcut :
  forall (lax : Lax) p league_shortcut league_season w data w',
    _make_request p
      (base_url ++ "/getmatchdata/" ++ league_shortcut ++ "/" ++ league_season)
      w = (Returned data, w') ->
    (exists matches,
        @get_league_matches (OpenLigaProvider p) league_shortcut league_season w
        = (Returned [("matches", PList matches)], w')
        /\ Forall (fun m => lookup "league_name" (dict_or_empty m)
                            = Some (PStr league_shortcut)) matches
        /\ forall n,
            validate_GetLeagueMatchesResponse lax [("matches", PList matches)]
            = Valid n ->
            exists ms, n = GetLeagueMatchesResponse ms
                       /\ Forall (fun m => MatchDetail.league_name m
                                           = league_shortcut) ms)
    /\ (forall match_,
           truthy (PDict match_) = true ->
           exists m, match_of (PDict match_) = Returned [("match", PDict m)]
                     /\ lookup "league_name" m
                        = Some (get match_ "leagueName" (PStr ""))).
Proof.
  intros lax p league_shortcut league_season w data w' Hreq. split.
  - exists (if is_list data then map_matches league_shortcut (items data) else []).
    split; [| split].
    + cbn [get_league_matches OpenLigaProvider].
      rewrite (MappingFacts.after_request_returned _ _ _ _ Hreq). reflexivity.
    + destruct (is_list data); [| constructor].
      eapply Forall_impl;
        [| apply MappingFacts.map_matches_records].
      intros m (match_ & _ & ->). reflexivity.
    + intros n Hn. unfold validate_GetLeagueMatchesResponse in Hn.
      apply NormalizationFacts.ap_valid in Hn as (g & ms & Hg & Hms & ->).
      injection Hg as <-. exists ms. split; [reflexivity |].
      apply NormalizationFacts.required_valid in Hms as (v & Hv & Hl).
      injection Hv as <-. cbn [validate_list] in Hl.
      destruct (is_list data).
      * eapply NormalizationFacts.validate_items_matches; eauto.
      * injection Hl as <-. constructor.
  - intros match_ Ht. unfold match_of. rewrite Ht.
    cbn [negb is_list is_dict andb orb dict_or_empty]. rewrite Ht.
    cbn [negb orb]. unfold match_record.
    eexists. split; reflexivity.
Qed.

Lemma league_name_is_requested_shortcut_witness :
  let p := mkRetryPolicy 3 1 30 2 (1 # 10) in
  let upstream_match := [ ("matchID", PInt 7); ("leagueName", PStr "1. Bundesliga") ] in
  let w := answering (PList [PDict upstream_match]) in
  exists matches,
    @get_league_matches (OpenLigaProvider p) "bl1" "2023" w
    = (Returned [("matches", PList matches)],
       snd (_make_request p (base_url ++ "/getmatchdata/bl1/2023") w))
    /\ Forall (fun m => lookup "league_name" (dict_or_empty m)
                        = Some (PStr "bl1")) matches.
Proof.
  intros p upstream_match w.
  destruct (proj1 (@league_name_is_requested_shortcut no_parsing p "bl1" "2023" w
                     (PList [PDict upstream_match])
                     (snd (_make_request p (base_url ++ "/getmatchdata/bl1/2023") w))
                     eq_refl))
    as (matches & Hcall & Hnames & _).
  exists matches. split; [exact Hcall | exact Hnames].
Defined.

(* ================================================================== *)
(** * Further properties of the code *)

(** ** The retry loop *)

Module LoopFacts.

(** A backoff returns no value: what follows runs in the world it leaves. *)
Lemma backoff_then {A} p attempt (k : M A) w :
  (backoff p attempt ;;; k) w = k (snd (backoff p attempt w)).
Proof. unfold bind. rewrite BackoffFacts.backoff_eq. reflexivity. Qed.

(** One iteration of the loop, by what [session.request] hands back. *)
Lemma loop_unfold p url remaining attempt w :
  attempt_loop p url (S remaining) attempt w
  = match seen (upstream w url) (sent w) 0 with
    | Response status_code json =>
        if (status_code =? 200)%Z
        then (Returned json, snd (session_request url w))
        else if retryable status_code && (Z.of_nat attempt <? max_retries p)%Z
        then attempt_loop p url remaining (S attempt)
               (snd (backoff p attempt (snd (session_request url w))))
        else (Raised ("Upstream API failed with status " ++ str_of_Z status_code),
              snd (session_request url w))
    | RequestException e =>
        if (Z.of_nat attempt <? max_retries p)%Z
        then attempt_loop p url remaining (S attempt)
               (snd (backoff p attempt (snd (session_request url w))))
        else (Raised ("Upstream API request failed: " ++ e),
              snd (session_request url w))
    end.
Proof.
  cbn [attempt_loop]. unfold bind at 1.
  rewrite BackoffFacts.session_request_eq. cbn [snd].
  destruct (seen (upstream w url) (sent w) 0) as [code json | e].
  - destruct (code =? 200)%Z; [reflexivity |].
    destruct (retryable code && _); [apply backoff_then | reflexivity].
  - destruct (_ <? _)%Z; [apply backoff_then | reflexivity].
Qed.

(** An attempt followed by a backoff: what it changes. *)
Lemma retry_effect p url attempt w :
  let w' := snd (backoff p attempt (snd (session_request url w))) in
  attempts w' = S (attempts w)
  /\ sent w' = snd (send retry_total (upstream w url) (sent w))
  /\ upstream w' = upstream w /\ rng w' = rng w
  /\ drawn w' = S (drawn w)
  /\ sleeps w'
     = (sleeps w ++ [backoff_sleep p attempt (rng w (drawn w))])%list
  /\ rate_limiter w' = rate_limiter w.
Proof.
  rewrite BackoffFacts.session_request_eq, BackoffFacts.backoff_eq.
  cbn. repeat split; reflexivity.
Qed.

Lemma after_retries_effect p url n :
  forall attempt w,
    let w' := after_retries p url n attempt w in
    attempts w' = (attempts w + n)%nat
    /\ upstream w' = upstream w /\ rng w' = rng w
    /\ drawn w' = (drawn w + n)%nat
    /\ sleeps w'
       = (sleeps w
          ++ map (fun k => backoff_sleep p (attempt + k) (rng w (drawn w + k)))
               (seq 0 n))%list
    /\ (forall k, seen (upstream w' url) (sent w') k
                  = seen (upstream w url) (sent w) (n + k))
    /\ (sent w <= sent w')%nat
    /\ rate_limiter w' = rate_limiter w.
Proof.
  induction n as [| n IH]; intros attempt w; cbn [after_retries].
  - cbn. rewrite !Nat.add_0_r, app_nil_r. repeat split; auto.
  - destruct (retry_effect p url attempt w) as (Ha & Hs & Hu & Hr & Hd & Hsl & Hrl).
    destruct (IH (S attempt) (snd (backoff p attempt (snd (session_request url w)))))
      as (Ha' & Hu' & Hr' & Hd' & Hsl' & Hseen' & Hsent' & Hrl').
    cbv zeta.
    pose proof (RetryFacts.send_bound retry_total (upstream w url) (sent w)) as Hb.
    split; [rewrite Ha', Ha; lia |].
    split; [rewrite Hu', Hu; reflexivity |].
    split; [rewrite Hr', Hr; reflexivity |].
    split; [rewrite Hd', Hd; lia |].
    split; [| split; [| split]].
    + rewrite Hsl', Hsl, Hr, Hd. rewrite <- app_assoc. f_equal.
      cbn [seq map app]. f_equal.
      * rewrite !Nat.add_0_r. reflexivity.
      * rewrite <- seq_shift, map_map. apply map_ext. intros k.
        rewrite !Nat.add_succ_r. reflexivity.
    + intros k. rewrite Hseen', Hu, Hs. reflexivity.
    + rewrite Hs in Hsent'. lia.
    + rewrite Hrl', Hrl. reflexivity.
Qed.

(** While the loop goes on, it behaves like the loop started later. *)
Lemma loop_prefix p url n :
  forall remaining attempt w,
    (forall k, (k < n)%nat ->
       will_retry p (attempt + k) (seen (upstream w url) (sent w) k) = true) ->
    attempt_loop p url (n + remaining) attempt w
    = attempt_loop p url remaining (attempt + n)
        (after_retries p url n attempt w).
Proof.
  induction n as [| n IH]; intros remaining attempt w H.
  - cbn. rewrite Nat.add_0_r. reflexivity.
  - cbn [Nat.add after_retries]. rewrite loop_unfold.
    pose proof (H 0%nat ltac:(lia)) as H0. rewrite Nat.add_0_r in H0.
    destruct (retry_effect p url attempt w) as (_ & Hs & Hu & _).
    assert (Hnext : attempt_loop p url (n + remaining) (S attempt)
                      (snd (backoff p attempt (snd (session_request url w))))
                    = attempt_loop p url remaining (attempt + S n)
                        (after_retries p url n (S attempt)
                           (snd (backoff p attempt (snd (session_request url w)))))).
    { rewrite IH; [rewrite Nat.add_succ_r; reflexivity |].
      intros k Hk. rewrite Hu, Hs.
      specialize (H (S k) ltac:(lia)). rewrite Nat.add_succ_r in H. exact H. }
    destruct (seen (upstream w url) (sent w) 0) as [code json | e];
      cbn [will_retry] in H0.
    + apply andb_true_iff in H0 as [H0 Hlt].
      apply andb_true_iff in H0 as [Hne Hr].
      apply negb_true_iff in Hne. rewrite Hne, Hr, Hlt. exact Hnext.
    + rewrite H0. exact Hnext.
Qed.

End LoopFacts.

Module RequestFacts.

(** Once the limiter grants a slot, the request is the loop, run in the
    world the limiter leaves. *)
Lemma make_request_granted p url w :
  fst (acquire_slot w) = Returned tt ->
  _make_request p url w
  = attempt_loop p url (Z.to_nat (max_retries p + 1)) 0 (snd (acquire_slot w)).
Proof.
  intros H. unfold _make_request, bind.
  destruct (acquire_slot w) as [a w1]. simpl in H. subst a. reflexivity.
Qed.

(** The session returns a response only for the last request it sent. *)
Lemma send_last budget up :
  forall n code body n',
    send budget up n = (Response code body, n') ->
    (n < n')%nat /\ up (n' - 1)%nat = Answer code body.
Proof.
  induction budget as [| b IH]; intros n code body n' H; cbn [send] in H;
    destruct (up n) as [c v | reason] eqn:E.
  - replace (S n - 1)%nat with n in * by lia.
    destruct (retryable c); injection H as <- <- <-;
      (split; [lia |]); replace (S n - 1)%nat with n by lia; exact E.
  - discriminate.
  - destruct (retryable c).
    + apply IH in H as [Hlt Hup]. split; [lia | exact Hup].
    + injection H as <- <- <-.
      split; [lia |]. replace (S n - 1)%nat with n by lia. exact E.
  - apply IH in H as [Hlt Hup]. split; [lia | exact Hup].
Qed.

Lemma seen_0_last up n code body :
  seen up n 0 = Response code body ->
  (n < snd (send retry_total up n))%nat
  /\ up (snd (send retry_total up n) - 1)%nat = Answer code body.
Proof.
  cbn [seen]. intros H.
  destruct (send retry_total up n) as [r n'] eqn:E. simpl in H. subst r.
  apply send_last in E. exact E.
Qed.

(** A body is returned only from a 200 answer to the last request sent. *)
Lemma loop_returned_from_200 p url remaining :
  forall attempt w body,
    fst (attempt_loop p url remaining attempt w) = Returned body ->
    (sent w < sent (snd (attempt_loop p url remaining attempt w)))%nat
    /\ upstream w url (sent (snd (attempt_loop p url remaining attempt w)) - 1)
       = Answer 200 body.
Proof.
  induction remaining as [| rem IH]; intros attempt w body H.
  - discriminate.
  - rewrite LoopFacts.loop_unfold in *.
    destruct (LoopFacts.retry_effect p url attempt w) as (_ & Hs & Hu & _).
    pose proof (RetryFacts.send_bound retry_total (upstream w url) (sent w)) as Hb.
    assert (Hgo : fst (attempt_loop p url rem (S attempt)
                         (snd (backoff p attempt (snd (session_request url w)))))
                  = Returned body ->
                  (sent w < sent (snd (attempt_loop p url rem (S attempt)
                         (snd (backoff p attempt (snd (session_request url w)))))))%nat
                  /\ upstream w url
                       (sent (snd (attempt_loop p url rem (S attempt)
                         (snd (backoff p attempt (snd (session_request url w)))))) - 1)
                     = Answer 200 body).
    { intros H'. apply IH in H' as [Hlt Hup].
      rewrite Hu in Hup. rewrite Hs in Hlt. split; [lia | exact Hup]. }
    destruct (seen (upstream w url) (sent w) 0) as [code json | e] eqn:E.
    + destruct (Z.eqb_spec code 200) as [-> | Hne].
      * cbn [fst snd] in *. injection H as <-.
        rewrite BackoffFacts.session_request_eq. cbn [sent].
        apply seen_0_last. exact E.
      * destruct (retryable code && _); [auto | discriminate].
    + destruct (_ <? _)%Z; [auto | discriminate].
Qed.

(** With [max_retries >= 0] the loop never falls through to its last
    line. *)
Lemma loop_never_falls_through p url remaining :
  forall attempt w,
    (1 <= remaining)%nat ->
    Z.of_nat (attempt + remaining) = max_retries p + 1 ->
    fst (attempt_loop p url remaining attempt w) <> Raised "Max retries exceeded".
Proof.
  induction remaining as [| rem IH]; intros attempt w Hrem Hsum; [lia |].
  rewrite LoopFacts.loop_unfold.
  assert (Hgo : (Z.of_nat attempt <? max_retries p) = true ->
                fst (attempt_loop p url rem (S attempt)
                       (snd (backoff p attempt (snd (session_request url w)))))
                <> Raised "Max retries exceeded").
  { intros Hlt. apply Z.ltb_lt in Hlt. apply IH; lia. }
  destruct (seen (upstream w url) (sent w) 0) as [code json | e].
  - destruct (code =? 200)%Z; [discriminate |].
    destruct (retryable code); cbn [andb]; [| discriminate].
    destruct (_ <? _)%Z; [auto | discriminate].
  - destruct (_ <? _)%Z; [auto | discriminate].
Qed.

End RequestFacts.

(** X1.  When the limiter grants the slot and the upstream answers the
    first HTTP request with status 200, [_make_request] returns that body
    after exactly one request: no retry, no sleep, no random draw. *)
Theorem first_answer_200_returns :
  forall p url w body,
    fst (acquire_slot w) = Returned tt ->
    0 <= max_retries p ->
    upstream w url (sent w) = Answer 200 body ->
    let w' := snd (_make_request p url w) in
    fst (_make_request p url w) = Returned body
    /\ sent w' = S (sent w)
    /\ attempts w' = S (attempts w)
    /\ sleeps w' = sleeps w
    /\ drawn w' = drawn w.
Proof.
  intros p url w body Hslot Hmax Hup.
  rewrite (RequestFacts.make_request_granted p url w Hslot).
  destruct (RetryFacts.acquire_slot_effect w) as (Ha & Hs & Hsl & Hu & Hr & Hd).
  replace (Z.to_nat (max_retries p + 1)) with (S (Z.to_nat (max_retries p)))
    by lia.
  rewrite LoopFacts.loop_unfold, BackoffFacts.session_request_eq.
  cbn [seen send retry_total]. rewrite Hu, Hs, Hup. cbn.
  repeat split; congruence.
Qed.

Lemma first_answer_200_returns_witness :
  let p := mkRetryPolicy 3 1 30 2 (1 # 10) in
  let w := answering (PList []) in
  let w' := snd (_make_request p "https://api.openligadb.de/getavailableleagues" w) in
  fst (_make_request p "https://api.openligadb.de/getavailableleagues" w)
  = Returned (PList [])
  /\ sent w' = S (sent w)
  /\ attempts w' = S (attempts w)
  /\ sleeps w' = sleeps w
  /\ drawn w' = drawn w.
Proof.
  intros p w.
  apply (@first_answer_200_returns p
           "https://api.openligadb.de/getavailableleagues" w (PList []));
    [reflexivity | discriminate | reflexivity].
Defined.

(** X2.  The loop does not retry a response whose status is neither 200
    nor in the retry list (404, 400, ...): when the first call of
    [session.request] hands back such a response, [_make_request] raises
    "Upstream API failed with status <code>" after that one call, without
    sleeping and without drawing a random value. *)
Theorem non_retryable_status_fails_at_once :
  forall p url w code body,
    fst (acquire_slot w) = Returned tt ->
    0 <= max_retries p ->
    seen (upstream w url) (sent w) 0 = Response code body ->
    code <> 200 ->
    retryable code = false ->
    let w' := snd (_make_request p url w) in
    fst (_make_request p url w)
    = Raised ("Upstream API failed with status " ++ str_of_Z code)
    /\ attempts w' = S (attempts w)
    /\ sleeps w' = sleeps w
    /\ drawn w' = drawn w.
Proof.
  intros p url w code body Hslot Hmax Hup Hne Hr.
  rewrite (RequestFacts.make_request_granted p url w Hslot).
  destruct (RetryFacts.acquire_slot_effect w) as (Ha & Hs & Hsl & Hu & _ & Hd).
  replace (Z.to_nat (max_retries p + 1)) with (S (Z.to_nat (max_retries p)))
    by lia.
  rewrite LoopFacts.loop_unfold, BackoffFacts.session_request_eq.
  rewrite Hu, Hs, Hup.
  apply Z.eqb_neq in Hne. rewrite Hne, Hr. cbn.
  repeat split; congruence.
Qed.

Lemma non_retryable_status_fails_at_once_witness :
  let p := mkRetryPolicy 3 1 30 2 (1 # 10) in
  let url := "https://api.openligadb.de/getteam/40" in
  let w := fresh_world (always (Answer 404 PNone)) (fun _ => 0%Q) in
  let w' := snd (_make_request p url w) in
  fst (_make_request p url w) = Raised "Upstream API failed with status 404"
  /\ attempts w' = S (attempts w)
  /\ sleeps w' = sleeps w
  /\ drawn w' = drawn w.
Proof.
  intros p url w.
  apply (@non_retryable_status_fails_at_once p url w 404 PNone);
    [reflexivity | discriminate | reflexivity | discriminate | reflexivity].
Defined.

(** X3.  When every one of the [max_retries + 1] attempts fails in a
    retryable way (a status of the retry list, or a transport failure) and
    no backoff overflows ([backoff_multiplier ** attempt] stays within the
    range of a float for each of the [max_retries] retries), the call makes
    exactly [max_retries + 1] attempts, sleeps [max_retries] times, and
    raises the error of the last attempt at once: "Upstream API failed with
    status <code>" or "Upstream API request failed: <cause>". *)
Theorem retries_exhausted :
  forall p url w n,
    fst (acquire_slot w) = Returned tt ->
    max_retries p = Z.of_nat n ->
    (forall k, (k < n)%nat -> power_in_range p k) ->
    (forall k, (k <= n)%nat ->
       match seen (upstream w url) (sent w) k with
       | Response code _ => retryable code = true
       | RequestException _ => True
       end) ->
    let w' := snd (_make_request p url w) in
    fst (_make_request p url w)
    = match seen (upstream w url) (sent w) n with
      | Response code _ =>
          Raised ("Upstream API failed with status " ++ str_of_Z code)
      | RequestException e => Raised ("Upstream API request failed: " ++ e)
      end
    /\ attempts w' = (attempts w + n + 1)%nat
    /\ length (sleeps w') = (length (sleeps w) + n)%nat.
Proof.
  intros p url w n Hslot Hmax _ Hfail.
  rewrite (RequestFacts.make_request_granted p url w Hslot).
  destruct (RetryFacts.acquire_slot_effect w) as (Ha & Hs & Hsl & Hu & _).
  set (w1 := snd (acquire_slot w)) in *.
  rewrite <- Hu, <- Hs in Hfail |- *.
  replace (Z.to_nat (max_retries p + 1)) with (n + 1)%nat by lia.
  rewrite LoopFacts.loop_prefix.
  - destruct (LoopFacts.after_retries_effect p url n 0 w1)
      as (Ha' & Hu' & _ & _ & Hsl' & Hseen & _).
    set (w2 := after_retries p url n 0 w1) in *.
    rewrite LoopFacts.loop_unfold, BackoffFacts.session_request_eq.
    rewrite (Hseen 0%nat), Nat.add_0_r. cbn [Nat.add].
    specialize (Hfail n (Nat.le_refl n)).
    replace (Z.of_nat n <? max_retries p) with false
      by (symmetry; apply Z.ltb_ge; lia).
    destruct (seen (upstream w1 url) (sent w1) n) as [code json | e].
    + rewrite (BackoffFacts.retryable_not_200 _ Hfail), andb_false_r.
      cbn [fst snd attempts sleeps].
      rewrite Ha', Hsl', length_app, length_map, length_seq, Ha, Hsl.
      split; [reflexivity |]. split; lia.
    + cbn [fst snd attempts sleeps].
      rewrite Ha', Hsl', length_app, length_map, length_seq, Ha, Hsl.
      split; [reflexivity |]. split; lia.
  - intros k Hk. cbn [Nat.add].
    specialize (Hfail k ltac:(lia)).
    destruct (seen (upstream w1 url) (sent w1) k) as [code json | e];
      cbn [will_retry].
    + rewrite (BackoffFacts.retryable_not_200 _ Hfail), Hfail. cbn [negb andb].
      apply Z.ltb_lt. lia.
    + apply Z.ltb_lt. lia.
Qed.

Lemma retries_exhausted_witness :
  let p := mkRetryPolicy 1 1 30 2 0 in
  let url := "https://api.openligadb.de/getavailableleagues" in
  let w := fresh_world (always (Answer 503 PNone)) (fun _ => 0%Q) in
  let w' := snd (_make_request p url w) in
  fst (_make_request p url w) = Raised "Upstream API failed with status 503"
  /\ attempts w' = 2%nat
  /\ length (sleeps w') = 1%nat.
Proof.
  intros p url w.
  apply (@retries_exhausted p url w 1%nat); [reflexivity | reflexivity | |].
  - intros [| k] Hk; [vm_compute; discriminate | lia].
  - intros [| [| k]] Hk; [reflexivity | reflexivity | lia].
Defined.

(** X4.  The last line of [_make_request], [raise Exception("Max retries
    exceeded")], is reached only with a negative [max_retries]: then the
    loop body never runs and no request is sent; with [max_retries >= 0]
    every way out of the call is a return or another exception. *)
Theorem max_retries_exceeded_only_if_negative :
  forall p url w,
    (fst (_make_request p url w) = Raised "Max retries exceeded" ->
     max_retries p < 0)
    /\ (fst (acquire_slot w) = Returned tt ->
        max_retries p < 0 ->
        fst (_make_request p url w) = Raised "Max retries exceeded"
        /\ sent (snd (_make_request p url w)) = sent w).
Proof.
  intros p url w. split.
  - intros H. destruct (Z.lt_ge_cases (max_retries p) 0) as [| Hge]; [assumption |].
    exfalso. revert H. unfold _make_request, bind, acquire_slot.
    destruct (RateLimiter.acquire _ _ _); cbn; try discriminate.
    apply RequestFacts.loop_never_falls_through; lia.
  - intros Hslot Hneg.
    rewrite (RequestFacts.make_request_granted p url w Hslot).
    destruct (RetryFacts.acquire_slot_effect w) as (_ & Hs & _).
    replace (Z.to_nat (max_retries p + 1)) with 0%nat by lia.
    cbn. auto.
Qed.

Lemma max_retries_exceeded_only_if_negative_witness :
  let p := mkRetryPolicy (-1) 1 30 2 0 in
  let url := "https://api.openligadb.de/getavailableleagues" in
  let w := answering (PList []) in
  fst (_make_request p url w) = Raised "Max retries exceeded"
  /\ sent (snd (_make_request p url w)) = sent w.
Proof.
  intros p url w.
  apply (proj2 (max_retries_exceeded_only_if_negative p url w));
    reflexivity.
Defined.

(** X5.  [_make_request] returns a body only if the upstream answered 200
    with that very body to the last HTTP request the call sent. *)
Theorem returned_body_is_a_200_answer :
  forall p url w body,
    fst (_make_request p url w) = Returned body ->
    let w' := snd (_make_request p url w) in
    (sent w < sent w')%nat
    /\ upstream w url (sent w' - 1) = Answer 200 body.
Proof.
  intros p url w body H.
  assert (Hslot : fst (acquire_slot w) = Returned tt).
  { revert H. unfold _make_request, bind.
    destruct (acquire_slot w) as [[[] | msg |] w1]; cbn; auto; discriminate. }
  rewrite (RequestFacts.make_request_granted p url w Hslot) in *.
  destruct (RetryFacts.acquire_slot_effect w) as (_ & Hs & _ & Hu & _).
  apply RequestFacts.loop_returned_from_200 in H.
  cbv zeta. rewrite <- Hu, <- Hs. exact H.
Qed.

Lemma returned_body_is_a_200_answer_witness :
  let p := mkRetryPolicy 3 1 30 2 0 in
  let url := "https://api.openligadb.de/getavailableleagues" in
  let w := fresh_world (first_then 3 503 (Answer 200 (PStr "ok"))) (fun _ => 0%Q) in
  let w' := snd (_make_request p url w) in
  (sent w < sent w')%nat
  /\ upstream w url (sent w' - 1) = Answer 200 (PStr "ok").
Proof.
  intros p url w.
  apply (@returned_body_is_a_200_answer p url w (PStr "ok")).
  reflexivity.
Defined.

(** X6.  When the limiter does not grant a slot (its [acquire] never
    completes, or raises), [_make_request] sends nothing: no HTTP request,
    no attempt, no sleep; it hangs or raises "list index out of range". *)
Theorem no_slot_no_request :
  forall p url w,
    fst (acquire_slot w) <> Returned tt ->
    let w' := snd (_make_request p url w) in
    sent w' = sent w /\ attempts w' = attempts w /\ sleeps w' = sleeps w
    /\ (fst (_make_request p url w) = Hangs
        \/ fst (_make_request p url w) = Raised "list index out of range").
Proof.
  intros p url w H. revert H.
  unfold _make_request, bind, acquire_slot.
  destruct (RateLimiter.acquire _ _ _); cbn; intros H;
    try (exfalso; apply H; reflexivity); auto 6.
Qed.

Lemma no_slot_no_request_witness :
  let p := mkRetryPolicy 3 1 30 2 0 in
  let url := "https://api.openligadb.de/getavailableleagues" in
  let w := mkWorld (RateLimiter.init 0 60) 0 (always (Answer 200 (PList [])))
             0 (fun _ => 0%Q) 0 0 [] in
  let w' := snd (_make_request p url w) in
  sent w' = sent w /\ attempts w' = attempts w /\ sleeps w' = sleeps w
  /\ (fst (_make_request p url w) = Hangs
      \/ fst (_make_request p url w) = Raised "list index out of range").
Proof.
  intros p url w.
  apply (no_slot_no_request p url w). discriminate.
Defined.

Module SleepFacts.

(** One backoff sleeps between 0 and [(1 + jitter_range) * max_delay]. *)
Lemma backoff_sleep_bounds p attempt r :
  (0 <= r <= 1)%Q -> (0 <= jitter_range p)%Q -> (0 <= base_delay p)%Q ->
  (0 <= backoff_multiplier p)%Q -> (0 <= max_delay p)%Q ->
  (0 <= backoff_sleep p attempt r <= longest_sleep p)%Q.
Proof.
  intros Hr Hj Hb Hm Hx.
  pose proof (BackoffFacts.delay_nonneg p attempt Hb Hm Hx) as Hd.
  pose proof (BackoffFacts.jitter_bound p attempt Hr Hj Hd) as Hjit.
  apply Qabs_Qle_condition in Hjit as [_ Hjit].
  assert (Hle : (delay p attempt <= max_delay p)%Q)
    by (unfold delay; apply Q.le_min_r).
  unfold backoff_sleep, longest_sleep. split.
  - apply Q.le_max_l.
  - apply Q.max_lub; nra.
Qed.

(** The sleeps of the loop: at most one per attempt index below
    [max_retries], each within the bounds, one random draw for each. *)
Lemma loop_sleeps p url remaining :
  (0 <= jitter_range p)%Q -> (0 <= base_delay p)%Q ->
  (0 <= backoff_multiplier p)%Q -> (0 <= max_delay p)%Q ->
  forall attempt w,
    (forall i, (0 <= rng w i <= 1)%Q) ->
    exists new,
      sleeps (snd (attempt_loop p url remaining attempt w))
      = (sleeps w ++ new)%list
      /\ Z.of_nat (length new) <= Z.max 0 (max_retries p - Z.of_nat attempt)
      /\ Forall (fun d => (0 <= d <= longest_sleep p)%Q) new
      /\ drawn (snd (attempt_loop p url remaining attempt w))
         = (drawn w + length new)%nat.
Proof.
  intros Hj Hb Hm Hx.
  induction remaining as [| rem IH]; intros attempt w Hrng.
  - exists []. cbn. rewrite app_nil_r. repeat split; auto; lia.
  - rewrite LoopFacts.loop_unfold.
    assert (Hstop : forall o : outcome pyval,
              exists new,
                sleeps (snd (o, snd (session_request url w)))
                = (sleeps w ++ new)%list
                /\ Z.of_nat (length new)
                   <= Z.max 0 (max_retries p - Z.of_nat attempt)
                /\ Forall (fun d => (0 <= d <= longest_sleep p)%Q) new
                /\ drawn (snd (o, snd (session_request url w)))
                   = (drawn w + length new)%nat).
    { intros o. exists []. rewrite BackoffFacts.session_request_eq. cbn.
      rewrite app_nil_r. repeat split; auto; lia. }
    assert (Hgo : (Z.of_nat attempt <? max_retries p) = true ->
              exists new,
                sleeps (snd (attempt_loop p url rem (S attempt)
                               (snd (backoff p attempt (snd (session_request url w))))))
                = (sleeps w ++ new)%list
                /\ Z.of_nat (length new)
                   <= Z.max 0 (max_retries p - Z.of_nat attempt)
                /\ Forall (fun d => (0 <= d <= longest_sleep p)%Q) new
                /\ drawn (snd (attempt_loop p url rem (S attempt)
                               (snd (backoff p attempt (snd (session_request url w))))))
                   = (drawn w + length new)%nat).
    { intros Hlt. apply Z.ltb_lt in Hlt.
      destruct (LoopFacts.retry_effect p url attempt w)
        as (_ & _ & _ & Hr & Hd & Hsl & _).
      destruct (IH (S attempt)
                  (snd (backoff p attempt (snd (session_request url w)))))
        as (new & Hs' & Hlen & Hall & Hd').
      { intros i. rewrite Hr. apply Hrng. }
      exists (backoff_sleep p attempt (rng w (drawn w)) :: new).
      rewrite Hs', Hsl, Hd', Hd, <- app_assoc. cbn [app length].
      repeat split; try lia.
      constructor; [| exact Hall].
      apply backoff_sleep_bounds; auto. }
    destruct (seen (upstream w url) (sent w) 0) as [code json | e].
    + destruct (code =? 200)%Z; [apply Hstop |].
      destruct (retryable code); cbn [andb]; [| apply Hstop].
      destruct (Z.of_nat attempt <? max_retries p)%Z eqn:E;
        [apply Hgo; reflexivity | apply Hstop].
    + destruct (Z.of_nat attempt <? max_retries p)%Z eqn:E;
        [apply Hgo; reflexivity | apply Hstop].
Qed.

Lemma skipn_exact {A} (l new : list A) : skipn (length l) (l ++ new) = new.
Proof. induction l; simpl; auto. Qed.

End SleepFacts.

(** X7.  With a non-negative configuration and a random source in [0, 1],
    one call of [_make_request] sleeps at most [max_retries] times, each
    sleep lasts between 0 and [(1 + jitter_range) * max_delay] seconds, and
    the jitter is drawn afresh for every sleep (one random value each). *)
Theorem sleeps_are_bounded :
  forall p url w,
    (forall i, (0 <= rng w i <= 1)%Q) ->
    (0 <= jitter_range p)%Q -> (0 <= base_delay p)%Q ->
    (0 <= backoff_multiplier p)%Q -> (0 <= max_delay p)%Q ->
    let w' := snd (_make_request p url w) in
    sleeps w' = (sleeps w ++ new_sleeps w w')%list
    /\ Z.of_nat (length (new_sleeps w w')) <= Z.max 0 (max_retries p)
    /\ Forall (fun d => (0 <= d <= longest_sleep p)%Q) (new_sleeps w w')
    /\ drawn w' = (drawn w + length (new_sleeps w w'))%nat.
Proof.
  intros p url w Hrng Hj Hb Hm Hx.
  assert (H : exists new,
             sleeps (snd (_make_request p url w)) = (sleeps w ++ new)%list
             /\ Z.of_nat (length new) <= Z.max 0 (max_retries p)
             /\ Forall (fun d => (0 <= d <= longest_sleep p)%Q) new
             /\ drawn (snd (_make_request p url w)) = (drawn w + length new)%nat).
  { unfold _make_request, bind.
    destruct (RetryFacts.acquire_slot_effect w) as (_ & _ & Hsl & _ & Hr & Hd).
    destruct (acquire_slot w) as [a w1]. cbn [snd] in Hsl, Hr, Hd.
    destruct a as [[] | msg |].
    - destruct (@SleepFacts.loop_sleeps p url (Z.to_nat (max_retries p + 1))
                  Hj Hb Hm Hx 0%nat w1) as (new & Hs' & Hlen & Hall & Hd').
      { intros i. rewrite Hr. apply Hrng. }
      exists new. rewrite Hs', Hd', Hsl, Hd. repeat split; auto. lia.
    - exists []. cbn. rewrite app_nil_r, Hsl, Hd. repeat split; auto; lia.
    - exists []. cbn. rewrite app_nil_r, Hsl, Hd. repeat split; auto; lia. }
  destruct H as (new & Hs & Hlen & Hall & Hd).
  cbv zeta. unfold new_sleeps. rewrite Hs, SleepFacts.skipn_exact.
  auto.
Qed.

Lemma sleeps_are_bounded_witness :
  let p := mkRetryPolicy 3 1 30 2 (1 # 10) in
  let url := "https://api.openligadb.de/getavailableleagues" in
  let w := fresh_world (always (Answer 503 PNone)) (fun _ => 1 # 2) in
  let w' := snd (_make_request p url w) in
  sleeps w' = (sleeps w ++ new_sleeps w w')%list
  /\ Z.of_nat (length (new_sleeps w w')) <= Z.max 0 (max_retries p)
  /\ Forall (fun d => (0 <= d <= longest_sleep p)%Q) (new_sleeps w w')
  /\ drawn w' = (drawn w + length (new_sleeps w w'))%nat.
Proof.
  intros p url w.
  apply (sleeps_are_bounded p url w).
  - intros i. split; discriminate.
  - discriminate.
  - discriminate.
  - discriminate.
  - discriminate.
Defined.

(** ** The rate limiter *)

(** X8.  The rate ceiling holds in every run of concurrent callers in which
    the clock [time.time()] never steps back: the limiter never holds more
    than [max_requests] timestamps, and no trailing window of length
    [time_window] contains more than [max_requests] granted slots. *)
Theorem rate_ceiling_in_every_run :
  forall n w t0 s,
    0 <= n ->
    Callers.steps_forward (Callers.start n w t0) s ->
    Z.of_nat (length (RateLimiter.requests (Callers.limiter s))) <= n
    /\ forall T,
        Z.of_nat (Callers.count (Callers.in_window w T) (Callers.done_times s))
        <= n.
Proof.
  intros n w t0 s Hn Hs.
  assert (Hpar : forall a b, Callers.steps a b ->
             RateLimiter.max_requests (Callers.limiter b)
             = RateLimiter.max_requests (Callers.limiter a)
             /\ RateLimiter.time_window (Callers.limiter b)
                = RateLimiter.time_window (Callers.limiter a)).
  { induction 1 as [a | a b c Hab Hbc IH]; [auto |].
    destruct IH as [-> ->]. destruct Hab; cbn; auto. }
  destruct (Hpar _ _ (CallersInvariant.forward_steps Hs)) as [Hmax Hwin].
  cbn in Hmax, Hwin.
  destruct (WindowFacts.rate_ceiling n w t0 s Hn Hs) as [Hlen Hceil].
  rewrite Hmax in Hlen. split; [exact Hlen |].
  intros T. specialize (Hceil T). rewrite Hmax, Hwin in Hceil. exact Hceil.
Qed.

Lemma rate_ceiling_in_every_run_witness :
  Z.of_nat (length (RateLimiter.requests (Callers.limiter Callers.one_waiting)))
    <= 1
  /\ forall T,
      Z.of_nat (Callers.count (Callers.in_window 60 T)
                  (Callers.done_times Callers.one_waiting))
      <= 1.
Proof.
  apply (@rate_ceiling_in_every_run 1 60 0 Callers.one_waiting).
  - discriminate.
  - exact CallersInvariant.one_waiting_forward.
Defined.

(** The hypothesis on the clock is needed: [acquire] reads the wall clock,
    and when that steps back the ceiling can be exceeded.  With
    [max_requests = 2] and a window of one second, the readings 0, 0, 5 and
    1/2 give four grants, three of them inside the window that ends at
    1/2. *)
Example clock_stepping_back_breaks_ceiling :
  exists s,
    Callers.steps (Callers.start 2 1 0) s
    /\ map Qred (Callers.done_times s) = [0%Q; 0%Q; 5%Q; 1 # 2]
    /\ Callers.count (Callers.in_window 1 (1 # 2)) (Callers.done_times s)
       = 3%nat.
Proof.
  eexists. split; [| split].
  - eapply Callers.steps_cons; [apply Callers.step_call |].
    eapply Callers.steps_cons; [apply Callers.step_call |].
    eapply Callers.steps_cons; [apply Callers.step_call |].
    eapply Callers.steps_cons; [apply Callers.step_call |].
    eapply Callers.steps_cons;
      [apply (@Callers.step_grant _ 0%nat); reflexivity |].
    eapply Callers.steps_cons;
      [apply (@Callers.step_grant _ 1%nat); reflexivity |].
    eapply Callers.steps_cons; [apply (@Callers.step_tick _ 5) |].
    eapply Callers.steps_cons;
      [apply (@Callers.step_grant _ 2%nat); reflexivity |].
    eapply Callers.steps_cons; [apply (@Callers.step_tick _ (- (9 # 2))) |].
    eapply Callers.steps_cons;
      [apply (@Callers.step_grant _ 3%nat); reflexivity |].
    apply Callers.steps_refl.
  - reflexivity.
  - reflexivity.
Qed.

Module ExclusionFacts.
Import Callers.

Lemma holders_update l i p q :
  nth_error l i = Some p ->
  (length (filter holds_lock (update i q l)) + (if holds_lock p then 1 else 0)
   = length (filter holds_lock l) + (if holds_lock q then 1 else 0))%nat.
Proof.
  revert i; induction l as [| a l IH]; intros [| i] Hn; simpl in *;
    try discriminate.
  - injection Hn as ->.
    destruct (holds_lock p), (holds_lock q); simpl; lia.
  - specialize (IH i Hn). destruct (holds_lock a); simpl; lia.
Qed.

(** The lock is held by exactly one caller, or by none. *)
Lemma step_holders s s' :
  holders s = (if RateLimiter.locked (limiter s) then 1 else 0)%nat ->
  step s s' ->
  holders s' = (if RateLimiter.locked (limiter s') then 1 else 0)%nat.
Proof.
  unfold holders. intros H Hs.
  destruct Hs as [s d | s | s i Hn Hl Hfull | s i oldest rest Hn Hl Hfull Hp
                 | s i Hn Hl Hfull Hp | s i wake Hn]; cbn in *.
  - exact H.
  - rewrite filter_app, length_app. cbn. lia.
  - pose proof (holders_update (callers s) i (Done (now s)) Hn) as Hu.
    rewrite Hl in *. cbn in Hu. lia.
  - pose proof (holders_update (callers s) i
                  (Sleeping (now s + RateLimiter.sleep_time (limiter s) (now s) oldest))
                  Hn) as Hu.
    rewrite Hl in *. cbn in Hu. lia.
  - pose proof (holders_update (callers s) i Failed Hn) as Hu.
    rewrite Hl in *. cbn in Hu. lia.
  - pose proof (holders_update (callers s) i Reentering Hn) as Hu.
    cbn in Hu. lia.
Qed.

Lemma steps_holders s s' :
  steps s s' ->
  holders s = (if RateLimiter.locked (limiter s) then 1 else 0)%nat ->
  holders s' = (if RateLimiter.locked (limiter s') then 1 else 0)%nat.
Proof. induction 1; eauto using step_holders. Qed.

End ExclusionFacts.

(** X9.  Mutual exclusion: in every run, at most one caller is inside the
    block guarded by [self.lock] (sleeping there or re-entering), and the
    lock is held exactly when there is one. *)
Theorem one_caller_in_the_locked_block :
  forall n w t0 s,
    Callers.steps (Callers.start n w t0) s ->
    (Callers.holders s <= 1)%nat
    /\ (RateLimiter.locked (Callers.limiter s) = true
        <-> Callers.holders s = 1%nat).
Proof.
  intros n w t0 s Hs.
  pose proof (ExclusionFacts.steps_holders Hs eq_refl) as H.
  destruct (RateLimiter.locked (Callers.limiter s)); rewrite H.
  - split; [lia | tauto].
  - split; [lia |]. split; discriminate.
Qed.

Lemma one_caller_in_the_locked_block_witness :
  (Callers.holders Callers.one_waiting <= 1)%nat
  /\ (RateLimiter.locked (Callers.limiter Callers.one_waiting) = true
      <-> Callers.holders Callers.one_waiting = 1%nat).
Proof.
  apply (@one_caller_in_the_locked_block 1 60 0 Callers.one_waiting).
  exact CallersInvariant.one_waiting_reachable.
Defined.

(** X10.  While the limiter has room, it never makes a caller wait: if the
    recorded timestamps plus the calls to come do not exceed
    [max_requests], each of the calls (made one after the other, at any
    clock readings) is granted at once, at its own time. *)
Theorem calls_within_the_limit_are_granted :
  forall times rl,
    RateLimiter.locked rl = false ->
    Z.of_nat (length (RateLimiter.requests rl) + length times)
      <= RateLimiter.max_requests rl ->
    Forall2 (fun now r => exists rl', r = RateLimiter.Granted rl' now)
      times (RateLimiter.acquire_each rl times).
Proof.
  induction times as [| now times IH]; intros rl Hl Hroom;
    cbn [RateLimiter.acquire_each]; [constructor |].
  pose proof (RateLimiterFacts.filter_length_le
                (RateLimiter.fresh (RateLimiter.time_window rl) now)
                (RateLimiter.requests rl)) as Hf.
  fold (RateLimiter.prune rl now) in Hf. cbn [length] in Hroom.
  destruct (RateLimiterFacts.acquire_cases rl now Hl)
    as [[_ E] | [[Hfull _] | [Hfull _]]]; try lia.
  rewrite E. constructor; [eauto |].
  apply IH; cbn; [reflexivity |].
  rewrite length_app. cbn. lia.
Qed.

Lemma calls_within_the_limit_are_granted_witness :
  Forall2 (fun now r => exists rl', r = RateLimiter.Granted rl' now)
    [0%Q; 5%Q; 3%Q]
    (RateLimiter.acquire_each (RateLimiter.init 3 60) [0%Q; 5%Q; 3%Q]).
Proof.
  apply (@calls_within_the_limit_are_granted [0%Q; 5%Q; 3%Q]
           (RateLimiter.init 3 60)).
  - reflexivity.
  - discriminate.
Defined.

(** X11.  The wait that [acquire] computes when the window is full is longer
    than the 0.1s margin, and long enough: at the wake-up time the oldest
    recorded request is no longer inside the window. *)
Theorem wait_outlasts_the_oldest_request :
  forall rl now oldest rest,
    RateLimiter.prune rl now = oldest :: rest ->
    (RateLimiter.margin < RateLimiter.sleep_time rl now oldest)%Q
    /\ RateLimiter.fresh (RateLimiter.time_window rl)
         (now + RateLimiter.sleep_time rl now oldest)%Q oldest = false.
Proof.
  intros rl now oldest rest Hp.
  assert (Hin : In oldest (RateLimiter.prune rl now))
    by (rewrite Hp; left; reflexivity).
  apply filter_In in Hin as [_ Hfresh].
  apply RateLimiterFacts.fresh_spec in Hfresh.
  unfold RateLimiter.sleep_time, RateLimiter.margin in *. split; [lra |].
  destruct (RateLimiter.fresh _ _ oldest) eqn:E; [| reflexivity].
  apply RateLimiterFacts.fresh_spec in E. lra.
Qed.

Lemma wait_outlasts_the_oldest_request_witness :
  let rl := RateLimiter.mk 2 1 [0%Q; (1 # 2)%Q] false in
  (RateLimiter.margin < RateLimiter.sleep_time rl (3 # 4) 0)%Q
  /\ RateLimiter.fresh (RateLimiter.time_window rl)
       ((3 # 4) + RateLimiter.sleep_time rl (3 # 4) 0)%Q 0 = false.
Proof.
  intros rl.
  apply (@wait_outlasts_the_oldest_request rl (3 # 4) 0 [(1 # 2)%Q]).
  reflexivity.
Defined.

(** ** The provider's mappings *)

Module LeagueFacts.

(** The loops keep the object elements, in order. *)
Lemma map_leagues_filter data :
  map_leagues data
  = map (fun v => league_record (dict_or_empty v)) (filter is_dict data).
Proof.
  induction data as [| v data IH]; [reflexivity |].
  destruct v; cbn; rewrite <- ?IH; reflexivity.
Qed.

Lemma map_matches_filter league_shortcut data :
  map_matches league_shortcut data
  = map (fun v => match_record (PStr league_shortcut) (dict_or_empty v))
      (filter is_dict data).
Proof.
  induction data as [| v data IH]; [reflexivity |].
  destruct v; cbn; rewrite <- ?IH; reflexivity.
Qed.

(** A well-formed league object passes the response model and is dumped
    under the canonical names. *)
Lemma league_record_normalizes lax league :
  well_formed_league (PDict league) = true ->
  exists l, validate_model (LeagueSummary_fields lax) (league_record league)
            = Valid l
            /\ dump_LeagueSummary l = normalized_league league.
Proof.
  unfold well_formed_league, normalized_league, league_record.
  intros H. repeat (apply andb_true_iff in H as [H ?]).
  destruct (get league "leagueId" (PInt 0)); try discriminate.
  destruct (get league "leagueName" (PStr "")); try discriminate.
  destruct (get league "leagueShortcut" (PStr "")); try discriminate.
  destruct (get league "country" (PStr "")); try discriminate.
  destruct (get league "leagueSeason" (PStr "")); try discriminate.
  eexists. split; reflexivity.
Qed.

Lemma leagues_normalize lax data :
  forallb well_formed_league data = true ->
  forall i,
  exists ls,
    validate_items (validate_model (LeagueSummary_fields lax)) i (map_leagues data)
    = Valid ls
    /\ map dump_LeagueSummary ls
       = map (fun v => normalized_league (dict_or_empty v)) (filter is_dict data).
Proof.
  induction data as [| v data IH]; intros H i.
  - exists []. split; reflexivity.
  - cbn [forallb] in H. apply andb_true_iff in H as [Hv H].
    assert (Hskip : is_dict v = false ->
              map_leagues (v :: data) = map_leagues data
              /\ filter is_dict (v :: data) = filter is_dict data)
      by (destruct v; intros; try discriminate; split; reflexivity).
    destruct v as [| | | | | | league |];
      try (destruct (Hskip eq_refl) as [-> ->]; apply IH; exact H).
    destruct (league_record_normalizes lax league Hv) as (l & Hl & Hd).
    destruct (IH H (S i)) as (ls & Hls & Hds).
    exists (l :: ls). cbn [map_leagues validate_items filter is_dict map dict_or_empty].
    rewrite Hl, Hls. cbn. rewrite Hd, Hds. split; reflexivity.
Qed.

End LeagueFacts.

(** X12.  Once the request has returned, [list_leagues] never fails: it
    returns one league record for each object element of the upstream
    array, in the same order, skipping every element that is not an object;
    a body that is not an array gives the empty list. *)
Theorem list_leagues_keeps_the_objects :
  forall p w data w',
    _make_request p (base_url ++ "/getavailableleagues") w
    = (Returned data, w') ->
    @list_leagues (OpenLigaProvider p) w
    = (Returned
         [ ("leagues",
            PList (map (fun v => league_record (dict_or_empty v))
                     (filter is_dict (items data)))) ],
       w')
    /\ (is_list data = false ->
        @list_leagues (OpenLigaProvider p) w
        = (Returned [("leagues", PList [])], w')).
Proof.
  intros p w data w' Hreq.
  assert (Hcall : @list_leagues (OpenLigaProvider p) w
                  = (Returned (leagues_of data), w'))
    by exact (@MappingFacts.after_request_returned _ p _
                (fun data => Returned (leagues_of data)) w data w' Hreq).
  rewrite Hcall. unfold leagues_of. split.
  - rewrite LeagueFacts.map_leagues_filter.
    destruct data; reflexivity.
  - intros ->. reflexivity.
Qed.

Lemma list_leagues_keeps_the_objects_witness :
  let p := mkRetryPolicy 3 1 30 2 0 in
  let w := answering (PList [PInt 3; PDict [("leagueId", PInt 1)]; PNone]) in
  fst (@list_leagues (OpenLigaProvider p) w)
  = Returned
      [ ("leagues",
         PList [ PDict [ ("id", PInt 1); ("name", PStr ""); ("shortcut", PStr "");
                         ("country", PStr ""); ("current_season", PStr "") ] ]) ].
Proof.
  intros p w.
  exact (f_equal fst
           (proj1 (@list_leagues_keeps_the_objects p w
                     (PList [PInt 3; PDict [("leagueId", PInt 1)]; PNone])
                     (snd (_make_request p (base_url ++ "/getavailableleagues") w))
                     eq_refl))).
Defined.

(** X13.  ListLeagues end to end: when the upstream array holds well-formed
    league objects (integer id and string fields, each possibly missing),
    the dispatcher returns, for any payload, the normalized leagues in
    order, with the upstream names replaced by the canonical ones
    ([leagueSeason] ends up under [season]) and defaults for missing
    fields. *)
Theorem list_leagues_normalized :
  forall (lax : Lax) p payload w data w',
    _make_request p (base_url ++ "/getavailableleagues") w
    = (Returned (PList data), w') ->
    forallb well_formed_league data = true ->
    @execute_operation lax (OpenLigaProvider p) "ListLeagues" payload w
    = (Returned
         [ ("leagues",
            PList (map (fun v => normalized_league (dict_or_empty v))
                     (filter is_dict data))) ],
       w').
Proof.
  intros lax p payload w data w' Hreq Hwf.
  destruct (LeagueFacts.leagues_normalize lax data Hwf 0) as (ls & Hls & Hd).
  rewrite <- Hd.
  eapply (@OperationFacts.execute_normalized lax (OpenLigaProvider p)
            "ListLeagues" _ payload ListLeaguesPayload w
            [("leagues", PList (map_leagues data))] w'
            (ListLeaguesResponse ls)).
  - reflexivity.
  - reflexivity.
  - exact (@MappingFacts.after_request_returned _ p _
             (fun data => Returned (leagues_of data)) w (PList data) w' Hreq).
  - cbn [response_schema]. unfold validate_ListLeaguesResponse, required.
    cbn [lookup String.eqb Ascii.eqb Bool.eqb validate_list at_loc].
    rewrite Hls. reflexivity.
Qed.

Lemma list_leagues_normalized_witness :
  let p := mkRetryPolicy 3 1 30 2 0 in
  let league := [ ("leagueId", PInt 4741); ("leagueName", PStr "1. Fussball-Bundesliga");
                  ("leagueShortcut", PStr "bl1"); ("leagueSeason", PStr "2024") ] in
  let w := answering (PList [PDict league; PStr "noise"]) in
  fst (@execute_operation no_parsing (OpenLigaProvider p) "ListLeagues"
         [("unused", PInt 1)] w)
  = Returned
      [ ("leagues",
         PList [ PDict [ ("id", PInt 4741);
                         ("name", PStr "1. Fussball-Bundesliga");
                         ("shortcut", PStr "bl1"); ("country", PStr "");
                         ("season", PStr "2024") ] ]) ].
Proof.
  intros p league w.
  exact (f_equal fst
           (@list_leagues_normalized no_parsing p [("unused", PInt 1)] w
              [PDict league; PStr "noise"]
              (snd (_make_request p (base_url ++ "/getavailableleagues") w))
              eq_refl eq_refl)).
Defined.

Module RejectFacts.

Lemma ap_invalid_l {A B} errors (r : validated A) :
  exists errors', ap (@Invalid (A -> B) errors) r = Invalid errors'.
Proof. unfold ap. eauto. Qed.

Lemma ap_invalid_r {A B} (f : validated (A -> B)) errors :
  exists errors', ap f (Invalid errors) = Invalid errors'.
Proof. unfold ap. destruct f; eauto. Qed.

(** A value that is not a string is rejected by a [str] field. *)
Lemma required_str_rejects d key v :
  lookup key d = Some v -> is_str v = false ->
  exists errors, required d key validate_str = Invalid errors.
Proof.
  intros Hl Hv. unfold required. rewrite Hl.
  destruct v; try discriminate; cbn; eauto.
Qed.

(** The team model rejects a record whose [name] or [short_name] is not a
    string. *)
Lemma TeamDetail_rejects lax d v :
  (lookup "name" d = Some v \/ lookup "short_name" d = Some v) ->
  is_str v = false ->
  exists errors, TeamDetail_fields lax d = Invalid errors.
Proof.
  intros [Hl | Hl] Hv; unfold TeamDetail_fields;
    destruct (required_str_rejects d _ Hl Hv) as (e & ->).
  - destruct (ap_invalid_r
                (ap (Valid TeamDetail.mk) (required d "team_id" (validate_int lax)))
                e) as (e1 & ->).
    destruct (ap_invalid_l (B := option string -> TeamDetail.t) e1
                (required d "short_name" validate_str)) as (e2 & ->).
    apply ap_invalid_l.
  - destruct (ap_invalid_r
                (ap (ap (Valid TeamDetail.mk)
                       (required d "team_id" (validate_int lax)))
                    (required d "name" validate_str))
                e) as (e1 & ->).
    apply ap_invalid_l.
Qed.

Lemma execute_rejected lax (provider : SportsProvider) operation_type cfg
    payload validated_payload w provider_response w' errors :
  find_operation operation_type (operation_map lax) = Some cfg ->
  payload_validator cfg payload = Valid validated_payload ->
  provider_call cfg validated_payload w = (Returned provider_response, w') ->
  response_schema cfg provider_response = Invalid errors ->
  execute_operation lax operation_type payload w
  = (Returned
       (error_dict "Internal response normalization error" "INTERNAL_ERROR"
          [ ("message", PStr "Provider response format unexpected") ]),
     w').
Proof.
  intros Hf Hv Hc Hn. unfold execute_operation, bind.
  rewrite Hf, Hv, Hc, Hn. reflexivity.
Qed.

End RejectFacts.

(** X14.  The defaults of [get_team] cover missing keys only.  When the
    upstream object carries [teamName] or [shortName] with a value that is
    not a string (an explicit null, a number), that value is passed on, the
    response model rejects it, and GetTeam ends in INTERNAL_ERROR. *)
Theorem get_team_non_string_name_is_rejected :
  forall (lax : Lax) p payload team_id w d w' v,
    validate_GetTeamPayload lax payload = Valid (GetTeamPayload team_id) ->
    _make_request p (base_url ++ "/getteam/" ++ str_of_Z team_id) w
    = (Returned (PDict d), w') ->
    lookup "teamName" d = Some v \/ lookup "shortName" d = Some v ->
    is_str v = false ->
    @execute_operation lax (OpenLigaProvider p) "GetTeam" payload w
    = (Returned
         (error_dict "Internal response normalization error" "INTERNAL_ERROR"
            [ ("message", PStr "Provider response format unexpected") ]),
       w').
Proof.
  intros lax p payload team_id w d w' v Hv Hreq Hl Hs.
  assert (Hrej : exists errors,
             validate_GetTeamResponse lax (team_of (PDict d)) = Invalid errors).
  { unfold validate_GetTeamResponse, team_of, required.
    cbn [lookup String.eqb Ascii.eqb Bool.eqb validate_model team_record].
    destruct (@RejectFacts.TeamDetail_rejects lax
                [ ("team_id", get d "teamId" (PInt 0));
                  ("name", get d "teamName" (PStr ""));
                  ("short_name", get d "shortName" (PStr ""));
                  ("icon_url", get_none d "teamIconUrl") ] v) as (e & ->).
    - unfold get. destruct Hl as [-> | ->]; [left | right]; reflexivity.
    - exact Hs.
    - cbn. eauto. }
  destruct Hrej as (errors & Hrej).
  eapply (@RejectFacts.execute_rejected lax (OpenLigaProvider p) "GetTeam" _
            payload (GetTeamPayload team_id) w (team_of (PDict d)) w' errors).
  - reflexivity.
  - exact Hv.
  - exact (@MappingFacts.after_request_returned _ p _
             (fun data => Returned (team_of data)) w (PDict d) w' Hreq).
  - exact Hrej.
Qed.

Lemma get_team_non_string_name_is_rejected_witness :
  let p := mkRetryPolicy 3 1 30 2 0 in
  let w := answering (PDict [("teamId", PInt 40); ("teamName", PNone)]) in
  fst (@execute_operation no_parsing (OpenLigaProvider p) "GetTeam"
         [("team_id", PInt 40)] w)
  = Returned
      (error_dict "Internal response normalization error" "INTERNAL_ERROR"
         [ ("message", PStr "Provider response format unexpected") ]).
Proof.
  intros p w.
  exact (f_equal fst
           (@get_team_non_string_name_is_rejected no_parsing p
              [("team_id", PInt 40)] 40 w
              [("teamId", PInt 40); ("teamName", PNone)]
              (snd (_make_request p (base_url ++ "/getteam/" ++ str_of_Z 40) w))
              PNone eq_refl eq_refl (or_introl eq_refl) eq_refl)).
Defined.

(** X15.  [get_match] finds a match exactly when the payload resolves (first
    element of an array, or the object itself) to a non-empty object; it
    then maps that object and ignores the rest of the array.  Everything
    else, including an empty object and an array that starts with one,
    raises "Match not found". *)
Theorem get_match_found_iff :
  forall data,
    (forall match_,
        resolved data = PDict match_ -> match_ <> [] ->
        match_of data
        = Returned [ ("match",
                      match_record (get match_ "leagueName" (PStr "")) match_) ])
    /\ ((forall match_, resolved data = PDict match_ -> match_ = []) ->
        match_of data = Raised "Match not found").
Proof.
  intros data. split.
  - intros match_ Hres Hne.
    destruct data as [| b | z | q | s | [| first rest] | d |];
      cbn [resolved] in Hres; try discriminate.
    + subst first. unfold match_of.
      destruct match_ as [| kv match_]; [congruence |]. reflexivity.
    + injection Hres as ->. unfold match_of.
      destruct match_ as [| kv match_]; [congruence |]. reflexivity.
  - intros Hres. unfold match_of.
    destruct (truthy data) eqn:Ht; cbn [negb]; [| reflexivity].
    destruct data as [| b | z | q | s | [| first rest] | d |];
      try reflexivity; try discriminate.
    + cbn [is_list items length Nat.ltb Nat.leb andb nth].
      destruct first as [| | | | | | d |];
        cbn [is_dict negb]; rewrite ?orb_true_r; try reflexivity.
      rewrite (Hres d eq_refl). reflexivity.
    + rewrite (Hres d eq_refl) in Ht. discriminate.
Qed.

Lemma get_match_found_iff_witness :
  match_of (PList [PDict [("matchID", PInt 7)]; PInt 0])
  = Returned [ ("match", match_record (PStr "") [("matchID", PInt 7)]) ]
  /\ match_of (PList [PDict []]) = Raised "Match not found".
Proof.
  split.
  - apply (proj1 (get_match_found_iff
                    (PList [PDict [("matchID", PInt 7)]; PInt 0]))
             [("matchID", PInt 7)]); [reflexivity | discriminate].
  - apply (proj2 (get_match_found_iff (PList [PDict []]))).
    intros match_ [= <-]. reflexivity.
Defined.

(** X16.  Once the request has returned, [get_league_matches] never fails:
    it returns one match record for each object element of the upstream
    array, in order, skipping the other elements; a body that is not an
    array gives the empty list. *)
Theorem league_matches_keep_the_objects :
  forall p league_shortcut league_season w data w',
    _make_request p
      (base_url ++ "/getmatchdata/" ++ league_shortcut ++ "/" ++ league_season)
      w = (Returned data, w') ->
    @get_league_matches (OpenLigaProvider p) league_shortcut league_season w
    = (Returned
         [ ("matches",
            PList (map (fun v => match_record (PStr league_shortcut)
                                   (dict_or_empty v))
                     (filter is_dict (items data)))) ],
       w').
Proof.
  intros p league_shortcut league_season w data w' Hreq.
  assert (Hcall : @get_league_matches (OpenLigaProvider p) league_shortcut
                    league_season w
                  = (Returned (matches_of league_shortcut data), w'))
    by exact (@MappingFacts.after_request_returned _ p _
                (fun data => Returned (matches_of league_shortcut data))
                w data w' Hreq).
  rewrite Hcall.
  unfold matches_of. rewrite LeagueFacts.map_matches_filter.
  destruct data; reflexivity.
Qed.

Lemma league_matches_keep_the_objects_witness :
  let p := mkRetryPolicy 3 1 30 2 0 in
  let w := answering (PList [PNone; PDict [("matchID", PInt 7)]]) in
  fst (@get_league_matches (OpenLigaProvider p) "bl1" "2024" w)
  = Returned
      [ ("matches", PList [ match_record (PStr "bl1") [("matchID", PInt 7)] ]) ].
Proof.
  intros p w.
  exact (f_equal fst
           (@league_matches_keep_the_objects p "bl1" "2024" w
              (PList [PNone; PDict [("matchID", PInt 7)]])
              (snd (_make_request p (base_url ++ "/getmatchdata/bl1/2024") w))
              eq_refl)).
Defined.

(** X17.  In a match record, a team sub-object that is missing or is not an
    object is replaced by the all-defaults team (id 0, empty names, no
    icon); the match itself is still mapped. *)
Theorem malformed_team_gets_defaults :
  forall league_name match_,
    ((forall team, lookup "team1" match_ <> Some (PDict team)) ->
     lookup "team_home" (dict_or_empty (match_record league_name match_))
     = Some default_team_raw)
    /\ ((forall team, lookup "team2" match_ <> Some (PDict team)) ->
        lookup "team_away" (dict_or_empty (match_record league_name match_))
        = Some default_team_raw).
Proof.
  intros league_name match_.
  assert (H : forall key,
             (forall team, lookup key match_ <> Some (PDict team)) ->
             team_record (dict_or_empty (get match_ key (PDict [])))
             = default_team_raw).
  { intros key Hk. unfold get.
    destruct (lookup key match_) as [v |]; [| reflexivity].
    destruct v; try reflexivity. exfalso. eapply Hk. reflexivity. }
  split; intros Hk; cbn; rewrite (H _ Hk); reflexivity.
Qed.

Lemma malformed_team_gets_defaults_witness :
  lookup "team_home"
    (dict_or_empty
       (match_record (PStr "bl1") [("matchID", PInt 7); ("team1", PStr "FCB")]))
  = Some default_team_raw.
Proof.
  apply (proj1 (malformed_team_gets_defaults (PStr "bl1")
                  [("matchID", PInt 7); ("team1", PStr "FCB")])).
  intros team. discriminate.
Defined.

(** ** The dispatcher, continued *)

Module RegistryFacts.

Lemma find_operation_unknown lax (provider : SportsProvider) operation_type :
  ~ In operation_type operation_names ->
  find_operation operation_type (operation_map lax) = None.
Proof.
  intros H. unfold operation_map. cbn [find_operation].
  destruct (String.eqb_spec operation_type "ListLeagues") as [-> |];
    [exfalso; apply H; cbn; auto |].
  destruct (String.eqb_spec operation_type "GetLeagueMatches") as [-> |];
    [exfalso; apply H; cbn; auto |].
  destruct (String.eqb_spec operation_type "GetTeam") as [-> |];
    [exfalso; apply H; cbn; auto |].
  destruct (String.eqb_spec operation_type "GetMatch") as [-> |];
    [exfalso; apply H; cbn; auto 6 |].
  reflexivity.
Qed.

Lemma find_operation_known lax (provider : SportsProvider) operation_type :
  In operation_type operation_names ->
  exists cfg, find_operation operation_type (operation_map lax) = Some cfg.
Proof.
  cbn. intros [<- | [<- | [<- | [<- | []]]]]; eexists; reflexivity.
Qed.

End RegistryFacts.

(** X18.  An operation name outside the registry is refused before anything
    else happens: the result is the UNKNOWN_OPERATION dict, whose details
    list the four registered names in order, and the world is untouched (no
    request, no limiter slot).  A registered name never yields that code. *)
Theorem unknown_operation_is_refused :
  forall (lax : Lax) (provider : SportsProvider) operation_type payload w,
    (~ In operation_type operation_names ->
     execute_operation lax operation_type payload w
     = (Returned
          (error_dict ("Unknown operationType: " ++ operation_type)
             "UNKNOWN_OPERATION"
             [ ("valid_operations", PList (map PStr operation_names)) ]),
        w))
    /\ (In operation_type operation_names ->
        forall r w',
          execute_operation lax operation_type payload w = (Returned r, w') ->
          lookup "code" r <> Some (PStr "UNKNOWN_OPERATION")).
Proof.
  intros lax provider operation_type payload w. split.
  - intros H. unfold execute_operation.
    rewrite (@RegistryFacts.find_operation_unknown lax provider operation_type H).
    reflexivity.
  - intros H r w' E.
    destruct (@RegistryFacts.find_operation_known lax provider operation_type H)
      as (cfg0 & Hf0).
    destruct (DispatcherFacts.execute_operation_cases lax operation_type payload w)
      as [[Hnone _] | [(cfg & errors & _ & _ & E')
                | (cfg & vp & w2 & Hf & Hv &
                   [[Hc E'] | [(e & _ & E')
                             | [(resp & errors & _ & _ & E')
                               | (resp & n & _ & Hn & E')]]])]];
      try congruence;
      rewrite E' in E; injection E as <- <- || discriminate E;
      try discriminate.
    destruct n; discriminate.
Qed.

Lemma unknown_operation_is_refused_witness :
  let provider := OpenLigaProvider (mkRetryPolicy 3 1 30 2 0) in
  let w := answering (PList []) in
  execute_operation no_parsing "getteam" [("team_id", PInt 40)] w
  = (Returned
       (error_dict "Unknown operationType: getteam" "UNKNOWN_OPERATION"
          [ ("valid_operations",
             PList [ PStr "ListLeagues"; PStr "GetLeagueMatches";
                     PStr "GetTeam"; PStr "GetMatch" ]) ]),
     w).
Proof.
  intros provider w.
  apply (proj1 (@unknown_operation_is_refused no_parsing provider "getteam"
                  [("team_id", PInt 40)] w)).
  cbn. intros [H | [H | [H | [H | []]]]]; discriminate H.
Defined.

(** X19.  A GetLeagueMatches payload that carries a string
    [league_shortcut] but no [league_season] is refused before any provider
    call: the result is VALIDATION_ERROR with exactly one entry, which names
    the field [league_season], and the world is untouched. *)
Theorem missing_season_is_a_validation_error :
  forall (lax : Lax) (provider : SportsProvider) payload shortcut w,
    lookup "league_shortcut" payload = Some (PStr shortcut) ->
    lookup "league_season" payload = None ->
    execute_operation lax "GetLeagueMatches" payload w
    = (Returned
         (error_dict "Payload validation failed" "VALIDATION_ERROR"
            [ ("validation_errors",
               PList [ PDict [ ("field", PStr "league_season");
                               ("message", PStr "Field required");
                               ("type", PStr "missing") ] ]) ]),
       w).
Proof.
  intros lax provider payload shortcut w Hs Hn.
  unfold execute_operation, operation_map.
  cbn [find_operation String.eqb Ascii.eqb Bool.eqb payload_validator].
  unfold validate_GetLeagueMatchesPayload, required. rewrite Hs, Hn.
  reflexivity.
Qed.

Lemma missing_season_is_a_validation_error_witness :
  let provider := OpenLigaProvider (mkRetryPolicy 3 1 30 2 0) in
  let w := answering (PList []) in
  execute_operation no_parsing "GetLeagueMatches"
    [("league_shortcut", PStr "bl1")] w
  = (Returned
       (error_dict "Payload validation failed" "VALIDATION_ERROR"
          [ ("validation_errors",
             PList [ PDict [ ("field", PStr "league_season");
                             ("message", PStr "Field required");
                             ("type", PStr "missing") ] ]) ]),
     w).
Proof.
  intros provider w.
  apply (@missing_season_is_a_validation_error no_parsing provider
           [("league_shortcut", PStr "bl1")] "bl1" w);
    reflexivity.
Defined.

(** ** The HTTP endpoint *)

Module EndpointFacts.

(** The endpoint only reshapes what the dispatcher returns. *)
Lemma proxy_execute_eq lax (provider : SportsProvider) ctx uuid4 request w :
  proxy_execute lax ctx uuid4 request w
  = (match fst (execute_operation lax
                  (ProxyExecuteRequest.operationType request)
                  (ProxyExecuteRequest.payload request) w) with
     | Returned result =>
         if has_key "error" result
         then Returned (error_status result, result)
         else Returned
                (200,
                 [ ("requestId",
                    PStr (or_str ctx
                            (or_str (ProxyExecuteRequest.requestId request) uuid4)));
                   ("operationType",
                    PStr (ProxyExecuteRequest.operationType request));
                   ("data", PDict result) ])
     | Raised e =>
         Returned
           (500,
            [ ("error", PStr "Internal server error");
              ("code", PStr "INTERNAL_ERROR");
              ("requestId",
               PStr (or_str ctx
                       (or_str (ProxyExecuteRequest.requestId request) uuid4))) ])
     | Hangs => Hangs
     end,
     snd (execute_operation lax (ProxyExecuteRequest.operationType request)
            (ProxyExecuteRequest.payload request) w)).
Proof.
  unfold proxy_execute, bind.
  destruct (execute_operation lax _ _ w) as [r w']. reflexivity.
Qed.

Lemma model_dump_no_error n : has_key "error" (model_dump n) = false.
Proof. destruct n; reflexivity. Qed.

End EndpointFacts.

(** X20.  The endpoint's HTTP status follows the dispatcher's result: 200
    exactly for a result without the key "error", which is then wrapped
    under "data"; otherwise the content is the dispatcher's error dict as it
    is (no request id is added to it), with status 502 for UPSTREAM_ERROR,
    500 for INTERNAL_ERROR and 400 for UNKNOWN_OPERATION and
    VALIDATION_ERROR.  The handler's own "Internal server error" fallback is
    never used, because the dispatcher never raises. *)
Theorem status_follows_the_error_code :
  forall (lax : Lax) (provider : SportsProvider) ctx uuid4 request w,
    match fst (proxy_execute lax ctx uuid4 request w),
          fst (execute_operation lax
                 (ProxyExecuteRequest.operationType request)
                 (ProxyExecuteRequest.payload request) w) with
    | Returned (status, content), Returned result =>
        (has_key "error" result = false
         /\ status = 200
         /\ lookup "data" content = Some (PDict result)
         /\ has_key "error" content = false)
        \/ (content = result
            /\ has_key "requestId" content = false
            /\ exists code,
                lookup "code" result = Some (PStr code)
                /\ ((code = "UPSTREAM_ERROR" /\ status = 502)
                    \/ (code = "INTERNAL_ERROR" /\ status = 500)
                    \/ ((code = "UNKNOWN_OPERATION" \/ code = "VALIDATION_ERROR")
                        /\ status = 400)))
    | Hangs, Hangs => True
    | _, _ => False
    end.
Proof.
  intros lax provider ctx uuid4 request w.
  rewrite EndpointFacts.proxy_execute_eq. cbn [fst].
  destruct (DispatcherFacts.execute_operation_cases lax
              (ProxyExecuteRequest.operationType request)
              (ProxyExecuteRequest.payload request) w)
    as [[_ E] | [(cfg & errors & _ & _ & E)
                | (cfg & vp & w' & Hf & Hv &
                   [[Hc E] | [(e & _ & E)
                             | [(resp & errors & _ & _ & E)
                               | (resp & n & _ & Hn & E)]]])]];
    rewrite E; cbn [fst].
  - right. cbn. split; [reflexivity |]. split; [reflexivity |].
    eexists. split; [reflexivity |]. auto 6.
  - right. cbn. split; [reflexivity |]. split; [reflexivity |].
    eexists. split; [reflexivity |]. auto 6.
  - exact I.
  - right. cbn. split; [reflexivity |]. split; [reflexivity |].
    eexists. split; [reflexivity |]. auto 6.
  - right. cbn. split; [reflexivity |]. split; [reflexivity |].
    eexists. split; [reflexivity |]. auto 6.
  - rewrite (EndpointFacts.model_dump_no_error n). left.
    split; [reflexivity |].
    split; [reflexivity |]. split; reflexivity.
Qed.

(** ** Repeating an operation *)

Module RepeatFacts.

(** With room in the window the limiter grants the slot and stays
    unlocked, one timestamp fuller at most. *)
Lemma acquire_slot_room w :
  RateLimiter.locked (rate_limiter w) = false ->
  Z.of_nat (length (RateLimiter.requests (rate_limiter w)))
    < RateLimiter.max_requests (rate_limiter w) ->
  fst (acquire_slot w) = Returned tt
  /\ RateLimiter.locked (rate_limiter (snd (acquire_slot w))) = false
  /\ RateLimiter.max_requests (rate_limiter (snd (acquire_slot w)))
     = RateLimiter.max_requests (rate_limiter w)
  /\ (length (RateLimiter.requests (rate_limiter (snd (acquire_slot w))))
      <= S (length (RateLimiter.requests (rate_limiter w))))%nat.
Proof.
  intros Hl Hroom.
  pose proof (RateLimiterFacts.filter_length_le
                (RateLimiter.fresh (RateLimiter.time_window (rate_limiter w))
                   (clock w))
                (RateLimiter.requests (rate_limiter w))) as Hf.
  fold (RateLimiter.prune (rate_limiter w) (clock w)) in Hf.
  unfold acquire_slot.
  destruct (RateLimiterFacts.acquire_cases (rate_limiter w) (clock w) Hl)
    as [[_ E] | [[Hfull _] | [Hfull _]]]; try lia.
  rewrite E. cbn. rewrite length_app. cbn. repeat split; lia.
Qed.

(** Against an upstream that answers 200 with [body], a request made with
    room in the window returns [body] and leaves the upstream as it was. *)
Lemma request_returns p url w body :
  (forall u n, upstream w u n = Answer 200 body) ->
  0 <= max_retries p ->
  RateLimiter.locked (rate_limiter w) = false ->
  Z.of_nat (length (RateLimiter.requests (rate_limiter w)))
    < RateLimiter.max_requests (rate_limiter w) ->
  fst (_make_request p url w) = Returned body
  /\ upstream (snd (_make_request p url w)) = upstream w
  /\ RateLimiter.locked (rate_limiter (snd (_make_request p url w))) = false
  /\ RateLimiter.max_requests (rate_limiter (snd (_make_request p url w)))
     = RateLimiter.max_requests (rate_limiter w)
  /\ (length (RateLimiter.requests (rate_limiter (snd (_make_request p url w))))
      <= S (length (RateLimiter.requests (rate_limiter w))))%nat.
Proof.
  intros Hup Hmax Hl Hroom.
  destruct (acquire_slot_room w Hl Hroom) as (Hslot & Hl1 & Hm1 & Hlen1).
  destruct (RetryFacts.acquire_slot_effect w) as (_ & Hs & _ & Hu & _).
  rewrite (RequestFacts.make_request_granted p url w Hslot).
  replace (Z.to_nat (max_retries p + 1)) with (S (Z.to_nat (max_retries p)))
    by lia.
  rewrite LoopFacts.loop_unfold, BackoffFacts.session_request_eq.
  cbn [seen send retry_total]. rewrite Hu, Hup. cbn.
  repeat split; auto.
Qed.

(** Every provider method of [OpenLigaProvider] is one request followed by a
    mapping of its body. *)
Lemma provider_call_shape lax p operation_type cfg validated_payload :
  find_operation operation_type (@operation_map lax (OpenLigaProvider p))
  = Some cfg ->
  (exists url k, provider_call cfg validated_payload = after_request p url k)
  \/ provider_call cfg validated_payload = no_attribute.
Proof.
  unfold operation_map. cbn [find_operation].
  destruct (String.eqb operation_type "ListLeagues");
    [intros [= <-]; left; cbn; eauto |].
  destruct (String.eqb operation_type "GetLeagueMatches");
    [intros [= <-]; destruct validated_payload; cbn; eauto |].
  destruct (String.eqb operation_type "GetTeam");
    [intros [= <-]; destruct validated_payload; cbn; eauto |].
  destruct (String.eqb operation_type "GetMatch");
    [intros [= <-]; destruct validated_payload; cbn; eauto |].
  discriminate.
Qed.

(** The result of an operation is a function of the body that the request
    returned. *)
Lemma execute_after_request lax p operation_type cfg payload validated_payload
    url k w body :
  find_operation operation_type (@operation_map lax (OpenLigaProvider p))
  = Some cfg ->
  payload_validator cfg payload = Valid validated_payload ->
  provider_call cfg validated_payload = after_request p url k ->
  fst (_make_request p url w) = Returned body ->
  @execute_operation lax (OpenLigaProvider p) operation_type payload w
  = (match k body with
     | Returned provider_response =>
         match response_schema cfg provider_response with
         | Valid n => Returned (model_dump n)
         | Invalid _ =>
             Returned
               (error_dict "Internal response normalization error"
                  "INTERNAL_ERROR"
                  [ ("message", PStr "Provider response format unexpected") ])
         end
     | Raised e =>
         Returned (error_dict "Upstream API failed" "UPSTREAM_ERROR"
                     [ ("message", PStr e) ])
     | Hangs => Hangs
     end,
     snd (_make_request p url w)).
Proof.
  intros Hf Hv Hc Hreq. unfold execute_operation, bind.
  rewrite Hf, Hv, Hc. unfold after_request, bind.
  destruct (_make_request p url w) as [r w1]. cbn [fst snd] in *. subst r.
  cbn [ret]. destruct (k body) as [resp | e |]; try reflexivity.
  destruct (response_schema cfg resp); reflexivity.
Qed.

End RepeatFacts.

(** X21.  Repeating an operation against an unchanged upstream gives the
    same result: when the upstream answers every request with status 200
    and the same body, and the limiter has room for two more requests, a
    second call of the same operation with the same payload, made right
    after the first, returns exactly what the first returned. *)
Theorem repeated_call_same_result :
  forall (lax : Lax) p operation_type payload w body,
    (forall url n, upstream w url n = Answer 200 body) ->
    0 <= max_retries p ->
    RateLimiter.locked (rate_limiter w) = false ->
    Z.of_nat (length (RateLimiter.requests (rate_limiter w))) + 2
      <= RateLimiter.max_requests (rate_limiter w) ->
    let first :=
      @execute_operation lax (OpenLigaProvider p) operation_type payload w in
    fst (@execute_operation lax (OpenLigaProvider p) operation_type payload
           (snd first))
    = fst first.
Proof.
  intros lax p operation_type payload w body Hup Hmax Hl Hroom. cbv zeta.
  destruct (find_operation operation_type (@operation_map lax (OpenLigaProvider p)))
    as [cfg |] eqn:Hf.
  - destruct (payload_validator cfg payload) as [vp | errors] eqn:Hv.
    + destruct (@RepeatFacts.provider_call_shape lax p operation_type cfg vp Hf)
        as [(url & k & Hc) | Hc].
      * destruct (@RepeatFacts.request_returns p url w body Hup Hmax Hl)
          as (Hr1 & Hu1 & Hl1 & Hm1 & Hlen1); [lia |].
        rewrite (@RepeatFacts.execute_after_request lax p operation_type cfg
                   payload vp url k w body Hf Hv Hc Hr1).
        cbn [fst snd].
        destruct (@RepeatFacts.request_returns p url
                    (snd (_make_request p url w)) body)
          as (Hr2 & _); auto.
        { intros u n. rewrite Hu1. apply Hup. }
        { rewrite Hm1. lia. }
        rewrite (@RepeatFacts.execute_after_request lax p operation_type cfg
                   payload vp url k (snd (_make_request p url w)) body
                   Hf Hv Hc Hr2).
        reflexivity.
      * unfold execute_operation, bind. rewrite Hf, Hv, Hc. cbn.
        rewrite ?Hf, ?Hv, ?Hc. reflexivity.
    + unfold execute_operation. rewrite Hf, Hv. cbn.
      rewrite ?Hf, ?Hv. reflexivity.
  - unfold execute_operation. rewrite Hf. cbn. rewrite ?Hf. reflexivity.
Qed.

Lemma repeated_call_same_result_witness :
  let p := mkRetryPolicy 3 1 30 2 0 in
  let w := answering (PList [PDict [("leagueId", PInt 1)]]) in
  let first :=
    @execute_operation no_parsing (OpenLigaProvider p) "ListLeagues" [] w in
  fst (@execute_operation no_parsing (OpenLigaProvider p) "ListLeagues" []
         (snd first))
  = fst first.
Proof.
  intros p w.
  apply (@repeated_call_same_result no_parsing p "ListLeagues" [] w
           (PList [PDict [("leagueId", PInt 1)]])).
  - intros url n. reflexivity.
  - discriminate.
  - reflexivity.
  - discriminate.
Defined.

(** ** Audit log entries *)

Module DictFacts.

Lemma lookup_dict_set k k' v d :
  lookup k (dict_set k' v d) = if String.eqb k k' then Some v else lookup k d.
Proof.
  induction d as [| [k0 v0] d IH]; cbn [dict_set lookup]; [reflexivity |].
  destruct (String.eqb_spec k' k0) as [-> | Hne]; cbn [lookup].
  - destruct (String.eqb k k0); reflexivity.
  - rewrite IH. destruct (String.eqb_spec k k0) as [-> | Hne'].
    + destruct (String.eqb_spec k0 k'); [congruence | reflexivity].
    + reflexivity.
Qed.

Lemma lookup_absent k d : ~ In k (map fst d) -> lookup k d = None.
Proof.
  induction d as [| [k0 v0] d IH]; cbn; [reflexivity |].
  intros H. destruct (String.eqb_spec k k0) as [-> | Hne]; [tauto |].
  apply IH. tauto.
Qed.

Lemma lookup_present k d v : lookup k d = Some v -> In k (map fst d).
Proof.
  induction d as [| [k0 v0] d IH]; cbn; [discriminate |].
  destruct (String.eqb_spec k k0) as [-> | Hne]; [auto | auto].
Qed.

(** After [d.update(kwargs)] a key has the value [kwargs] gives it, or else
    the one it had in [d]. *)
Lemma lookup_dict_update k kwargs :
  NoDup (map fst kwargs) ->
  forall d,
    lookup k (dict_update d kwargs)
    = match lookup k kwargs with
      | Some v => Some v
      | None => lookup k d
      end.
Proof.
  unfold dict_update.
  induction kwargs as [| [k1 v1] kwargs IH]; intros Hnd d; [reflexivity |].
  cbn [map fst] in Hnd. apply NoDup_cons_iff in Hnd as [Hnot Hnd].
  cbn [fold_left fst snd lookup]. rewrite (IH Hnd), lookup_dict_set.
  destruct (String.eqb_spec k k1) as [-> | Hne]; [| reflexivity].
  rewrite (lookup_absent _ _ Hnot). reflexivity.
Qed.

Lemma dict_remove_keys k d x :
  In x (map fst (dict_remove k d)) -> In x (map fst d).
Proof.
  induction d as [| [k0 v0] d IH]; cbn; [auto |].
  destruct (String.eqb k k0); cbn; [auto | intuition].
Qed.

Lemma dict_remove_nodup k d :
  NoDup (map fst d) -> NoDup (map fst (dict_remove k d)).
Proof.
  induction d as [| [k0 v0] d IH]; cbn; [auto |].
  intros Hnd. apply NoDup_cons_iff in Hnd as [Hnot Hnd].
  destruct (String.eqb k k0); cbn; [exact Hnd |].
  constructor; [| auto].
  intros Hin. apply Hnot. eapply dict_remove_keys. exact Hin.
Qed.

Lemma lookup_dict_remove k k' d :
  NoDup (map fst d) ->
  lookup k (dict_remove k' d)
  = if String.eqb k k' then None else lookup k d.
Proof.
  induction d as [| [k0 v0] d IH]; cbn [dict_remove lookup map fst]; intros Hnd.
  - destruct (String.eqb k k'); reflexivity.
  - apply NoDup_cons_iff in Hnd as [Hnot Hnd].
    destruct (String.eqb_spec k' k0) as [-> | Hne].
    + destruct (String.eqb_spec k k0) as [-> | Hne'];
        [apply lookup_absent; exact Hnot | reflexivity].
    + cbn [lookup]. rewrite (IH Hnd).
      destruct (String.eqb_spec k k0) as [-> | Hne'];
        [| reflexivity].
      destruct (String.eqb_spec k0 k'); [congruence | reflexivity].
Qed.

End DictFacts.

(** X22.  The entry that [audit_log] prints always has the keys
    [requestId] and [timestamp]; every keyword argument other than
    [request_id] is in it with its value; unless a keyword argument
    overrides it, [requestId] is the context's id, else the [request_id]
    argument, else "N/A".  The key [request_id] itself is logged exactly
    when the context has an id and the caller passes [request_id] as well
    (the [or] then never pops it), as the middleware does. *)
Theorem audit_log_entry :
  forall context_request_id timestamp kwargs,
    NoDup (map fst kwargs) ->
    let entry := audit_log context_request_id timestamp kwargs in
    has_key "requestId" entry = true
    /\ has_key "timestamp" entry = true
    /\ (forall k v,
           k <> "request_id" ->
           lookup k kwargs = Some v -> lookup k entry = Some v)
    /\ (lookup "requestId" kwargs = None ->
        lookup "requestId" entry
        = Some match context_id context_request_id with
               | Some s => PStr s
               | None => get kwargs "request_id" (PStr "N/A")
               end)
    /\ (has_key "request_id" entry = true
        <-> context_id context_request_id <> None
            /\ has_key "request_id" kwargs = true).
Proof.
  intros ctx timestamp kwargs Hnd. cbv zeta. unfold audit_log, has_key.
  destruct (context_id ctx) as [s |].
  - rewrite !(DictFacts.lookup_dict_update _ _ Hnd).
    split; [destruct (lookup "requestId" kwargs); reflexivity |].
    split; [destruct (lookup "timestamp" kwargs); reflexivity |].
    split; [intros k v _ H; rewrite (DictFacts.lookup_dict_update _ _ Hnd), H;
            reflexivity |].
    split; [intros H; rewrite H; reflexivity |].
    destruct (lookup "request_id" kwargs); cbn.
    + split; [intros _; split; [discriminate | reflexivity]
             | intros _; reflexivity].
    + split; [discriminate | intros [_ H]; discriminate H].
  - pose proof (DictFacts.dict_remove_nodup "request_id" kwargs Hnd) as Hnd'.
    rewrite !(DictFacts.lookup_dict_update _ _ Hnd').
    rewrite !(DictFacts.lookup_dict_remove _ _ _ Hnd).
    cbn [String.eqb Ascii.eqb Bool.eqb].
    split; [destruct (lookup "requestId" kwargs); reflexivity |].
    split; [destruct (lookup "timestamp" kwargs); reflexivity |].
    split.
    + intros k v Hk H.
      rewrite (DictFacts.lookup_dict_update _ _ Hnd'),
        (DictFacts.lookup_dict_remove _ _ _ Hnd).
      destruct (String.eqb_spec k "request_id"); [congruence |].
      rewrite H. reflexivity.
    + split; [intros H; rewrite H; reflexivity |].
      cbn. split; [discriminate | intros [H _]; congruence].
Qed.

Lemma audit_log_entry_witness :
  let kwargs := [ ("request_id", PStr "abc"); ("stage", PStr "inbound") ] in
  let entry := audit_log (Some "abc") "2024-01-01T00:00:00" kwargs in
  has_key "requestId" entry = true
  /\ has_key "timestamp" entry = true
  /\ (forall k v,
         k <> "request_id" ->
         lookup k kwargs = Some v -> lookup k entry = Some v)
  /\ (lookup "requestId" kwargs = None ->
      lookup "requestId" entry
      = Some match context_id (Some "abc") with
             | Some s => PStr s
             | None => get kwargs "request_id" (PStr "N/A")
             end)
  /\ (has_key "request_id" entry = true
      <-> context_id (Some "abc") <> None
          /\ has_key "request_id" kwargs = true).
Proof.
  intros kwargs.
  apply (@audit_log_entry (Some "abc") "2024-01-01T00:00:00" kwargs).
  repeat constructor; cbn; intuition discriminate.
Defined.
